(** * Time Machine Snapshot Manager: the batch deletion engine

    A shallow embedding of [src/clean-snapshots.tsx]: the bounded-concurrency
    runner [runWithConcurrencyLimit], the per-snapshot task and the summary of
    [deleteSnapshots], the password form and the preference parsing, the
    list [loadSnapshots] reads from the output of [tmutil], and the selection
    kept by [toggleSnapshot], [selectAll] and [deselectAll].

    JavaScript runs the program on one thread.  A promise reaction is a job of
    the microtask queue; the queue is emptied, first in first out, before the
    next callback of the event loop runs.  The only callbacks of the event
    loop that matter here are the completions of the child processes started
    by [exec]: they arrive in an order chosen by the environment. *)

From Stdlib Require Import Ascii String DecimalString DecimalNat DecimalFacts.
From stdpp Require Import base numbers list option sets.

Local Open Scope Z_scope.
Local Open Scope nat_scope.
Local Open Scope list_scope.

Set Warnings "-clear-no-such-hyp".

(** ** JavaScript strings and numbers *)

(** A string is its sequence of UTF-16 code units. *)
Abbreviation jsstring := (list N).

Definition lit (s : string) : jsstring :=
  map N_of_ascii (list_ascii_of_string s).

(** The numbers of the program: the lengths of its arrays and what
    [parseInt] answers, which is [NaN], a double whose value is an integer,
    the negative zero or an infinity.  [Int 0] is the positive zero. *)
Inductive jsnum :=
| NaN
| Int (z : Z)
| NegZero
| Infinity
| NegInfinity.

(** [a <= b]: false when an operand is [NaN]; the two zeros are equal. *)
Definition js_le (a b : jsnum) : bool :=
  match a, b with
  | NaN, _ | _, NaN => false
  | NegInfinity, _ | _, Infinity => true
  | Infinity, _ | _, NegInfinity => false
  | Int x, Int y => (x <=? y)%Z
  | Int x, NegZero => (x <=? 0)%Z
  | NegZero, Int y => (0 <=? y)%Z
  | NegZero, NegZero => true
  end.

Definition js_ge (a b : jsnum) : bool := js_le b a.

Definition js_length {A} (l : list A) : jsnum := Int (Z.of_nat (length l)).

(** The Number value for an integer: the nearest double, a tie going to the
    even significand.  Below [2^53] every integer is a double; from
    [2^1024 - 2^970] on the nearest value is an infinity. *)
Definition number (z : Z) : jsnum :=
  let a := Z.abs z in
  let e := (Z.log2 a - 52)%Z in
  if (e <=? 0)%Z then Int z
  else
    let q := Z.shiftr a e in
    let r := (a - Z.shiftl q e)%Z in
    let half := Z.shiftl 1 (e - 1) in
    let q' := if (half <? r)%Z || ((half =? r)%Z && Z.odd q) then (q + 1)%Z else q in
    if (2 ^ 1024 <=? Z.shiftl q' e)%Z then (if (z <? 0)%Z then NegInfinity else Infinity)
    else Int (Z.sgn z * Z.shiftl q' e).

(** [String.prototype.includes]. *)
Fixpoint startsWith (s p : jsstring) : bool :=
  match p, s with
  | [], _ => true
  | _ :: _, [] => false
  | c :: p', d :: s' => if bool_decide (c = d) then startsWith s' p' else false
  end.

Fixpoint includes (s sub : jsstring) : bool :=
  if startsWith s sub then true
  else match s with
       | [] => false
       | _ :: s' => includes s' sub
       end.

(** The code units [trim] and [parseInt] skip: WhiteSpace and
    LineTerminator of the language. *)
Definition isWhiteSpace (c : N) : bool :=
  bool_decide (c ∈ [9; 10; 11; 12; 13; 32; 160; 5760; 8232; 8233; 8239; 8287; 12288; 65279]%N)
  || ((8192 <=? c)%N && (c <=? 8202)%N).

Fixpoint trimStart (s : jsstring) : jsstring :=
  match s with
  | [] => []
  | c :: s' => if isWhiteSpace c then trimStart s' else s
  end.

Definition trimEnd (s : jsstring) : jsstring := rev (trimStart (rev s)).

Definition trim (s : jsstring) : jsstring := trimEnd (trimStart s).

(** A string is truthy when it is not empty; a missing property is falsy. *)
Definition truthy (s : jsstring) : bool :=
  match s with
  | [] => false
  | _ :: _ => true
  end.

(** [parseInt(s, 10)]: leading white space is skipped, a sign is read, then
    the longest run of decimal digits; no digit gives [NaN].  The answer is
    the Number value for the integer the digits denote, with the sign; it is
    the negative zero for a zero after a minus sign.  The language lets an
    engine read the digits after the twentieth as zeros; V8, the engine of
    Node, under which the extension runs, reads every digit. *)
Definition is_digit (c : N) : bool := (48 <=? c)%N && (c <=? 57)%N.

Definition digit (c : N) : option Z :=
  if ((48 <=? c)%N && (c <=? 57)%N)%bool then Some (Z.of_N c - 48)%Z else None.

Fixpoint digits (acc : Z) (s : jsstring) : Z :=
  match s with
  | [] => acc
  | c :: s' =>
      match digit c with
      | Some d => digits (10 * acc + d)%Z s'
      | None => acc
      end
  end.

(** The integer the leading digits denote; [None] when there is none. *)
Definition parseDigits (s : jsstring) : option Z :=
  match s with
  | [] => None
  | c :: _ =>
      match digit c with
      | Some _ => Some (digits 0 s)
      | None => None
      end
  end.

Definition parseInt10 (s : jsstring) : jsnum :=
  let S := trimStart s in
  let sign := match S with 45%N :: _ => (-1)%Z | _ => 1%Z end in
  let S' := match S with 45%N :: S' | 43%N :: S' => S' | _ => S end in
  match parseDigits S' with
  | None => NaN
  | Some mathInt =>
      if (mathInt =? 0)%Z then (if (sign =? -1)%Z then NegZero else Int 0)
      else number (sign * mathInt)
  end.

(** [n.toString()] for a count. *)
Definition toString (n : nat) : jsstring :=
  lit (DecimalString.NilZero.string_of_uint (Nat.to_uint n)).

(** ** The bounded-concurrency runner *)

(** What a call of an async function does before it gives control back: it
    returns, or it stops at an [await] of an operation of the environment and
    leaves a frame [k] to be resumed with the operation's result. *)
Inductive outcome (K R : Type) :=
| Await (k : K)
| Return (r : R).
Arguments Await {K R} k.
Arguments Return {K R} r.

Module Runner.
Section Runner.
Context {T R U E K : Type}.

(** [fn item index] started on the closure state [U], and a frame resumed
    with a result [E] of the environment. *)
Variable fn : T → nat → U → U * outcome K R.
Variable resume : K → E → U → U * outcome K R.
Variable items : list T.
Variable limit : jsnum.

(** The promise returned by [fn(item, index)]. *)
Inductive fnstate :=
| NotCalled
| Pending (k : K)
| Fulfilled (r : R).

(** One entry of the array [results]: the promise [promise] of an
    iteration with the promise of [fn] it waits for and the
    [executePromise] chained to it. *)
Record task := Task {
  fnPromise : fnstate;
  adopted : bool;          (* the reactions that settle [promise] are registered on [fnPromise] *)
  promise : option R;      (* [None]: pending *)
  executeSettled : bool    (* [executePromise] is fulfilled *)
}.

(** The jobs of the microtask queue. *)
Inductive job :=
| JCall (item : T) (i : nat)   (* [() => fn(item, index)], reaction of [Promise.resolve()] *)
| JAdopt (i : nat)             (* [promise] was resolved with the promise of [fn]: call its [then] *)
| JSettle (i : nat) (r : R)    (* the promise of [fn] is fulfilled: fulfil [promise] *)
| JSplice (i : nat)            (* [() => executing.splice(executing.indexOf(executePromise), 1)] *)
| JRace (k : nat)              (* a member of the [k]-th [Promise.race] is fulfilled *)
| JResume                      (* the runner goes on after [await Promise.race(executing)] *)
| JElement (i : nat) (r : R).  (* [Promise.all] receives the value of [results[i]] *)

(** Where the frame of [runWithConcurrencyLimit] stands between two jobs. *)
Inductive frame :=
| AwaitRace (k : nat)      (* suspended at [await Promise.race(executing)], race [k] pending *)
| Resuming                 (* the race is settled, [JResume] is queued *)
| AwaitAll                 (* returned [Promise.all(results)], still pending *)
| Resolved (rs : list R).  (* [Promise.all(results)] fulfilled with [rs] *)

Record state := State {
  user : U;                   (* the variables captured by [fn] *)
  queue : list job;
  index : nat;
  pc : frame;
  executing : list nat;       (* [executing], each [executePromise] named by its index *)
  results : list task;
  races : list (list nat);    (* the members of every [Promise.race] called so far *)
  values : list (option R)    (* the values [Promise.all] has received *)
}.

Definition set_user (u : U) (s : state) : state :=
  State u (queue s) (index s) (pc s) (executing s) (results s) (races s) (values s).
Definition enqueue (js : list job) (s : state) : state :=
  State (user s) (queue s ++ js) (index s) (pc s) (executing s) (results s) (races s) (values s).
Definition set_index (i : nat) (s : state) : state :=
  State (user s) (queue s) i (pc s) (executing s) (results s) (races s) (values s).
Definition set_pc (f : frame) (s : state) : state :=
  State (user s) (queue s) (index s) f (executing s) (results s) (races s) (values s).
Definition set_executing (l : list nat) (s : state) : state :=
  State (user s) (queue s) (index s) (pc s) l (results s) (races s) (values s).
Definition set_results (l : list task) (s : state) : state :=
  State (user s) (queue s) (index s) (pc s) (executing s) l (races s) (values s).
Definition set_races (l : list (list nat)) (s : state) : state :=
  State (user s) (queue s) (index s) (pc s) (executing s) (results s) l (values s).
Definition set_values (l : list (option R)) (s : state) : state :=
  State (user s) (queue s) (index s) (pc s) (executing s) (results s) (races s) l.

Definition alter_task (f : task → task) (i : nat) (s : state) : state :=
  set_results (alter f i (results s)) s.

Definition set_fnPromise (p : fnstate) (t : task) : task :=
  Task p (adopted t) (promise t) (executeSettled t).
Definition set_adopted (t : task) : task :=
  Task (fnPromise t) true (promise t) (executeSettled t).
Definition set_promise (r : R) (t : task) : task :=
  Task (fnPromise t) (adopted t) (Some r) (executeSettled t).
Definition set_executeSettled (t : task) : task :=
  Task (fnPromise t) (adopted t) (promise t) true.

(** [limit <= items.length]: the test that guards the admission gate. *)
Definition gate : bool := js_le limit (js_length items).

(** [Promise.race(executing)]: a reaction is registered on every member; a
    member that is already fulfilled queues its reaction at once. *)
Definition settled_member (ts : list task) (j : nat) : bool :=
  match ts !! j with
  | Some t => executeSettled t
  | None => false
  end.

Definition await_race (s : state) : state :=
  let k := length (races s) in
  let ready := map (λ _, JRace k) (filter (λ j, settled_member (results s) j = true) (executing s)) in
  set_pc (AwaitRace k) (enqueue ready (set_races (races s ++ [executing s]) s)).

(** [Promise.all(results)]: a reaction is registered on every promise of
    [results]; a promise that is already fulfilled queues its reaction at
    once.  The empty array is fulfilled at once. *)
Fixpoint ready_elements (i : nat) (ts : list task) : list job :=
  match ts with
  | [] => []
  | t :: ts' =>
      match promise t with
      | Some r => JElement i r :: ready_elements (S i) ts'
      | None => ready_elements (S i) ts'
      end
  end.

Definition promise_all (s : state) : state :=
  let s' := enqueue (ready_elements 0 (results s))
              (set_values (replicate (length (results s)) None) s) in
  match results s with
  | [] => set_pc (Resolved []) s'
  | _ :: _ => set_pc AwaitAll s'
  end.

Definition new_task : task := Task NotCalled false None false.

(** The [for] loop from the test [index < items.length] on, up to the next
    [await] or to [return Promise.all(results)]; [rest] is what is left of
    [items] from [index] on. *)
Fixpoint loop (rest : list T) (s : state) : state :=
  match rest with
  | [] => promise_all s
  | item :: rest' =>
      let i := index s in
      let s1 := enqueue [JCall item i] (set_results (results s ++ [new_task]) s) in
      if gate then
        let s2 := set_executing (executing s1 ++ [i]) s1 in
        if js_ge (js_length (executing s2)) limit then await_race s2
        else loop rest' (set_index (S i) s2)
      else loop rest' (set_index (S i) s1)
  end.

(** The call [runWithConcurrencyLimit(items, limit, fn)] up to the point
    where it first gives control back. *)
Definition runWithConcurrencyLimit (u : U) : state :=
  loop items (State u [] 0 Resuming [] [] [] []).

(** [executing.splice(executing.indexOf(executePromise), 1)]: [indexOf]
    answers -1 for a missing element and [splice(-1, 1)] removes the last
    one. *)
Definition indexOf (i : nat) (l : list nat) : option nat :=
  fst <$> list_find (λ j, j = i) l.

Definition splice_indexOf (i : nat) (l : list nat) : list nat :=
  match indexOf i l with
  | Some n => delete n l
  | None => take (length l - 1) l
  end.

(** The reactions registered on [executePromise] number [i], oldest first. *)
Fixpoint race_reactions (i : nat) (k : nat) (rs : list (list nat)) : list job :=
  match rs with
  | [] => []
  | members :: rs' =>
      if bool_decide (i ∈ members) then JRace k :: race_reactions i (S k) rs'
      else race_reactions i (S k) rs'
  end.

(** [Promise.all] is fulfilled when every element has reported. *)
Fixpoint collect (vs : list (option R)) : option (list R) :=
  match vs with
  | [] => Some []
  | v :: vs' =>
      match v, collect vs' with
      | Some r, Some rs => Some (r :: rs)
      | _, _ => None
      end
  end.

Definition reaction_of (o : outcome K R) : fnstate :=
  match o with
  | Await k => Pending k
  | Return r => Fulfilled r
  end.

Definition run_job (j : job) (s : state) : state :=
  match j with
  | JCall item i =>
      let '(u, o) := fn item i (user s) in
      enqueue [JAdopt i] (alter_task (set_fnPromise (reaction_of o)) i (set_user u s))
  | JAdopt i =>
      let s' := alter_task set_adopted i s in
      match fnPromise <$> results s !! i with
      | Some (Fulfilled r) => enqueue [JSettle i r] s'
      | _ => s'
      end
  | JSettle i r =>
      enqueue ((if gate then [JSplice i] else []) ++
               (match pc s with AwaitAll => [JElement i r] | _ => [] end))
              (alter_task (set_promise r) i s)
  | JSplice i =>
      enqueue (race_reactions i 0 (races s))
              (alter_task set_executeSettled i
                 (set_executing (splice_indexOf i (executing s)) s))
  | JRace k =>
      match pc s with
      | AwaitRace k' => if bool_decide (k = k') then enqueue [JResume] (set_pc Resuming s) else s
      | _ => s
      end
  | JResume =>
      loop (drop (S (index s)) items) (set_index (S (index s)) s)
  | JElement i r =>
      let vs := <[i := Some r]> (values s) in
      match collect vs with
      | Some rs => set_pc (Resolved rs) (set_values vs s)
      | None => set_values vs s
      end
  end.

(** A child process of task [i] ends with result [e]: the frame of the
    task is resumed.  This is a callback of the event loop, so the
    microtask queue is empty when it runs. *)
Definition deliver (i : nat) (e : E) (s : state) : option state :=
  match queue s, results s !! i with
  | [], Some t =>
      match fnPromise t with
      | Pending k =>
          let '(u, o) := resume k e (user s) in
          let s' := alter_task (set_fnPromise (reaction_of o)) i (set_user u s) in
          Some (match o with
                | Return r => if adopted t then enqueue [JSettle i r] s' else s'
                | Await _ => s'
                end)
      | _ => None
      end
  | _, _ => None
  end.

Inductive label :=
| Tick                        (* the first job of the microtask queue runs *)
| Deliver (i : nat) (e : E).  (* the environment completes the operation task [i] awaits *)

Definition step (l : label) (s : state) : option state :=
  match l with
  | Tick =>
      match queue s with
      | j :: q => Some (run_job j (State (user s) q (index s) (pc s) (executing s)
                                          (results s) (races s) (values s)))
      | [] => None
      end
  | Deliver i e => deliver i e s
  end.

Fixpoint steps (ls : list label) (s : state) : option state :=
  match ls with
  | [] => Some s
  | l :: ls' =>
      match step l s with
      | Some s' => steps ls' s'
      | None => None
      end
  end.

(** The states of the runs of [runWithConcurrencyLimit(items, limit, fn)]. *)
Definition reachable (u : U) (s : state) : Prop :=
  ∃ ls, steps ls (runWithConcurrencyLimit u) = Some s.

(** The microtask queue emptied, then the completions of [ds] delivered in
    turn, the queue emptied after each. *)
Fixpoint drain (fuel : nat) (s : state) : state :=
  match fuel with
  | 0 => s
  | S fuel' =>
      match step Tick s with
      | Some s' => drain fuel' s'
      | None => s
      end
  end.

Fixpoint play (fuel : nat) (ds : list (nat * E)) (s : state) : option state :=
  match ds with
  | [] => Some (drain fuel s)
  | (i, e) :: ds' =>
      match deliver i e (drain fuel s) with
      | Some s' => play fuel ds' s'
      | None => None
      end
  end.

(** The tasks in flight: [fn] was called and its promise is pending. *)
Definition in_flight (t : task) : bool :=
  match fnPromise t with
  | Pending _ => true
  | _ => false
  end.

Definition count_in_flight (s : state) : nat :=
  length (filter (λ t, in_flight t = true) (results s)).

(** *** The invariant of the runs *)

Definition is_race (j : job) : bool :=
  match j with
  | JRace _ => true
  | _ => false
  end.

(** The iteration a job belongs to; the jobs of the races and of the frame
    of the runner belong to none. *)
Definition job_index (j : job) : option nat :=
  match j with
  | JCall _ i | JAdopt i | JSettle i _ | JSplice i | JElement i _ => Some i
  | JRace _ | JResume => None
  end.

(** The jobs iteration [i] calls for when its item is [x], its entry of
    [results] is [t] and [v] is what [values] holds for it. *)
Definition wanted (x : T) (t : task) (v : option (option R)) (j : job) : Prop :=
  match j with
  | JCall x' _ => x' = x ∧ fnPromise t = NotCalled
  | JAdopt _ => fnPromise t ≠ NotCalled ∧ adopted t = false
  | JSettle _ r => fnPromise t = Fulfilled r ∧ adopted t = true ∧ promise t = None
  | JSplice _ => gate = true ∧ promise t ≠ None ∧ executeSettled t = false
  | JElement _ r => promise t = Some r ∧ v = Some None
  | JRace _ | JResume => False
  end.

(** What the state says of a job that stands in the queue.  For the jobs of
    the iterations the converse holds as well: the state calls for the job,
    and the job is queued once. *)
Definition expected (s : state) (j : job) : Prop :=
  match job_index j with
  | Some i =>
      ∃ x t, items !! i = Some x ∧ results s !! i = Some t ∧
             wanted x t (values s !! i) j
  | None =>
      match j with
      | JRace k => k < length (races s)
      | _ => pc s = Resuming
      end
  end.

(** The promises of one iteration settle in order: the promise of [fn],
    then [promise], then [executePromise]. *)
Definition task_wf (t : task) : Prop :=
  (fnPromise t = NotCalled → adopted t = false) ∧
  (adopted t = false → promise t = None) ∧
  (∀ r, promise t = Some r → fnPromise t = Fulfilled r) ∧
  (executeSettled t = true → promise t ≠ None ∧ gate = true).

(** [executing] holds the [executePromise]s that are still pending. *)
Definition executing_ok (s : state) : Prop :=
  if gate then
    NoDup (executing s) ∧
    ∀ i, i ∈ executing s ↔ ∃ t, results s !! i = Some t ∧ executeSettled t = false
  else executing s = [].

Record core (s : state) : Prop := Core {
  core_sound : ∀ j, j ∈ queue s → expected s j;
  core_live : ∀ j, is_Some (job_index j) → expected s j → j ∈ queue s;
  core_nodup : NoDup (filter (λ j, is_race j = false) (queue s));
  core_wf : ∀ i t, results s !! i = Some t → task_wf t;
  core_exec : executing_ok s;
  core_len : length (results s) ≤ length items;
  core_values : ∀ i v, values s !! i = Some (Some v) →
                       ∃ t, results s !! i = Some t ∧ promise t = Some v
}.

(** What the frame of the runner knows at each of its stops. *)
Definition framed (s : state) : Prop :=
  match pc s with
  | AwaitRace k =>
      length (results s) = S (index s) ∧ values s = [] ∧
      length (races s) = S k ∧ k ≤ index s ∧
      (JRace k ∈ queue s ∨ (races s !! k = Some (executing s) ∧ executing s ≠ []))
  | Resuming =>
      length (results s) = S (index s) ∧ values s = [] ∧
      length (races s) ≤ S (index s) ∧ JResume ∈ queue s
  | AwaitAll =>
      length (results s) = length items ∧ length (values s) = length items ∧
      length (races s) ≤ length items ∧ collect (values s) = None
  | Resolved rs =>
      length (results s) = length items ∧ length (values s) = length items ∧
      length (races s) ≤ length items ∧ collect (values s) = Some rs
  end.

Definition inv (s : state) : Prop := core s ∧ framed s.

(** The states in which the [for] loop runs: [index] tasks were created. *)
Definition looping (rest : list T) (s : state) : Prop :=
  core s ∧ rest = drop (index s) items ∧ length (results s) = index s ∧
  values s = [] ∧ length (races s) ≤ index s ∧ JResume ∉ queue s.

(** The bound of the admission gate, for a limit of at least one. *)
Definition bounded (L : nat) (s : state) : Prop :=
  match pc s with
  | AwaitRace k =>
      length (executing s) ≤ L ∧ (JRace k ∈ queue s → length (executing s) < L)
  | _ => length (executing s) < L
  end.

(** The microtask queue is empty and no task waits for the environment:
    nothing is left to happen. *)
Definition quiescent (s : state) : Prop :=
  queue s = [] ∧ ∀ t, t ∈ results s → in_flight t = false.

(** What is left to run in the microtask queue: every job that runs takes
    one from this number, and no completion adds to it. *)
Definition task_weight (n : nat) (t : task) : nat :=
  match fnPromise t with
  | NotCalled => 2
  | Pending _ => 1
  | Fulfilled _ => 0
  end +
  (if adopted t then 0 else 1) +
  match promise t with
  | None => 2
  | Some _ => 0
  end +
  (if executeSettled t then 0 else n).

Definition loop_weight (n left : nat) : nat := left * (n + 7) + n.

Definition frame_weight (s : state) : nat :=
  match pc s with
  | AwaitRace _ => S (loop_weight (length items) (length items - S (index s)))
  | Resuming => loop_weight (length items) (length items - S (index s))
  | _ => 0
  end.

Definition potential (s : state) : nat :=
  length (queue s) + sum_list_with (task_weight (length items)) (results s) +
  frame_weight s.

(** The jobs a run took from the microtask queue. *)
Fixpoint ticks (ls : list label) : nat :=
  match ls with
  | [] => 0
  | Tick :: ls' => S (ticks ls')
  | Deliver _ _ :: ls' => ticks ls'
  end.

(** The state of the promise of [fn] of every iteration. *)
Definition phases (s : state) : list fnstate := fnPromise <$> results s.

(** The items whose task has returned, in the order of [items]. *)
Fixpoint fulfilled_items (xs : list T) (fs : list fnstate) : list T :=
  match xs, fs with
  | x :: xs', f :: fs' =>
      match f with
      | Fulfilled _ => x :: fulfilled_items xs' fs'
      | _ => fulfilled_items xs' fs'
      end
  | _, _ => []
  end.

Definition is_pending (f : fnstate) : bool :=
  match f with
  | Pending _ => true
  | _ => false
  end.

Definition is_fulfilled (f : fnstate) : bool :=
  match f with
  | Fulfilled _ => true
  | _ => false
  end.

(** The tasks that return in a step, by index: the promise of [fn] is
    fulfilled after the step and was not before. *)
Fixpoint fulfilled_now (i : nat) (before after : list fnstate) : list nat :=
  match after with
  | [] => []
  | f' :: after' =>
      (if is_fulfilled f' &&
          negb (match head before with Some f => is_fulfilled f | None => false end)
       then [i] else []) ++
      fulfilled_now (S i) (tail before) after'
  end.

(** The order in which the tasks return in a run. *)
Fixpoint completion_order (ls : list label) (s : state) : list nat :=
  match ls with
  | [] => []
  | l :: ls' =>
      match step l s with
      | Some s' => fulfilled_now 0 (phases s) (phases s') ++ completion_order ls' s'
      | None => []
      end
  end.

(** What is left of a run, when [awaits k] bounds the operations a task
    that is suspended with the frame [k] awaits after the one it waits for,
    and [M] is more than that for every frame [fn] leaves: a task that was
    not called may take [M] completions, one that waits for an operation
    one more than its frame says, one that has returned none. *)
Definition await_weight (awaits : K → nat) (M : nat) (f : fnstate) : nat :=
  match f with
  | NotCalled => M
  | Pending k => S (awaits k)
  | Fulfilled _ => 0
  end.

Definition steps_left (awaits : K → nat) (M : nat) (s : state) : nat :=
  potential s + sum_list_with (await_weight awaits M) (phases s) +
  (length items - length (results s)) * M.

End Runner.
End Runner.

(** ** Child processes *)

(** What [execAsync] settles with: the output of a command that ended well,
  or the value it rejects with.  An [Error] of [exec] may carry [stderr]
  and [stdout]. *)
Inductive thrown :=
| ErrorObject (message : jsstring) (stderr stdout : option jsstring)
| OtherValue.

Inductive execResult :=
| ExecOk (stdout : jsstring)
| ExecFailed (err : thrown).

(** [exec(command)] of Node starts a shell and hands it the command as one
  argument. *)
Definition exec_argv (command : jsstring) : list jsstring :=
[lit "/bin/sh"; lit "-c"; command].

(** [x || y] on optional strings. *)
Definition or_else (x : option jsstring) (y : jsstring) : jsstring :=
match x with
| Some s => if truthy s then s else y
| None => y
end.

Definition is_truthy (x : option jsstring) : bool :=
match x with
| Some s => truthy s
| None => false
end.

(** [pwd.replace(/'/g, "'\\''")] *)
Definition escapeSingleQuote (pwd : jsstring) : jsstring :=
flat_map (λ c, if bool_decide (c = 39%N) then lit "'\''" else [c]) pwd.

(** ** The password form *)

Record verdict := Verdict {
valid : bool;
verror : option jsstring
}.

Definition verifyCommand (password : jsstring) : jsstring :=
lit "sudo -k && printf '%s\n' '" ++ escapeSingleQuote password ++ lit "' | sudo -S -v 2>&1".

(** [verifyPassword(password)]: the command it runs and what it answers when
  the command settles with [r]. *)
Definition verifyPassword_result (r : execResult) : verdict :=
match r with
| ExecOk _ => Verdict true None
| ExecFailed (ErrorObject message stderr stdout) =>
    let output := or_else stderr (or_else stdout message) in
    if includes output (lit "Sorry") || includes output (lit "incorrect password")
    then Verdict false (Some (lit "Incorrect password"))
    else Verdict false (Some (lit "Failed to verify password"))
| ExecFailed OtherValue => Verdict false (Some (lit "Failed to verify password"))
end.

Definition verifyPassword (env : jsstring → execResult) (password : jsstring)
: list jsstring * verdict :=
let command := verifyCommand password in
([command], verifyPassword_result (env command)).

(** The state of [PasswordForm] and what one [handleSubmit] did. *)
Record form := Form {
password : jsstring;
isVerifying : bool;
error : option jsstring
}.

Record submitted := Submitted {
after : form;
commands : list jsstring;       (* the commands handed to [execAsync] *)
onSubmit : option jsstring;     (* [onSubmit(password)] was called *)
popped : bool                   (* [pop()] was called *)
}.

Definition handleSubmit (env : jsstring → execResult) (f : form) : submitted :=
if negb (truthy (trim (password f))) then
  Submitted (Form (password f) (isVerifying f) (Some (lit "Please enter your password")))
            [] None false
else
  let '(cmds, result) := verifyPassword env (password f) in
  if valid result then
    Submitted (Form (password f) true None) cmds (Some (password f)) true
  else
    Submitted (Form (password f) false
                 (Some (or_else (verror result) (lit "Incorrect password. Please try again."))))
              cmds None false.

(** ** The preference *)

(** [parseInt(preferences.concurrency || "3", 10)] *)
Definition concurrencyLimit (concurrency : option jsstring) : jsnum :=
parseInt10 (or_else concurrency (lit "3")).

(** The shapes of a preference as [parseInt] reads it: white space, a sign
    or none, and then either digits or a place where a digit is missing. *)
Definition starts_with_digit (s : jsstring) : bool :=
  match s with
  | c :: _ => is_digit c
  | [] => false
  end.

Definition optional_sign (sign : jsstring) : Prop :=
  sign = [] ∨ sign = lit "+" ∨ sign = lit "-".

(** No digit stands where [parseInt] looks for the first one: right after
    the sign, or, without a sign, at the first unit that is no white
    space. *)
Definition no_digit (sign rest : jsstring) : Prop :=
  starts_with_digit rest = false ∧
  (sign = [] →
   match rest with
   | c :: _ => isWhiteSpace c = false ∧ c ≠ 43%N ∧ c ≠ 45%N
   | [] => True
   end).

(** ** The batch deletion *)

Record DeletionResult := Result {
snapshot : jsstring;
success : bool;
failure : option jsstring       (* the property [error] *)
}.

Inductive toastStyle :=
| Animated
| Success
| Failure.

Record toast := Toast {
style : toastStyle;
title : jsstring;
message : jsstring
}.

(** The variables of [deleteSnapshots] the tasks share, and what the tasks
  did to the world. *)
Record closure := Closure {
results : list DeletionResult;
completedCount : nat;
authFailed : bool;
deletionProgress : nat * nat * jsstring;   (* [current], [total], [snapshot] *)
toastMessage : jsstring;                   (* [toast.message] *)
shown : list toast;                        (* the calls of [showToast] *)
spawned : list jsstring                    (* the commands handed to [execAsync] *)
}.

Definition skippedError : jsstring :=
lit "Skipped due to previous authentication failure".

Section DeleteSnapshots.
Variable password : jsstring.
Variable snapshotsToDelete : list jsstring.

(** [selectedSnapshots.size]: [snapshotsToDelete] is
    [Array.from(selectedSnapshots)]. *)
Definition size : nat := length snapshotsToDelete.

Definition escapedPassword : jsstring := escapeSingleQuote password.

Definition deleteCommand (snapshotDate : jsstring) : jsstring :=
  lit "printf '%s\n' '" ++ escapedPassword ++
  lit "' | sudo -S /usr/bin/tmutil deletelocalsnapshots " ++ snapshotDate.

Definition completedMessage (n : nat) : jsstring :=
  toString n ++ lit "/" ++ toString size ++ lit " completed".

Definition authToast : toast :=
  Toast Failure (lit "Authentication Failed") (lit "Incorrect password. Stopping deletion.").

(** The task up to [await execAsync(command, ...)]. *)
Definition task (snapshotDate : jsstring) (index : nat) (c : closure)
  : closure * outcome jsstring unit :=
  if authFailed c then
    (Closure (results c ++ [Result snapshotDate false (Some skippedError)])
             (completedCount c) (authFailed c) (deletionProgress c)
             (toastMessage c) (shown c) (spawned c),
     Return ())
  else
    (Closure (results c) (completedCount c) (authFailed c)
             (completedCount c, length snapshotsToDelete, snapshotDate)
             (toastMessage c) (shown c) (spawned c ++ [deleteCommand snapshotDate]),
     Await snapshotDate).

(** The [catch] block: the message kept and whether the error is one of
    authentication. *)
Definition errorMessage (err : thrown) : jsstring :=
  match err with
  | ErrorObject message stderr stdout =>
      let m := if is_truthy stderr then or_else stderr [] else message in
      if is_truthy stdout then
        if bool_decide (m = lit "Unknown error") then or_else stdout [] else m
      else m
  | OtherValue => lit "Unknown error"
  end.

Definition isAuthError (err : thrown) : bool :=
  match err with
  | ErrorObject _ stderr _ =>
      is_truthy stderr &&
      (includes (or_else stderr []) (lit "Sorry") ||
       includes (or_else stderr []) (lit "incorrect password"))
  | OtherValue => false
  end.

(** The task from the point where [execAsync] settles. *)
Definition task_resume (snapshotDate : jsstring) (r : execResult) (c : closure)
  : closure * outcome jsstring unit :=
  match r with
  | ExecOk _ =>
      let n := S (completedCount c) in
      (Closure (results c ++ [Result snapshotDate true None])
               n (authFailed c)
               (n, length snapshotsToDelete, [])
               (completedMessage n) (shown c) (spawned c),
       Return ())
  | ExecFailed err =>
      let n := S (completedCount c) in
      (Closure (results c ++ [Result snapshotDate false (Some (errorMessage err))])
               n (authFailed c || isAuthError err)
               (deletionProgress c)
               (completedMessage n)
               (if isAuthError err then shown c ++ [authToast] else shown c)
               (spawned c),
       Return ())
  end.


(** The variables as [deleteSnapshots] sets them before the run. *)
Definition start : closure :=
  Closure [] 0 false (0, size, []) (toString 0 ++ lit "/" ++ toString size ++ lit " completed")
          [] [].

(** [runWithConcurrencyLimit(snapshotsToDelete, concurrencyLimit, async (snapshotDate, index) => ...)] *)
Definition batch (limit : jsnum) : Runner.state (T:=jsstring) (R:=unit) (U:=closure) (K:=jsstring) :=
  Runner.runWithConcurrencyLimit snapshotsToDelete limit start.

Definition batch_steps (limit : jsnum) :=
  Runner.steps task task_resume snapshotsToDelete limit.

Definition batch_play (limit : jsnum) :=
  Runner.play task task_resume snapshotsToDelete limit.

End DeleteSnapshots.

(** ** The summary *)

(** The arm of the summary that runs, named by the toast it shows. *)
Inductive branch :=
| NoSnapshotsSelected      (* the early return of [deleteSnapshots] *)
| AllDeleted               (* [failed === 0] *)
| FailedToDelete           (* [successful === 0] *)
| PartiallyCompleted.

(** [results.filter((r) => r.success).length] and
    [results.filter((r) => !r.success).length] *)
Definition successful (rs : list DeletionResult) : nat :=
  length (filter (λ r, success r = true) rs).

Definition failed (rs : list DeletionResult) : nat :=
  length (filter (λ r, success r = false) rs).

Definition failedResults (rs : list DeletionResult) : list DeletionResult :=
  filter (λ r, success r = false) rs.

(** [results.find((r) => !r.success)] *)
Definition firstError (rs : list DeletionResult) : option DeletionResult :=
  head (failedResults rs).

Definition summaryToast (rs : list DeletionResult) : branch * toast :=
  if failed rs =? 0 then
    (AllDeleted,
     Toast Success (lit "All snapshots deleted successfully")
           (toString (successful rs) ++ lit " snapshot(s) deleted"))
  else if successful rs =? 0 then
    (FailedToDelete,
     Toast Failure (lit "Failed to delete snapshots")
           (match firstError rs with
            | Some r =>
                if is_truthy (failure r)
                then lit "Error: " ++ take 100 (or_else (failure r) []) ++ lit "..."
                else lit "All " ++ toString (failed rs) ++ lit " deletion(s) failed"
            | None => lit "All " ++ toString (failed rs) ++ lit " deletion(s) failed"
            end))
  else
    (PartiallyCompleted,
     Toast Failure (lit "Partially completed")
           (toString (successful rs) ++ lit " deleted, " ++
            toString (failed rs) ++ lit " failed")).

(** The toasts with the details: one for each of the first three failures,
    and one more when there are others. *)
Definition detailToasts (rs : list DeletionResult) : list toast :=
  map (λ r, Toast Failure (lit "Failed: " ++ snapshot r)
                  (or_else (take 200 <$> failure r) (lit "Unknown error")))
      (take 3 (failedResults rs)) ++
  if 3 <? length (failedResults rs) then
    [Toast Failure (lit "More errors")
           (toString (length (failedResults rs) - 3) ++
            lit " more deletion(s) failed. Check console logs.")]
  else [].

Definition noSelectionToast : toast :=
  Toast Failure (lit "No snapshots selected")
        (lit "Please select at least one snapshot to delete").

(** How a call of [deleteSnapshots(password)] ends. *)
Inductive ending :=
| NothingSelected (t : toast)
| NotConfirmed
| Finished (c : closure) (b : branch) (t : toast) (details : list toast).

(** The results a call leaves. *)
Definition outcomes (e : ending) : list DeletionResult :=
  match e with
  | Finished c _ _ _ => results c
  | _ => []
  end.

(** The toast a call ends with: that of the guard, or the progress toast
    as the summary leaves it. *)
Definition finalToast (e : ending) : option toast :=
  match e with
  | NothingSelected t => Some t
  | NotConfirmed => None
  | Finished _ _ t _ => Some t
  end.

(** The rule of the specification, in its words: the outcomes that
    succeeded and those that did not are counted, and the run is [NoOp] if
    there is no outcome, [AllSucceeded] if none failed, [AllFailed] if none
    succeeded, [Partial] otherwise. *)
Inductive Classification :=
| NoOp
| AllSucceeded
| AllFailed
| Partial.

Definition successCount (outcomes : list DeletionResult) : nat :=
  sum_list_with (λ r, if success r then 1 else 0) outcomes.

Definition failureCount (outcomes : list DeletionResult) : nat :=
  sum_list_with (λ r, if success r then 0 else 1) outcomes.

Definition classify (outcomes : list DeletionResult) : Classification :=
  match outcomes with
  | [] => NoOp
  | _ :: _ =>
      if failureCount outcomes =? 0 then AllSucceeded
      else if successCount outcomes =? 0 then AllFailed
      else Partial
  end.

(** [deleteSnapshots(password)] with [selected] the elements of
    [selectedSnapshots], [confirmed] the answer to the alert and
    [concurrency] the preference: the guard, the alert, a run of the batch up
    to the point where [runWithConcurrencyLimit] resolves, then the summary
    of the results the tasks pushed. *)
Inductive deleteSnapshots (password : jsstring) (selected : list jsstring)
    (confirmed : bool) (concurrency : option jsstring) : ending → Prop :=
| delete_nothing :
    length selected = 0 →
    deleteSnapshots password selected confirmed concurrency
      (NothingSelected noSelectionToast)
| delete_cancelled :
    length selected ≠ 0 → confirmed = false →
    deleteSnapshots password selected confirmed concurrency NotConfirmed
| delete_finished ls s rs :
    length selected ≠ 0 → confirmed = true →
    batch_steps password selected (concurrencyLimit concurrency) ls
      (batch selected (concurrencyLimit concurrency)) = Some s →
    Runner.pc s = Runner.Resolved rs →
    deleteSnapshots password selected confirmed concurrency
      (Finished (Runner.user s)
                (fst (summaryToast (results (Runner.user s))))
                (snd (summaryToast (results (Runner.user s))))
                (detailToasts (results (Runner.user s)))).

(** ** The shell *)

(** The tokens the shell reads from a command line, for the part of its
    grammar the commands of the program are written in.  Outside quotes a
    blank ends a word, a single quote opens a literal run that the next
    single quote closes, a backslash makes the next unit literal, and the
    units of the control and redirection operators form operators.  A unit
    the shell would expand or interpret in another way, and a command line
    that ends inside a quote, are outside this part: the answer is [None]. *)
Inductive token :=
| Word (w : jsstring)
| Operator (o : jsstring).

Inductive lexing :=
| Between                      (* no token is open *)
| InWord (w : jsstring)        (* a word is open, outside quotes *)
| InQuote (w : jsstring)       (* a word is open, inside single quotes *)
| InOperator (o : jsstring).

Definition is_blank (c : N) : bool := bool_decide (c ∈ [32; 9]%N).

Definition is_operator_unit (c : N) : bool := bool_decide (c ∈ [124; 38; 59; 60; 62]%N).

(** Letters, digits and the punctuation the shell leaves alone in a word. *)
Definition is_plain (c : N) : bool :=
  ((48 <=? c)%N && (c <=? 57)%N) || ((65 <=? c)%N && (c <=? 90)%N) ||
  ((97 <=? c)%N && (c <=? 122)%N) ||
  bool_decide (c ∈ [37; 43; 44; 45; 46; 47; 58; 64; 95]%N).

Definition operators : list jsstring :=
  [lit "|"; lit "||"; lit "&"; lit "&&"; lit ";"; lit "<"; lit ">"; lit ">>"; lit "<&"; lit ">&"].

(** The token that is open, closed. *)
Definition close (m : lexing) : option (list token) :=
  match m with
  | Between => Some []
  | InWord w => Some [Word w]
  | InQuote _ => None
  | InOperator o => if bool_decide (o ∈ operators) then Some [Operator o] else None
  end.

Definition emit (m : lexing) (rest : option (list token)) : option (list token) :=
  match close m, rest with
  | Some ts, Some ts' => Some (ts ++ ts')
  | _, _ => None
  end.

Definition word_of (m : lexing) : jsstring :=
  match m with
  | InWord w => w
  | _ => []
  end.

Fixpoint sh_tokens (m : lexing) (s : jsstring) : option (list token) :=
  match s with
  | [] => close m
  | c :: s' =>
      match m with
      | InQuote w =>
          if bool_decide (c = 39%N) then sh_tokens (InWord w) s'
          else sh_tokens (InQuote (w ++ [c])) s'
      | InOperator o =>
          if is_operator_unit c then sh_tokens (InOperator (o ++ [c])) s'
          else if is_blank c then emit m (sh_tokens Between s')
          else if bool_decide (c = 39%N) then emit m (sh_tokens (InQuote []) s')
          else if is_plain c then emit m (sh_tokens (InWord [c]) s')
          else None
      | Between | InWord _ =>
          if is_blank c then emit m (sh_tokens Between s')
          else if is_operator_unit c then emit m (sh_tokens (InOperator [c]) s')
          else if bool_decide (c = 39%N) then sh_tokens (InQuote (word_of m)) s'
          else if bool_decide (c = 92%N) then
            match s' with
            | d :: s'' => if bool_decide (d = 10%N) then None
                          else sh_tokens (InWord (word_of m ++ [d])) s''
            | [] => None
            end
          else if is_plain c then sh_tokens (InWord (word_of m ++ [c])) s'
          else None
      end
  end.

(** A word the shell reads as it is written. *)
Definition plain_word (x : jsstring) : bool :=
  match x with
  | [] => false
  | _ :: _ => forallb is_plain x
  end.

(** ** The invariant of the batch *)

(** What the variables of the closure say of the tasks in every state of a
    run: a result was pushed for every task that has returned, a command is
    in flight for every task that waits, and the counter counts the commands
    that have ended. *)
Record delete_inv (targets : list jsstring) (password : jsstring)
    (s : Runner.state (T:=jsstring) (R:=unit) (U:=closure) (K:=jsstring)) : Prop := DeleteInv {
  di_results : snapshot <$> results (Runner.user s) ≡ₚ
               Runner.fulfilled_items targets (Runner.phases s);
  di_pending : ∀ i k, Runner.phases s !! i = Some (Runner.Pending k) → targets !! i = Some k;
  di_count : completedCount (Runner.user s) +
             length (filter (λ f, Runner.is_pending f = true) (Runner.phases s)) =
             length (spawned (Runner.user s));
  di_le : completedCount (Runner.user s) ≤ length (results (Runner.user s));
  di_eq : authFailed (Runner.user s) = false →
          completedCount (Runner.user s) = length (results (Runner.user s));
  di_toast : toastMessage (Runner.user s) = completedMessage targets (completedCount (Runner.user s));
  di_spawned : ∀ c, c ∈ spawned (Runner.user s) → ∃ x, x ∈ targets ∧ c = deleteCommand password x;
  di_shown : ∀ t, t ∈ shown (Runner.user s) → t = authToast ∧ authFailed (Runner.user s) = true
}.

(** A completion of the examples: sudo refuses the password. *)
Definition denied : execResult :=
  ExecFailed (ErrorObject (lit "Command failed") (Some (lit "Sorry, try again.")) None).

(** ** The order of the tasks *)

(** The indices of the calls of [fn] that wait in a queue, first in first
    out. *)
Definition call_index {T R} (j : Runner.job (T:=T) (R:=R)) : option nat :=
  match j with
  | Runner.JCall _ i => Some i
  | _ => None
  end.

Definition call_indices {T R} (q : list (Runner.job (T:=T) (R:=R))) : list nat :=
  omap call_index q.

(** The calls that wait are those of the last tasks created, in the order of
    the items. *)
Definition calls_in_order {T R U K} (s : Runner.state (T:=T) (R:=R) (U:=U) (K:=K)) : Prop :=
  ∃ a, a ≤ length (Runner.results s) ∧
       call_indices (Runner.queue s) = seq a (length (Runner.results s) - a).

(** Every task but the last one created has gone through all its stages:
    what the gate keeps when the limit is one. *)
Definition one_at_a_time {R K} (ts : list (Runner.task (R:=R) (K:=K))) : Prop :=
  ∀ i t, ts !! i = Some t → S i < length ts → Runner.executeSettled t = true.

(** ** The list of snapshots *)

(** The objects [loadSnapshots] builds; it never sets the optional
    [size]. *)
Module Snapshot.
Record t := Make {
  id : jsstring;
  date : jsstring;
  displayName : jsstring
}.
End Snapshot.

(** [s.split(sep)] for a separator of one unit. *)
Fixpoint split (sep : N) (s : jsstring) : list jsstring :=
  match s with
  | [] => [[]]
  | c :: s' =>
      if bool_decide (c = sep) then [] :: split sep s'
      else match split sep s' with
           | part :: parts => (c :: part) :: parts
           | [] => [[c]]
           end
  end.

(** [s.substring(from, to)] for [from <= to]. *)
Definition substring (from to : nat) (s : jsstring) : jsstring :=
  take (to - from) (drop from s).

(** [s.replace(pattern, "")] for a pattern that is a string: the first
    occurrence goes. *)
Fixpoint remove_first (pattern s : jsstring) : jsstring :=
  if startsWith s pattern then drop (length pattern) s
  else match s with
       | [] => []
       | c :: s' => c :: remove_first pattern s'
       end.

(** [\d{4}-\d{2}-\d{2}-\d{6}] *)
Definition is_hyphen (c : N) : bool := bool_decide (c = 45%N).

Definition date_shape : list (N → bool) :=
  [is_digit; is_digit; is_digit; is_digit; is_hyphen;
   is_digit; is_digit; is_hyphen;
   is_digit; is_digit; is_hyphen;
   is_digit; is_digit; is_digit; is_digit; is_digit; is_digit].

Fixpoint has_shape (shape : list (N → bool)) (s : jsstring) : bool :=
  match shape, s with
  | [], _ => true
  | _ :: _, [] => false
  | p :: shape', c :: s' => p c && has_shape shape' s'
  end.

(** [s.match(/com\.apple\.TimeMachine\.(\d{4}-\d{2}-\d{2}-\d{6})/)]: the
    group of the leftmost match. *)
Fixpoint tmMatch (s : jsstring) : option jsstring :=
  if startsWith s (lit "com.apple.TimeMachine.") && has_shape date_shape (drop 22 s)
  then Some (take 17 (drop 22 s))
  else match s with
       | [] => None
       | _ :: s' => tmMatch s'
       end.

(** The callback of [lines.filter]. *)
Definition keepLine (line : jsstring) : bool :=
  includes line (lit "com.apple.TimeMachine") ||
  startsWith line (lit "com_") ||
  includes line (lit "local") ||
  (truthy (trim line) && negb (includes line (lit "Snapshots for"))).

(** [parts[parts.length - 1] || "?"] *)
Definition version (snapshotId : jsstring) : jsstring :=
  or_else (last (split 95 snapshotId)) (lit "?").

(** The callback of [.map]: [None] is [null]. *)
Definition parseLine (line : jsstring) : option Snapshot.t :=
  let trimmedLine := trim line in
  match tmMatch trimmedLine with
  | Some dateStr =>
      let year := substring 0 4 dateStr in
      let month := substring 5 7 dateStr in
      let day := substring 8 10 dateStr in
      let hour := substring 11 13 dateStr in
      let minute := substring 13 15 dateStr in
      let second := substring 15 17 dateStr in
      Some (Snapshot.Make dateStr dateStr
              (lit "Time Machine - " ++ day ++ lit "/" ++ month ++ lit "/" ++ year ++
               lit " " ++ hour ++ lit ":" ++ minute ++ lit ":" ++ second))
  | None =>
      if startsWith trimmedLine (lit "com_") || includes trimmedLine (lit "_") then
        let snapshotId := remove_first (lit ".local") trimmedLine in
        let displayName :=
          if includes snapshotId (lit "arqagent") then lit "Arq Backup #" ++ version snapshotId
          else if includes snapshotId (lit "backblaze") then lit "Backblaze Backup"
          else if includes snapshotId (lit "carbon") then lit "Carbon Copy Cloner"
          else lit "Other Snapshot - " ++ substring 0 40 snapshotId ++ lit "..." in
        Some (Snapshot.Make snapshotId snapshotId displayName)
      else None
  end.

(** [snapshotList]: the lines of the output, filtered, mapped and cleared
    of [null]. *)
Definition snapshotList (stdout : jsstring) : list Snapshot.t :=
  omap parseLine (filter (λ line, keepLine line = true) (split 10 (trim stdout))).

(** The lines that give an entry, said apart from the callbacks: white
    space at its ends apart, the line holds the name of a Time Machine
    snapshot with its date, or it holds an underscore and the filter keeps
    it, which it does unless the line contains "Snapshots for" and has none
    of the marks the filter looks for. *)
Definition entry_line (line : jsstring) : Prop :=
  is_Some (tmMatch (trim line)) ∨
  (includes (trim line) (lit "_") = true ∧
   (includes line (lit "com.apple.TimeMachine") = true ∨
    startsWith line (lit "com_") = true ∨
    includes line (lit "local") = true ∨
    includes line (lit "Snapshots for") = false)).

#[global] Instance entry_line_dec (line : jsstring) : Decision (entry_line line).
Proof. unfold entry_line. apply _. Defined.

(** What [loadSnapshots] does with the result of [tmutil listlocalsnapshots /]:
    the list it sets, if it sets one, and the toast it shows, if any;
    [isLoading] is false at the end in every case. *)
Record loaded := Loaded {
  snapshots : option (list Snapshot.t);
  loadToast : option toast;
  isLoading : bool
}.

Definition loadSnapshots (r : execResult) : loaded :=
  match r with
  | ExecOk stdout =>
      let l := snapshotList stdout in
      Loaded (Some l)
             (if length l =? 0
              then Some (Toast Success (lit "No snapshots found")
                               (lit "There are no local Time Machine snapshots to clean"))
              else None)
             false
  | ExecFailed err =>
      Loaded None
             (Some (Toast Failure (lit "Failed to load snapshots")
                          (match err with
                           | ErrorObject message _ _ => message
                           | OtherValue => lit "Unknown error"
                           end)))
             false
  end.

(** ** The selection *)

(** A [Set] of strings: its elements in the order they were added, none
    twice. *)
Module StringSet.

Definition has (x : jsstring) (s : list jsstring) : bool := bool_decide (x ∈ s).

Definition add (x : jsstring) (s : list jsstring) : list jsstring :=
  if has x s then s else s ++ [x].

Definition delete (x : jsstring) (s : list jsstring) : list jsstring :=
  filter (λ y, y ≠ x) s.

(** [new Set(iterable)] *)
Definition from (l : list jsstring) : list jsstring :=
  foldl (λ s x, add x s) [] l.

End StringSet.

(** The updater [toggleSnapshot] hands to [setSelectedSnapshots]. *)
Definition toggleSnapshot (snapshotId : jsstring) (prev : list jsstring) : list jsstring :=
  let newSet := StringSet.from prev in
  if StringSet.has snapshotId newSet then StringSet.delete snapshotId newSet
  else StringSet.add snapshotId newSet.

(** [selectAll] and [deselectAll]: the selection they set and the title of
    the toast they show. *)
Definition selectAll (snapshots : list Snapshot.t) : list jsstring * jsstring :=
  (StringSet.from (map Snapshot.id snapshots), lit "All snapshots selected").

Definition deselectAll : list jsstring * jsstring :=
  (StringSet.from [], lit "All snapshots deselected").

(** ** The output of [tmutil listlocalsnapshots] *)

(** A date as [tmutil] writes it, [2024-01-13-120000]; the line that names
    the Time Machine snapshot of that date, and the entry [loadSnapshots]
    makes of it. *)
Definition is_date (d : jsstring) : bool :=
  (length d =? 17) && has_shape date_shape d.

Definition timeMachineLine (d : jsstring) : jsstring :=
  lit "com.apple.TimeMachine." ++ d ++ lit ".local".

Definition timeMachineSnapshot (d : jsstring) : Snapshot.t :=
  Snapshot.Make d d
    (lit "Time Machine - " ++ substring 8 10 d ++ lit "/" ++ substring 5 7 d ++ lit "/" ++
     substring 0 4 d ++ lit " " ++ substring 11 13 d ++ lit ":" ++ substring 13 15 d ++
     lit ":" ++ substring 15 17 d).

(** * The runs of the runner *)

Section RunnerFacts.
Context {T R U E K : Type}.
Context (fn : T → nat → U → U * outcome K R) (resume : K → E → U → U * outcome K R).
Context (items : list T) (limit : jsnum).
Import Runner.

#[local] Abbreviation state := (@Runner.state T R U K).
#[local] Abbreviation job := (@Runner.job T R).
#[local] Abbreviation task := (@Runner.task R K).
#[local] Abbreviation frame := (@Runner.frame R).
#[local] Abbreviation State := (@Runner.State T R U K).
#[local] Abbreviation gate := (@Runner.gate T items limit).
#[local] Abbreviation loop := (@Runner.loop T R U K items limit).
#[local] Abbreviation run_job := (@Runner.run_job T R U K fn items limit).
#[local] Abbreviation deliver := (@Runner.deliver T R U E K resume).
#[local] Abbreviation step := (@Runner.step T R U E K fn resume items limit).
#[local] Abbreviation steps := (@Runner.steps T R U E K fn resume items limit).
#[local] Abbreviation reachable := (@Runner.reachable T R U E K fn resume items limit).
#[local] Abbreviation expected := (@Runner.expected T R U K items limit).
#[local] Abbreviation wanted := (@Runner.wanted T R K items limit).
#[local] Abbreviation job_index := (@Runner.job_index T R).
#[local] Abbreviation task_wf := (@Runner.task_wf T R K items limit).
#[local] Abbreviation executing_ok := (@Runner.executing_ok T R U K items limit).
#[local] Abbreviation core := (@Runner.core T R U K items limit).
#[local] Abbreviation framed := (@Runner.framed T R U K items).
#[local] Abbreviation inv := (@Runner.inv T R U K items limit).
#[local] Abbreviation looping := (@Runner.looping T R U K items limit).
#[local] Abbreviation bounded := (@Runner.bounded T R U K).
#[local] Abbreviation potential := (@Runner.potential T R U K items).
#[local] Abbreviation weight := (@Runner.task_weight R K (length items)).
#[local] Abbreviation phases := (@Runner.phases T R U K).
#[local] Abbreviation fnstate := (@Runner.fnstate R K).
#[local] Abbreviation quiescent := (@Runner.quiescent T R U K).
#[local] Abbreviation new_task := (@Runner.new_task R K).
#[local] Abbreviation nonrace := (λ j : job, is_race j = false).
#[local] Abbreviation steps_left := (@Runner.steps_left T R U K items).

Ltac unfold_state :=
  unfold Runner.alter_task, Runner.set_pc, Runner.enqueue, Runner.set_races,
    Runner.set_user, Runner.set_index, Runner.set_executing, Runner.set_results,
    Runner.set_values in *;
  simpl in *.


Lemma alter_insert (f : task → task) (ts : list task) i t :
  ts !! i = Some t → alter f i ts = <[i := f t]> ts.
Proof.
  revert i. induction ts as [|t0 ts IH]; intros [|i] Hi; simpl in *; try done.
  - congruence.
  - f_equal. by apply IH.
Qed.

Lemma job_index_nonrace (j : job) i : job_index j = Some i → is_race j = false.
Proof. by destruct j. Qed.

Lemma expected_task (s : state) (j : job) i :
  job_index j = Some i →
  expected s j ↔
  ∃ x t, items !! i = Some x ∧ results s !! i = Some t ∧ wanted x t (values s !! i) j.
Proof. intros Hi. unfold Runner.expected. by rewrite Hi. Qed.

Lemma filter_nonrace_snoc (q : list job) j :
  is_race j = false → filter nonrace (q ++ [j]) = filter nonrace q ++ [j].
Proof.
  intros Hj. rewrite list.filter_app. f_equal.
  rewrite filter_cons_True by done. done.
Qed.

Lemma popped_not_in_tail (popped q : list job) j :
  NoDup (filter nonrace (popped ++ q)) → is_race j = false → j ∈ popped → j ∉ q.
Proof.
  rewrite list.filter_app. intros (_ & Hd & _)%list.NoDup_app Hj Hin Hq.
  apply (Hd j); by apply list_elem_of_filter.
Qed.

Lemma tail_nodup (popped q : list job) :
  NoDup (filter nonrace (popped ++ q)) → NoDup (filter nonrace q).
Proof. rewrite list.filter_app. by intros (_ & _ & ?)%list.NoDup_app. Qed.

(** One step of one iteration: the jobs [popped] leave the queue, the jobs
    [new] join it, the entry [t] of iteration [i] becomes [t']. *)
Lemma core_task_step (u u' : U) popped q new ix ix' p p' ex ex' ts rs rs' vs vs' i t t' :
  core (State u (popped ++ q) ix p ex ts rs vs) →
  ts !! i = Some t →
  (∀ j, j ∈ popped → job_index j = Some i) →
  (∀ j, j ∈ new → job_index j = Some i ∨ ∃ k, j = JRace k ∧ k < length rs') →
  NoDup (filter nonrace new) →
  length rs ≤ length rs' →
  (p = Resuming → p' = Resuming) →
  (∀ x j, items !! i = Some x → job_index j = Some i →
     wanted x t' (vs' !! i) j ↔ (wanted x t (vs !! i) j ∧ j ∉ popped) ∨ j ∈ new) →
  (∀ x j, j ∈ new → ¬ wanted x t (vs !! i) j) →
  (∀ i', i' ≠ i → vs' !! i' = vs !! i') →
  (∀ v, vs' !! i = Some (Some v) → promise t' = Some v) →
  task_wf t' →
  executing_ok (State u' (q ++ new) ix' p' ex' (<[i:=t']> ts) rs' vs') →
  core (State u' (q ++ new) ix' p' ex' (<[i:=t']> ts) rs' vs').
Proof.
  intros [Hs Hl Hn Hw He Hlen Hv] Ht Hpop Hnew Hnn Hrs Hp Hloc Hfresh Hvs Hvi Hwf' He'.
  simpl in *.
  assert (Hi : i < length ts) by by eapply lookup_lt_Some.
  assert (Hx : ∃ x, items !! i = Some x).
  { apply lookup_lt_is_Some. lia. }
  destruct Hx as [x Hx].
  split; simpl; try done.
  - intros j [Hj|Hj]%elem_of_app.
    + pose proof (Hs j ltac:(apply elem_of_app; by right)) as Hej.
      destruct (job_index j) as [i'|] eqn:Hji.
      * rewrite expected_task in Hej |- * by done. simpl in *.
        destruct Hej as (x' & t0 & Hx' & Ht0 & Hwant).
        destruct (decide (i' = i)) as [->|Hne].
        -- exists x', t'. split_and!; [done|by apply list_lookup_insert_eq|].
           apply Hloc; [done..|]. left. split; [congruence|].
           intros Hin. eapply popped_not_in_tail; eauto using job_index_nonrace.
        -- exists x', t0. split_and!; [done|by rewrite list_lookup_insert_ne|].
           by rewrite Hvs.
      * unfold Runner.expected in *. rewrite Hji in *. destruct j; simpl in *; try done.
        -- lia.
        -- eauto.
    + destruct (Hnew j Hj) as [Hji|(k & -> & Hk)]; [|done].
      rewrite expected_task by done. simpl. exists x, t'.
      split_and!; [done|by apply list_lookup_insert_eq|].
      apply Hloc; [done..|]. by right.
  - intros j [i' Hji] Hej. rewrite expected_task in Hej by done. simpl in Hej.
    destruct Hej as (x' & t0 & Hx' & Ht0 & Hwant). apply elem_of_app.
    destruct (decide (i' = i)) as [->|Hne].
    + rewrite list_lookup_insert_eq in Ht0 by done. injection Ht0 as <-.
      apply Hloc in Hwant as [[Hwant Hnp]|Hin]; [|by right|done..]. left.
      assert (j ∈ popped ++ q) as [?|?]%elem_of_app; [|done|done].
      apply Hl; [by eexists|]. rewrite expected_task by done. simpl. eauto.
    + rewrite list_lookup_insert_ne in Ht0 by done. rewrite Hvs in Hwant by done. left.
      assert (j ∈ popped ++ q) as [Hin|?]%elem_of_app; [| |done].
      * apply Hl; [by eexists|]. rewrite expected_task by done. simpl. eauto.
      * apply Hpop in Hin. congruence.
  - rewrite list.filter_app. apply list.NoDup_app. split_and!; [by eapply tail_nodup| |done].
    intros j [Hr Hq]%list_elem_of_filter [_ Hin]%list_elem_of_filter.
    destruct (Hnew j Hin) as [Hji|(k & -> & Hk)]; [|done].
    pose proof (Hs j ltac:(apply elem_of_app; by right)) as Hej.
    rewrite expected_task in Hej by done. simpl in Hej.
    destruct Hej as (x' & t0 & Hx' & Ht0 & Hwant).
    apply (Hfresh x' j Hin). congruence.
  - intros i' t0. destruct (decide (i' = i)) as [->|Hne].
    + rewrite list_lookup_insert_eq by done. by intros [= <-].
    + rewrite list_lookup_insert_ne by done. apply Hw.
  - by rewrite length_insert.
  - intros i' v Hv'. destruct (decide (i' = i)) as [->|Hne].
    + exists t'. split; [by apply list_lookup_insert_eq|]. by apply Hvi.
    + rewrite list_lookup_insert_ne by done. apply Hv. by rewrite <- Hvs.
Qed.


Lemma executing_ok_insert (u u' : U) q q' ix ix' p p' ex ts rs rs' vs vs' i t t' :
  executing_ok (State u q ix p ex ts rs vs) →
  ts !! i = Some t → executeSettled t' = executeSettled t →
  executing_ok (State u' q' ix' p' ex (<[i:=t']> ts) rs' vs').
Proof.
  unfold Runner.executing_ok. simpl. destruct gate; [|done].
  intros [Hnd He] Ht Hes. split; [done|]. intros j. rewrite He.
  destruct (decide (j = i)) as [->|Hne].
  - rewrite list_lookup_insert_eq by by eapply lookup_lt_Some.
    split; intros (t0 & Ht0 & Hf); eexists; split; try done; congruence.
  - by rewrite list_lookup_insert_ne.
Qed.

Ltac unfold_task :=
  unfold Runner.set_fnPromise, Runner.set_adopted, Runner.set_promise,
    Runner.set_executeSettled, Runner.task_wf, Runner.reaction_of in *;
  simpl in *.

Ltac forward :=
  repeat match goal with
  | H : ?x = ?x → _ |- _ => specialize (H eq_refl)
  | H : ∀ r, Some ?a = Some r → _ |- _ => specialize (H a eq_refl)
  | H : ∀ r, None = Some r → _ |- _ => clear H
  | H : _ ∧ _ |- _ => destruct H
  end.

Ltac solve_local t :=
  destruct t as [[] [] [] []]; unfold_task; simplify_eq/=; forward; set_unfold;
  try (intuition (simplify_eq/=; try congruence; eauto)).

Ltac elem_solve :=
  set_unfold;
  intuition (subst; simpl in *; try done; try congruence; try (intuition congruence)).

Ltac nodup_solve :=
  repeat (rewrite filter_cons_True by done); rewrite ?filter_nil;
  repeat (apply NoDup_cons_2; [set_unfold; intuition congruence|]); apply NoDup_nil_2.

Lemma wanted_JCall (x : T) i (t : task) (o : outcome K R) v (j : job) :
  job_index j = Some i → fnPromise t = NotCalled → task_wf t →
  wanted x (set_fnPromise (reaction_of o) t) v j ↔
  (wanted x t v j ∧ j ∉ [JCall x i]) ∨ j ∈ [JAdopt i].
Proof.
  intros Hj Hf (Hw1 & Hw2 & Hw3 & Hw4).
  destruct j, o; simplify_eq/=; solve_local t.
Qed.


Lemma wanted_JAdopt (x : T) i (t : task) v (j : job) :
  job_index j = Some i → fnPromise t ≠ NotCalled → adopted t = false → task_wf t →
  wanted x (set_adopted t) v j ↔
  (wanted x t v j ∧ j ∉ [JAdopt i]) ∨
  j ∈ match fnPromise t with Fulfilled r => [JSettle i r] | _ => [] end.
Proof.
  intros Hj Hf Ha (Hw1 & Hw2 & Hw3 & Hw4).
  destruct j; simplify_eq/=; solve_local t.
Qed.

Lemma wanted_JSettle (x : T) i r (t : task) v (p : frame) (j : job) :
  job_index j = Some i →
  fnPromise t = Fulfilled r → adopted t = true → promise t = None → task_wf t →
  (v = Some None ↔ p = AwaitAll) →
  wanted x (set_promise r t) v j ↔
  (wanted x t v j ∧ j ∉ [JSettle i r]) ∨
  j ∈ (if gate then [JSplice i] else []) ++
      match p with AwaitAll => [JElement i r] | _ => [] end.
Proof.
  intros Hj Hf Ha Hp (Hw1 & Hw2 & Hw3 & Hw4) Hv.
  destruct j; simplify_eq/=; destruct gate eqn:Hg, p; solve_local t.
Qed.

Lemma wanted_JSplice (x : T) i (t : task) v (new : list job) (j : job) :
  job_index j = Some i → executeSettled t = false → task_wf t →
  (∀ j', j' ∈ new → is_race j' = true) →
  wanted x (set_executeSettled t) v j ↔ (wanted x t v j ∧ j ∉ [JSplice i]) ∨ j ∈ new.
Proof.
  intros Hj He (Hw1 & Hw2 & Hw3 & Hw4) Hnew.
  assert (j ∉ new) by (intros ?%Hnew; by destruct j).
  destruct j; simplify_eq/=; solve_local t.
Qed.

Lemma wanted_JElement (x : T) i r (t : task) (vs : list (option R)) (j : job) :
  job_index j = Some i → promise t = Some r → vs !! i = Some None →
  wanted x t (<[i := Some r]> vs !! i) j ↔
  (wanted x t (vs !! i) j ∧ j ∉ [JElement i r]) ∨ j ∈ [].
Proof.
  intros Hj Hp Hv. rewrite list_lookup_insert_eq by by eapply lookup_lt_Some.
  rewrite Hv. destruct j; simplify_eq/=; solve_local t.
Qed.

Lemma wanted_deliver (x : T) i k (o : outcome K R) (t : task) v (j : job) :
  job_index j = Some i → fnPromise t = Pending k → task_wf t →
  wanted x (set_fnPromise (reaction_of o) t) v j ↔
  (wanted x t v j ∧ j ∉ []) ∨
  j ∈ match o with
      | Return r => if adopted t then [JSettle i r] else []
      | Await _ => []
      end.
Proof.
  intros Hj Hf (Hw1 & Hw2 & Hw3 & Hw4).
  destruct j, o; simplify_eq/=; solve_local t.
Qed.


Lemma framed_task_step (u u' : U) popped q new ix p ex ts ts' rs vs :
  framed (State u (popped ++ q) ix p ex ts rs vs) →
  (∀ j, j ∈ popped → is_Some (job_index j)) →
  length ts' = length ts →
  framed (State u' (q ++ new) ix p ex ts' rs vs).
Proof.
  unfold Runner.framed. simpl. intros Hf Hpop ->.
  assert (Hin : ∀ j, job_index j = None → j ∈ popped ++ q → j ∈ q ++ new).
  { intros j Hj [Hp|?]%elem_of_app; apply elem_of_app; [|by left].
    apply Hpop in Hp as [? ?]. congruence. }
  destruct p; [|by intuition..].
  destruct Hf as (? & ? & ? & ? & [?|?]); split_and!; try done; [left|right]; auto.
Qed.

Lemma expected_head (s : state) (j : job) q i :
  core s → queue s = j :: q → job_index j = Some i →
  ∃ x t, items !! i = Some x ∧ results s !! i = Some t ∧ wanted x t (values s !! i) j.
Proof.
  intros Hc Hq Hj. apply expected_task; [done|].
  apply (core_sound _ _ _ Hc). rewrite Hq. by left.
Qed.

Lemma inv_JCall (u : U) x i q ix p ex ts rs vs :
  inv (State u (JCall x i :: q) ix p ex ts rs vs) →
  inv (run_job (JCall x i) (State u q ix p ex ts rs vs)).
Proof.
  intros [Hc Hf].
  destruct (expected_head _ _ _ i Hc eq_refl eq_refl) as (x' & t & Hx & Ht & -> & Hfp).
  simpl in *. pose proof (core_wf _ _ _ Hc _ _ Ht) as Hwf.
  destruct (fn x' i u) as [u' o]. unfold_state. rewrite (alter_insert _ _ _ _ Ht).
  split.
  - eapply (core_task_step u u' [JCall x' i] q [JAdopt i]); try done.
    + by intros j ->%list_elem_of_singleton.
    + intros j ->%list_elem_of_singleton. by left.
    + rewrite filter_cons_True by done. apply NoDup_singleton.
    + intros x0 j Hx0 Hj. assert (x0 = x') as -> by congruence.
      by apply wanted_JCall.
    + intros x0 j ->%list_elem_of_singleton. simpl. tauto.
    + intros v Hv. apply (core_values _ _ _ Hc) in Hv as (t0 & Ht0 & Hp).
      simpl in *. unfold_task. congruence.
    + clear -Hwf Hfp. destruct o; solve_local t.
    + eapply executing_ok_insert; [apply (core_exec _ _ _ Hc)|done..].
  - apply (framed_task_step u u' [JCall x' i] q [JAdopt i]) with (ts := ts); try done.
    + intros j ->%list_elem_of_singleton. by eexists.
    + by rewrite length_insert.
Qed.


Lemma inv_JAdopt (u : U) i q ix p ex ts rs vs :
  inv (State u (JAdopt i :: q) ix p ex ts rs vs) →
  inv (run_job (JAdopt i) (State u q ix p ex ts rs vs)).
Proof.
  intros [Hc Hf].
  destruct (expected_head _ _ _ i Hc eq_refl eq_refl) as (x & t & Hx & Ht & Hfp & Ha).
  simpl in Hx, Ht, Hfp, Ha. pose proof (core_wf _ _ _ Hc _ _ Ht) as Hwf.
  set (new := match fnPromise t with Fulfilled r => [JSettle i r] | _ => [] end : list job).
  assert (run_job (JAdopt i) (State u q ix p ex ts rs vs) =
          State u (q ++ new) ix p ex (<[i := set_adopted t]> ts) rs vs) as ->.
  { simpl. rewrite Ht. unfold_state. rewrite (alter_insert _ _ _ _ Ht). subst new.
    destruct (fnPromise t); unfold_state; by rewrite ?app_nil_r. }
  split.
  - eapply (core_task_step u u [JAdopt i] q new); try done.
    + by intros j ->%list_elem_of_singleton.
    + intros j Hj. left. subst new. destruct (fnPromise t); elem_solve.
    + subst new. destruct (fnPromise t); nodup_solve.
    + intros x0 j Hx0 Hj. by apply wanted_JAdopt.
    + intros x0 j Hj. subst new.
      destruct (fnPromise t) eqn:Hfp'; elem_solve.
    + intros v Hv. apply (core_values _ _ _ Hc) in Hv as (t0 & Ht0 & Hp).
      simpl in *. unfold_task. congruence.
    + clear -Hwf Hfp Ha. solve_local t.
    + eapply executing_ok_insert; [apply (core_exec _ _ _ Hc)|done..].
  - apply (framed_task_step u u [JAdopt i] q new) with (ts := ts); try done.
    + intros j ->%list_elem_of_singleton. by eexists.
    + by rewrite length_insert.
Qed.

Lemma collect_replicate_None n : collect (replicate (S n) (None : option R)) = None.
Proof. done. Qed.

Lemma collect_Some_lookup (vs : list (option R)) rs i :
  collect vs = Some rs → i < length vs → ∃ r, vs !! i = Some (Some r) ∧ rs !! i = Some r.
Proof.
  revert rs i. induction vs as [|v vs IH]; intros rs i; simpl; [lia|].
  destruct v as [r|]; [|done]. destruct (collect vs) as [rs'|]; [|done].
  intros [= <-] Hi. destruct i as [|i]; simpl; [eauto|]. apply IH; [done|lia].
Qed.

Lemma collect_Some_length (vs : list (option R)) rs :
  collect vs = Some rs → length rs = length vs.
Proof.
  revert rs. induction vs as [|v vs IH]; intros rs; simpl; [by intros [= <-]|].
  destruct v as [r|]; [|done]. destruct (collect vs) as [rs'|]; [|done].
  intros [= <-]. simpl. f_equal. by apply IH.
Qed.

Lemma collect_None_lookup (vs : list (option R)) :
  collect vs = None → ∃ i, vs !! i = Some None.
Proof.
  induction vs as [|v vs IH]; simpl; [done|].
  destruct v as [r|]; [|by exists 0]. destruct (collect vs); [done|].
  intros _. destruct IH as [i Hi]; [done|]. by exists (S i).
Qed.

(** While [Promise.all] waits, an entry of [values] is empty exactly when
    the promise of its iteration is pending or its job is queued. *)
Lemma values_pending (s : state) i t :
  inv s → results s !! i = Some t → promise t = None →
  values s !! i = Some None ↔ pc s = AwaitAll.
Proof.
  intros [Hc Hf] Ht Hp. unfold Runner.framed in Hf.
  assert (Hi : i < length (results s)) by by eapply lookup_lt_Some.
  assert (Hno : ∀ v, values s !! i ≠ Some (Some v)).
  { intros v Hv. apply (core_values _ _ _ Hc) in Hv as (t0 & Ht0 & Hp0). congruence. }
  destruct (pc s).
  - destruct Hf as (_ & -> & _). by rewrite lookup_nil.
  - destruct Hf as (_ & -> & _). by rewrite lookup_nil.
  - destruct Hf as (Hl1 & Hl2 & _). split; [done|]. intros _.
    destruct (values s !! i) as [[v|]|] eqn:Hv; [by destruct (Hno v)|done|].
    apply lookup_ge_None in Hv. lia.
  - destruct Hf as (Hl1 & Hl2 & _ & Hcol). split; [|done]. intros Hv.
    destruct (collect_Some_lookup _ _ i Hcol ltac:(lia)) as (r & Hr & _). congruence.
Qed.

Lemma inv_JSettle (u : U) i r q ix p ex ts rs vs :
  inv (State u (JSettle i r :: q) ix p ex ts rs vs) →
  inv (run_job (JSettle i r) (State u q ix p ex ts rs vs)).
Proof.
  intros Hinv. pose proof Hinv as [Hc Hf].
  destruct (expected_head _ _ _ i Hc eq_refl eq_refl) as (x & t & Hx & Ht & Hfp & Ha & Hp).
  simpl in Hx, Ht, Hfp, Ha, Hp. pose proof (core_wf _ _ _ Hc _ _ Ht) as Hwf.
  pose proof (values_pending _ _ _ Hinv Ht Hp) as Hvp. simpl in Hvp.
  set (new := (if gate then [JSplice i] else []) ++
              match p with AwaitAll => [JElement i r] | _ => [] end : list job).
  assert (run_job (JSettle i r) (State u q ix p ex ts rs vs) =
          State u (q ++ new) ix p ex (<[i := set_promise r t]> ts) rs vs) as ->.
  { simpl. unfold_state. by rewrite (alter_insert _ _ _ _ Ht). }
  split.
  - eapply (core_task_step u u [JSettle i r] q new); try done.
    + by intros j ->%list_elem_of_singleton.
    + intros j Hj. left. subst new. destruct gate, p; elem_solve.
    + subst new. destruct gate, p; simpl; nodup_solve.
    + intros x0 j Hx0 Hj. by apply wanted_JSettle.
    + intros x0 j Hj. subst new.
      destruct gate, p; elem_solve.
    + intros v Hv. apply (core_values _ _ _ Hc) in Hv as (t0 & Ht0 & Hp0).
      simpl in *. congruence.
    + clear -Hwf Hfp Ha Hp. solve_local t.
    + eapply executing_ok_insert; [apply (core_exec _ _ _ Hc)|done..].
  - apply (framed_task_step u u [JSettle i r] q new) with (ts := ts); try done.
    + intros j ->%list_elem_of_singleton. by eexists.
    + by rewrite length_insert.
Qed.


Lemma splice_indexOf_cons i x (ex : list nat) :
  i ∈ x :: ex →
  splice_indexOf i (x :: ex) = if decide (x = i) then ex else x :: splice_indexOf i ex.
Proof.
  intros Hin. unfold splice_indexOf, indexOf. simpl.
  destruct (decide (x = i)) as [->|Hne]; simpl; [done|].
  assert (Hi : i ∈ ex) by (set_unfold; naive_solver).
  destruct (list_find_elem_of (λ j, j = i) ex i Hi eq_refl) as [[n y] Hf].
  rewrite Hf. simpl. done.
Qed.

Lemma splice_indexOf_spec i (ex : list nat) :
  NoDup ex → i ∈ ex →
  NoDup (splice_indexOf i ex) ∧ (∀ j, j ∈ splice_indexOf i ex ↔ j ∈ ex ∧ j ≠ i) ∧
  S (length (splice_indexOf i ex)) = length ex.
Proof.
  induction ex as [|x ex IH]; intros Hnd Hin; [by apply elem_of_nil in Hin|].
  rewrite splice_indexOf_cons by done. apply list.NoDup_cons in Hnd as [Hx Hnd].
  destruct (decide (x = i)) as [->|Hne].
  - split_and!; [done| |done]. intros j. set_unfold. naive_solver.
  - assert (Hi : i ∈ ex) by (set_unfold; naive_solver).
    destruct (IH Hnd Hi) as (IH1 & IH2 & IH3). split_and!.
    + apply NoDup_cons_2; [|done]. rewrite IH2. naive_solver.
    + intros j. rewrite !elem_of_cons, IH2. naive_solver.
    + simpl. lia.
Qed.

Lemma elem_of_race_reactions i k0 (rs : list (list nat)) (j : job) :
  j ∈ race_reactions i k0 rs ↔ ∃ k m, j = JRace (k0 + k) ∧ rs !! k = Some m ∧ i ∈ m.
Proof.
  revert k0. induction rs as [|m rs IH]; intros k0; simpl.
  - split; [by intros ?%elem_of_nil|]. by intros (k & m & _ & ? & _).
  - destruct (bool_decide (i ∈ m)) eqn:Hm.
    + apply bool_decide_eq_true in Hm. rewrite elem_of_cons, IH. split.
      * intros [->|(k & m' & -> & Hk & Hi)].
        -- exists 0, m. by rewrite Nat.add_0_r.
        -- exists (S k), m'. split; [f_equal; lia|done].
      * intros (k & m' & -> & Hk & Hi). destruct k as [|k]; simpl in *.
        -- left. by rewrite Nat.add_0_r.
        -- right. exists k, m'. split; [f_equal; lia|done].
    + apply bool_decide_eq_false in Hm. rewrite IH. split.
      * intros (k & m' & -> & Hk & Hi). exists (S k), m'. split; [f_equal; lia|done].
      * intros (k & m' & -> & Hk & Hi). destruct k as [|k]; simpl in *.
        -- congruence.
        -- exists k, m'. split; [f_equal; lia|done].
Qed.

Lemma race_reactions_nonrace i k0 (rs : list (list nat)) :
  filter nonrace (race_reactions i k0 rs : list job) = [].
Proof.
  revert k0. induction rs as [|m rs IH]; intros k0; simpl; [done|].
  destruct (bool_decide (i ∈ m)); [|done]. by rewrite filter_cons_False.
Qed.

Lemma inv_JSplice (u : U) i q ix p ex ts rs vs :
  inv (State u (JSplice i :: q) ix p ex ts rs vs) →
  inv (run_job (JSplice i) (State u q ix p ex ts rs vs)).
Proof.
  intros [Hc Hf].
  destruct (expected_head _ _ _ i Hc eq_refl eq_refl) as (x & t & Hx & Ht & Hg & Hp & Hes).
  simpl in Hx, Ht, Hg, Hp, Hes. pose proof (core_wf _ _ _ Hc _ _ Ht) as Hwf.
  set (new := race_reactions i 0 rs : list job).
  assert (run_job (JSplice i) (State u q ix p ex ts rs vs) =
          State u (q ++ new) ix p (splice_indexOf i ex)
                (<[i := set_executeSettled t]> ts) rs vs) as ->.
  { simpl. unfold_state. by rewrite (alter_insert _ _ _ _ Ht). }
  pose proof (core_exec _ _ _ Hc) as He. unfold Runner.executing_ok in He.
  simpl in He. rewrite Hg in He. destruct He as [Hnd He].
  assert (Hi : i ∈ ex) by (apply He; eauto).
  destruct (splice_indexOf_spec i ex Hnd Hi) as (Hnd' & Hin' & Hlen').
  split.
  - eapply (core_task_step u u [JSplice i] q new); try done.
    + by intros j ->%list_elem_of_singleton.
    + intros j (k & m & -> & Hk & _)%elem_of_race_reactions. right. exists k.
      split; [done|]. by eapply lookup_lt_Some.
    + subst new. rewrite race_reactions_nonrace. constructor.
    + intros x0 j Hx0 Hj. apply wanted_JSplice; try done.
      by intros j' (k & m & -> & _)%elem_of_race_reactions.
    + intros x0 j (k & m & -> & _)%elem_of_race_reactions. simpl. tauto.
    + intros v Hv. apply (core_values _ _ _ Hc) in Hv as (t0 & Ht0 & Hp0).
      simpl in *. congruence.
    + clear -Hwf Hg Hp Hes. solve_local t.
    + unfold Runner.executing_ok. simpl. rewrite Hg. split; [done|].
      intros j. rewrite Hin', He. destruct (decide (j = i)) as [->|Hne].
      * rewrite list_lookup_insert_eq by by eapply lookup_lt_Some.
        split; [naive_solver|]. by intros (t0 & [= <-] & ?).
      * rewrite list_lookup_insert_ne by done. naive_solver.
  - unfold Runner.framed in *. simpl in *. rewrite length_insert.
    destruct p; [| |by intuition..].
    + destruct Hf as (? & ? & ? & ? & [Hin|[Hk Hne]]); split_and!; try done; left.
      * apply elem_of_cons in Hin as [?|?]; [done|]. apply elem_of_app. by left.
      * apply elem_of_app. right. apply elem_of_race_reactions. by exists k, ex.
    + destruct Hf as (? & ? & ? & Hin); split_and!; try done.
      apply elem_of_cons in Hin as [?|?]; [done|]. apply elem_of_app. by left.
Qed.

Lemma values_empty_AwaitAll (s : state) i :
  framed s → values s !! i = Some None → pc s = AwaitAll.
Proof.
  unfold Runner.framed. intros Hf Hv. destruct (pc s); try done.
  - destruct Hf as (_ & Hnil & _). by rewrite Hnil, lookup_nil in Hv.
  - destruct Hf as (_ & Hnil & _). by rewrite Hnil, lookup_nil in Hv.
  - destruct Hf as (_ & _ & _ & Hcol).
    destruct (collect_Some_lookup _ _ i Hcol) as (r & Hr & _); [|congruence].
    by eapply lookup_lt_Some.
Qed.

Lemma inv_JElement (u : U) i r q ix p ex ts rs vs :
  inv (State u (JElement i r :: q) ix p ex ts rs vs) →
  inv (run_job (JElement i r) (State u q ix p ex ts rs vs)).
Proof.
  intros [Hc Hf].
  destruct (expected_head _ _ _ i Hc eq_refl eq_refl) as (x & t & Hx & Ht & Hp & Hv).
  simpl in Hx, Ht, Hp, Hv.
  pose proof (values_empty_AwaitAll _ i Hf Hv) as Hpc. simpl in Hpc. subst p.
  set (vs' := <[i := Some r]> vs).
  set (p' := match collect vs' with Some rs' => Resolved rs' | None => AwaitAll end).
  assert (run_job (JElement i r) (State u q ix AwaitAll ex ts rs vs) =
          State u (q ++ []) ix p' ex (<[i := t]> ts) rs vs') as ->.
  { simpl. fold vs'. subst p'. rewrite app_nil_r, list_insert_id by done.
    by destruct (collect vs'). }
  split.
  - eapply (core_task_step u u [JElement i r] q []); try done.
    + by intros j ->%list_elem_of_singleton.
    + by intros j ?%elem_of_nil.
    + constructor.
    + intros x0 j Hx0 Hj. by apply wanted_JElement.
    + by intros x0 j ?%elem_of_nil.
    + intros i' Hne. subst vs'. by rewrite list_lookup_insert_ne.
    + subst vs'. rewrite list_lookup_insert_eq by by eapply lookup_lt_Some.
      by intros v [= <-].
    + by eapply (core_wf _ _ _ Hc).
    + rewrite list_insert_id by done. apply (core_exec _ _ _ Hc).
  - unfold Runner.framed in *. simpl in *. rewrite length_insert.
    destruct Hf as (? & ? & ? & ?). subst p' vs'.
    destruct (collect (<[i:=Some r]> vs)) eqn:Hcol; simpl;
      rewrite length_insert; by split_and!.
Qed.


Lemma deliver_Some (s s' : state) i e :
  deliver i e s = Some s' →
  ∃ t k, queue s = [] ∧ results s !! i = Some t ∧ fnPromise t = Pending k ∧
    let '(u, o) := resume k e (user s) in
    s' = State u match o with
                 | Return r => if adopted t then [JSettle i r] else []
                 | Await _ => []
                 end
               (index s) (pc s) (executing s)
               (<[i := set_fnPromise (reaction_of o) t]> (results s)) (races s) (values s).
Proof.
  unfold Runner.deliver. destruct (queue s) eqn:Hq; [|done].
  destruct (results s !! i) as [t|] eqn:Ht; [|done].
  destruct (fnPromise t) as [|k|] eqn:Hfp; try done.
  destruct (resume k e (user s)) as [u o] eqn:Hr. intros [= <-].
  exists t, k. split_and!; try done. rewrite Hr. unfold_state.
  rewrite (alter_insert _ _ _ _ Ht), Hq.
  destruct o; [done|]. by destruct (adopted t).
Qed.

Lemma inv_deliver (s s' : state) i e :
  inv s → deliver i e s = Some s' → inv s'.
Proof.
  intros [Hc Hf] (t & k & Hq & Ht & Hfp & Hs')%deliver_Some.
  destruct s as [u q ix p ex ts rs vs]. simpl in *. subst q.
  destruct (resume k e u) as [u' o]. subst s'.
  pose proof (core_wf _ _ _ Hc _ _ Ht) as Hwf.
  set (new := match o with
              | Return r => if adopted t then [JSettle i r] else []
              | Await _ => []
              end : list job).
  split.
  - eapply (core_task_step u u' [] [] new); try done.
    + by intros j ?%elem_of_nil.
    + intros j Hj. left. subst new. destruct o, (adopted t); elem_solve.
    + subst new. destruct o, (adopted t); nodup_solve.
    + intros x0 j Hx0 Hj. by apply (wanted_deliver _ _ k).
    + intros x0 j Hj. subst new. destruct o, (adopted t); elem_solve.
    + intros v Hv. apply (core_values _ _ _ Hc) in Hv as (t0 & Ht0 & Hp0).
      simpl in *. unfold_task. congruence.
    + clear -Hwf Hfp. destruct o; solve_local t.
    + eapply executing_ok_insert; [apply (core_exec _ _ _ Hc)|done..].
  - apply (framed_task_step u u' [] [] new) with (ts := ts); try done.
    + by intros j ?%elem_of_nil.
    + by rewrite length_insert.
Qed.

(** A step of the frame of the runner: no entry of [results] changes. *)
Lemma core_frame_step (u : U) popped q new ix ix' p p' ex ts rs vs :
  core (State u (popped ++ q) ix p ex ts rs vs) →
  (∀ j, j ∈ popped → job_index j = None) →
  (∀ j, j ∈ new → j = JResume ∧ p' = Resuming) →
  NoDup (filter nonrace new) →
  (JResume ∈ q → p' = Resuming ∧ new = []) →
  core (State u (q ++ new) ix' p' ex ts rs vs).
Proof.
  intros [Hs Hl Hn Hw He Hlen Hv] Hpop Hnew Hnn Hres. simpl in *.
  split; simpl; try done.
  - intros j [Hj|Hj]%elem_of_app.
    + pose proof (Hs j ltac:(apply elem_of_app; by right)) as Hej.
      unfold Runner.expected in *. destruct (job_index j) eqn:Hji; [done|].
      destruct j; simpl in *; try done. by apply Hres.
    + by apply Hnew in Hj as [-> ->].
  - intros j [i' Hji] Hej. apply elem_of_app. left.
    assert (j ∈ popped ++ q) as [Hin|?]%elem_of_app; [| |done].
    + apply Hl; [by eexists|]. unfold Runner.expected in *. by rewrite Hji in *.
    + apply Hpop in Hin. congruence.
  - rewrite list.filter_app. apply list.NoDup_app. split_and!; [by eapply tail_nodup| |done].
    intros j [Hr Hq]%list_elem_of_filter [_ Hin]%list_elem_of_filter.
    pose proof (Hnew _ Hin) as [-> _]. apply Hres in Hq as [_ ->].
    by apply elem_of_nil in Hin.
Qed.

Lemma inv_stale_race (u : U) k q ix p ex ts rs vs :
  inv (State u (JRace k :: q) ix p ex ts rs vs) → p ≠ AwaitRace k →
  inv (State u q ix p ex ts rs vs).
Proof.
  intros [Hc Hf] Hne. split.
  - rewrite <- (app_nil_r q).
    apply (core_frame_step u [JRace k] q [] ix ix p p); try done.
    + by intros j ->%list_elem_of_singleton.
    + by intros j ?%elem_of_nil.
    + constructor.
    + intros Hin. split; [|done]. apply (core_sound _ _ _ Hc JResume). by right.
  - unfold Runner.framed in *. simpl in *. destruct p; try done.
    + destruct Hf as (? & ? & ? & ? & [Hin|?]); split_and!; try done; [left|by right].
      apply elem_of_cons in Hin as [?|?]; [congruence|done].
    + destruct Hf as (? & ? & ? & Hin); split_and!; try done.
      by apply elem_of_cons in Hin as [?|?].
Qed.

Lemma inv_JRace (u : U) k q ix p ex ts rs vs :
  inv (State u (JRace k :: q) ix p ex ts rs vs) →
  inv (run_job (JRace k) (State u q ix p ex ts rs vs)).
Proof.
  intros Hinv. simpl.
  destruct p as [k'| | |]; try (by apply (inv_stale_race _ k)).
  destruct (bool_decide (k = k')) eqn:Hk.
  - apply bool_decide_eq_true in Hk as <-. destruct Hinv as [Hc Hf]. unfold_state. split.
    + apply (core_frame_step u [JRace k] q [JResume] ix ix (AwaitRace k) Resuming);
        try done.
      * by intros j ->%list_elem_of_singleton.
      * by intros j ->%list_elem_of_singleton.
      * nodup_solve.
      * intros Hin. by pose proof (core_sound _ _ _ Hc JResume ltac:(by right)).
    + unfold Runner.framed in *. simpl in *.
      destruct Hf as (? & ? & ? & ? & _). split_and!; try done; [lia|].
      apply elem_of_app. right. by left.
  - apply bool_decide_eq_false in Hk. apply (inv_stale_race _ k); [done|congruence].
Qed.

Lemma elem_of_ready_elements n (ts : list task) (j : job) :
  j ∈ ready_elements n ts ↔
  ∃ i t r, j = JElement (n + i) r ∧ ts !! i = Some t ∧ promise t = Some r.
Proof.
  revert n. induction ts as [|t ts IH]; intros n; simpl.
  - split; [by intros ?%elem_of_nil|]. by intros (i & t & r & _ & ? & _).
  - destruct (promise t) as [r|] eqn:Hp.
    + rewrite elem_of_cons, IH. split.
      * intros [->|(i & t' & r' & -> & Hi & Hr)].
        -- exists 0, t, r. by rewrite Nat.add_0_r.
        -- exists (S i), t', r'. split; [f_equal; lia|done].
      * intros (i & t' & r' & -> & Hi & Hr). destruct i as [|i]; simpl in *.
        -- left. rewrite Nat.add_0_r. congruence.
        -- right. exists i, t', r'. split; [f_equal; lia|done].
    + rewrite IH. split.
      * intros (i & t' & r' & -> & Hi & Hr).
        exists (S i), t', r'. split; [f_equal; lia|done].
      * intros (i & t' & r' & -> & Hi & Hr). destruct i as [|i]; simpl in *.
        -- congruence.
        -- exists i, t', r'. split; [f_equal; lia|done].
Qed.

Lemma ready_elements_nonrace n (ts : list task) :
  filter nonrace (ready_elements n ts : list job) = ready_elements n ts.
Proof.
  revert n. induction ts as [|t ts IH]; intros n; simpl; [done|].
  destruct (promise t); [|done]. rewrite filter_cons_True by done. by rewrite IH.
Qed.

Lemma ready_elements_NoDup n (ts : list task) :
  NoDup (ready_elements n ts : list job).
Proof.
  revert n. induction ts as [|t ts IH]; intros n; simpl; [constructor|].
  destruct (promise t); [|done]. constructor; [|done].
  intros (i & t' & r' & Heq & _)%elem_of_ready_elements. injection Heq. lia.
Qed.

Lemma core_create (u : U) q i p ex ts rs x :
  core (State u q i p ex ts rs []) →
  length ts = i → items !! i = Some x →
  core (State u (q ++ [JCall x i]) i p (if gate then ex ++ [i] else ex)
              (ts ++ [new_task]) rs []).
Proof.
  intros [Hs Hl Hn Hw He Hlen Hv] Hi Hx. simpl in *.
  split; simpl.
  - intros j [Hj|Hj]%elem_of_app.
    + apply Hs in Hj. unfold Runner.expected in *. simpl in *.
      destruct (job_index j) as [i'|]; [|done].
      destruct Hj as (x' & t & ? & Ht & ?). exists x', t. split_and!; try done.
      by apply lookup_app_l_Some.
    + apply list_elem_of_singleton in Hj as ->. unfold Runner.expected. simpl.
      exists x, new_task. split_and!; try done.
      rewrite lookup_app_r by lia. by replace (i - length ts) with 0 by lia.
  - intros j [i' Hji] Hj. rewrite expected_task in Hj by done. simpl in Hj.
    destruct Hj as (x' & t & Hx' & [[? Ht]|[-> <-]]%lookup_snoc_Some & Hwant).
    + apply elem_of_app. left. apply Hl; [by eexists|].
      rewrite expected_task by done. simpl. eauto.
    + apply elem_of_app. right. apply list_elem_of_singleton.
      destruct j; simplify_eq/=; try (by destruct Hwant); try tauto.
      destruct Hwant as [-> _]. congruence.
  - rewrite filter_nonrace_snoc by done. apply list.NoDup_app. split; [done|]. split.
    + intros j Hj%list_elem_of_filter ->%list_elem_of_singleton.
      destruct Hj as [_ Hj]. apply Hs in Hj. unfold Runner.expected in Hj. simpl in Hj.
      destruct Hj as (? & t & _ & Ht & _). apply lookup_lt_Some in Ht. lia.
    + apply NoDup_singleton.
  - intros i' t [[? ?]|[-> <-]]%lookup_snoc_Some; [eauto|].
    repeat split; simpl; try done.
  - unfold Runner.executing_ok in *. simpl in *. destruct gate.
    + destruct He as [Hnd He]. split.
      * apply list.NoDup_app. split; [done|]. split; [|apply NoDup_singleton].
        intros j Hj ->%list_elem_of_singleton. apply He in Hj as (t & Ht & _).
        apply lookup_lt_Some in Ht. lia.
      * intros j. rewrite elem_of_app, He, list_elem_of_singleton.
        setoid_rewrite lookup_snoc_Some. split.
        -- intros [(t & Ht & Hf)| ->]; [exists t; eauto using lookup_lt_Some|].
           exists new_task. split; [right; done|done].
        -- intros (t & [[? ?]|[-> <-]] & Hf); eauto.
    + done.
  - rewrite length_app. simpl. apply lookup_lt_Some in Hx. lia.
  - intros ? ? Hvv. by rewrite lookup_nil in Hvv.
Qed.

Lemma inv_promise_all (s : state) :
  core s → values s = [] → length (results s) = length items →
  length (races s) ≤ length items → JResume ∉ queue s →
  inv (promise_all s).
Proof.
  destruct s as [u q i p ex ts rs vs]. simpl.
  intros [Hs Hl Hn Hw He Hlen Hv] -> Hts Hrs Hres. simpl in *.
  assert (Hnoel : ∀ i' r, JElement i' r ∉ q).
  { intros i' r (x & t & _ & _ & _ & [=])%Hs. }
  assert (Hcore : ∀ p', core (State u (q ++ ready_elements 0 ts) i p' ex ts rs
                                    (replicate (length ts) None))).
  { intros p'. split; simpl; try done.
    - intros j [Hj|Hj]%elem_of_app.
      + pose proof (Hs j Hj) as He'. unfold Runner.expected in *. simpl in *.
        destruct j; simpl in *; try done. by destruct (Hnoel i0 r).
      + apply elem_of_ready_elements in Hj as (i' & t & r & -> & Hi & Hr).
        unfold Runner.expected. simpl.
        destruct (lookup_lt_is_Some_2 items i') as [x Hx];
          [apply lookup_lt_Some in Hi; lia|].
        exists x, t. split_and!; [done..|].
        apply lookup_replicate_2. by eapply lookup_lt_Some.
    - intros j [i' Hji] Hj. rewrite expected_task in Hj by done. simpl in Hj.
      destruct Hj as (x & t & Hx & Ht & Hwant). apply elem_of_app.
      destruct j; simplify_eq/=.
      5: { right. destruct Hwant as [Hp _]. apply elem_of_ready_elements.
           by exists i', t, r. }
      all: left; apply Hl; [by eexists|]; unfold Runner.expected; simpl; eauto 10.
    - rewrite list.filter_app, ready_elements_nonrace. apply list.NoDup_app.
      split; [done|]. split; [|apply ready_elements_NoDup].
      intros j [_ Hj]%list_elem_of_filter (i' & t & r & -> & _)%elem_of_ready_elements.
      by destruct (Hnoel (0 + i') r).
    - intros i' v [[=] _]%lookup_replicate. }
  unfold Runner.promise_all, Runner.inv. simpl. destruct ts as [|t ts]; simpl.
  - split; [apply (Hcore (Resolved []))|]. unfold Runner.framed. simpl.
    simpl in Hts. split_and!; done.
  - split; [apply (Hcore AwaitAll)|]. unfold Runner.framed. simpl.
    simpl in Hts. rewrite length_replicate. split_and!; try done.
Qed.

Lemma filter_settled_nil (ts : list task) (ex : list nat) :
  (∀ j, j ∈ ex → settled_member ts j = false) →
  filter (λ j, settled_member ts j = true) ex = [].
Proof.
  induction ex as [|j ex IH]; intros Hex; [done|].
  rewrite filter_cons_False.
  - apply IH. intros j' Hj'. apply Hex. by right.
  - rewrite Hex; [done|by left].
Qed.

Lemma inv_await_race (s : state) :
  core s → gate = true → length (results s) = S (index s) → values s = [] →
  length (races s) ≤ index s → JResume ∉ queue s → executing s ≠ [] →
  inv (await_race s).
Proof.
  destruct s as [u q i p ex ts rs vs]. simpl.
  intros Hc Hg Hts -> Hrs Hres Hex.
  pose proof (core_exec _ _ _ Hc) as He.
  unfold Runner.executing_ok in He. simpl in He. rewrite Hg in He.
  destruct He as [Hnd He].
  unfold Runner.await_race. simpl. rewrite filter_settled_nil; last first.
  { intros j (t & Ht & Hf)%He. unfold settled_member. by rewrite Ht. }
  unfold_state. split.
  - destruct Hc as [Hs Hl Hn Hw He' Hlen Hv]. simpl in *.
    rewrite app_nil_r. split; simpl; try done.
    + intros j Hj. pose proof (Hs j Hj) as He''. unfold Runner.expected in *.
      destruct j; simpl in *; try done.
      rewrite length_app. simpl. lia.
    + intros j [i' Hji] Hj. apply Hl; [by eexists|].
      unfold Runner.expected in *. by rewrite Hji in *.
  - unfold Runner.framed. simpl. rewrite length_app. simpl.
    split_and!; try done; try lia.
    right. split; [|done]. by rewrite lookup_app_r, Nat.sub_diag by lia.
Qed.

Lemma drop_cons_inv (l : list T) i x rest :
  x :: rest = drop i l → l !! i = Some x ∧ rest = drop (S i) l.
Proof.
  intros Hd. assert (Hx : l !! i = Some x).
  { rewrite <- (Nat.add_0_r i), <- lookup_drop, <- Hd. done. }
  split; [done|]. rewrite (drop_S _ _ _ Hx) in Hd. congruence.
Qed.

Lemma core_index (s : state) i :
  core s → core (State (user s) (queue s) i (pc s) (executing s) (results s) (races s) (values s)).
Proof.
  intros [Hs Hl Hn Hw He Hlen Hv]. split; simpl; done.
Qed.

Lemma inv_loop rest (s : state) : looping rest s → inv (loop rest s).
Proof.
  revert s. induction rest as [|x rest IH]; intros s (Hc & Hd & Hts & Hvs & Hrs & Hres).
  - simpl. apply inv_promise_all; try done.
    + pose proof (core_len _ _ _ Hc) as Hlen. symmetry in Hd.
      apply drop_nil_inv in Hd. lia.
    + pose proof (core_len _ _ _ Hc) as Hlen. lia.
  - apply drop_cons_inv in Hd as [Hx Hd].
    destruct s as [u q i p ex ts rs vs]. simpl in *. subst vs.
    pose proof (core_create _ _ _ _ _ _ _ _ Hc Hts Hx) as Hc'.
    unfold_state. destruct gate eqn:Hg.
    + destruct (js_ge _ limit) eqn:Hge.
      * apply inv_await_race; simpl; try done.
        -- rewrite length_app. simpl. lia.
        -- intros [?|[=]%list_elem_of_singleton]%elem_of_app. done.
        -- by destruct ex.
      * apply IH. split_and!; simpl; try done.
        -- by apply (core_index _ (S i)) in Hc'.
        -- rewrite length_app. simpl. lia.
        -- lia.
        -- intros [?|[=]%list_elem_of_singleton]%elem_of_app. done.
    + apply IH. split_and!; simpl; try done.
      * by apply (core_index _ (S i)) in Hc'.
      * rewrite length_app. simpl. lia.
      * lia.
      * intros [?|[=]%list_elem_of_singleton]%elem_of_app. done.
Qed.

Lemma inv_init (u : U) : inv (runWithConcurrencyLimit items limit u).
Proof.
  apply inv_loop. split_and!; simpl; try done.
  - split; simpl; try done.
    + by intros j ?%elem_of_nil.
    + intros j [i Hi] Hj. apply (expected_task _ _ _ Hi) in Hj as (x & t & _ & Ht & _).
      simpl in Ht. by rewrite lookup_nil in Ht.
    + constructor.
    + unfold Runner.executing_ok. simpl. destruct gate; [|done].
      split; [constructor|]. intros i. rewrite elem_of_nil. naive_solver.
    + lia.
  - by intros ?%elem_of_nil.
Qed.



Lemma looping_JResume (u : U) q ix p ex ts rs vs :
  inv (State u (JResume :: q) ix p ex ts rs vs) →
  looping (drop (S ix) items) (State u q (S ix) p ex ts rs vs).
Proof.
  intros [Hc Hf].
  pose proof (core_sound _ _ _ Hc JResume ltac:(by left)) as Hp.
  unfold Runner.expected in Hp. simpl in Hp. subst p.
  unfold Runner.framed in Hf. simpl in Hf. destruct Hf as (Hts & -> & Hrs & _).
  assert (Hnot : JResume ∉ q).
  { apply (popped_not_in_tail [JResume] q); [apply (core_nodup _ _ _ Hc)|done|by left]. }
  split_and!; simpl; try done.
  rewrite <- (app_nil_r q).
  apply (core_frame_step u [JResume] q [] ix (S ix) Resuming Resuming); try done.
  - by intros j ->%list_elem_of_singleton.
  - by intros j ?%elem_of_nil.
  - constructor.
Qed.

Lemma inv_JResume (u : U) q ix p ex ts rs vs :
  inv (State u (JResume :: q) ix p ex ts rs vs) →
  inv (run_job JResume (State u q ix p ex ts rs vs)).
Proof. intros Hinv. simpl. apply inv_loop. by apply looping_JResume. Qed.

Lemma inv_step (l : label) (s s' : state) : inv s → step l s = Some s' → inv s'.
Proof.
  intros Hinv. destruct l as [|i e]; simpl; [|by apply inv_deliver].
  destruct s as [u [|j q] ix p ex ts rs vs]; simpl; [done|]. intros [= <-].
  destruct j.
  - by apply inv_JCall.
  - by apply inv_JAdopt.
  - by apply inv_JSettle.
  - by apply inv_JSplice.
  - by apply inv_JRace.
  - by apply inv_JResume.
  - by apply inv_JElement.
Qed.

Lemma inv_steps (ls : list label) (s s' : state) : inv s → steps ls s = Some s' → inv s'.
Proof.
  revert s. induction ls as [|l ls IH]; intros s Hinv; simpl; [by intros [= <-]|].
  destruct (step l s) as [s1|] eqn:Hs; [|done]. eauto using inv_step.
Qed.

Lemma reachable_inv (u : U) (s : state) : reachable u s → inv s.
Proof. intros [ls Hls]. eapply inv_steps; [apply inv_init|done]. Qed.


(** *** The admission gate *)

Lemma js_ge_length (ex : list nat) z :
  js_ge (js_length ex) (Int z) = true ↔ (z ≤ Z.of_nat (length ex))%Z.
Proof. unfold js_ge, js_length, js_le. apply Z.leb_le. Qed.

Lemma race_not_queued (s : state) : core s → JRace (length (races s)) ∉ queue s.
Proof.
  intros Hc Hin. apply (core_sound _ _ _ Hc) in Hin.
  unfold Runner.expected in Hin. simpl in Hin. lia.
Qed.

Lemma await_race_eq (s : state) :
  core s → gate = true →
  await_race s = State (user s) (queue s) (index s) (AwaitRace (length (races s)))
                       (executing s) (results s) (races s ++ [executing s]) (values s).
Proof.
  intros Hc Hg. pose proof (core_exec _ _ _ Hc) as He.
  unfold Runner.executing_ok in He. rewrite Hg in He. destruct He as [_ He].
  unfold Runner.await_race. rewrite filter_settled_nil.
  - unfold_state. by rewrite app_nil_r.
  - intros j (t & Ht & Hf)%He. unfold settled_member. by rewrite Ht.
Qed.

Lemma bounded_loop z rest (s : state) :
  limit = Int z → (1 ≤ z)%Z →
  looping rest s → length (executing s) < Z.to_nat z →
  bounded (Z.to_nat z) (loop rest s).
Proof.
  intros Hlim Hz. revert s.
  induction rest as [|x rest IH]; intros s (Hc & Hd & Hts & Hvs & Hrs & Hres) Hex.
  - simpl. unfold Runner.promise_all, Runner.bounded.
    destruct (results s); unfold_state; lia.
  - apply drop_cons_inv in Hd as [Hx Hd].
    destruct s as [u q i p ex ts rs vs]. simpl in *. subst vs.
    pose proof (core_create _ _ _ _ _ _ _ _ Hc Hts Hx) as Hc'.
    unfold_state. destruct gate eqn:Hg.
    + destruct (js_ge _ limit) eqn:Hge.
      * rewrite await_race_eq by done. unfold Runner.bounded. simpl.
        rewrite length_app. simpl. split; [lia|].
        intros Hin. by apply race_not_queued in Hc'.
      * apply IH.
        -- split_and!; simpl; try done.
           ++ by apply (core_index _ (S i)) in Hc'.
           ++ rewrite length_app. simpl. lia.
           ++ lia.
           ++ intros [?|[=]%list_elem_of_singleton]%elem_of_app. done.
        -- simpl. rewrite Hlim in Hge. apply not_true_iff_false in Hge.
           rewrite js_ge_length in Hge. lia.
    + apply IH; [|done]. split_and!; simpl; try done.
      * by apply (core_index _ (S i)) in Hc'.
      * rewrite length_app. simpl. lia.
      * lia.
      * intros [?|[=]%list_elem_of_singleton]%elem_of_app. done.
Qed.

Lemma bounded_init z (u : U) :
  limit = Int z → (1 ≤ z)%Z →
  bounded (Z.to_nat z) (runWithConcurrencyLimit items limit u).
Proof.
  intros Hlim Hz. apply bounded_loop; try done; [|simpl; lia].
  split_and!; simpl; try done.
  - split; simpl; try done.
    + by intros j ?%elem_of_nil.
    + intros j [i Hi] Hj. apply (expected_task _ _ _ Hi) in Hj as (x & t & _ & Ht & _).
      simpl in Ht. by rewrite lookup_nil in Ht.
    + constructor.
    + unfold Runner.executing_ok. simpl. destruct gate; [|done].
      split; [constructor|]. intros i. rewrite elem_of_nil. naive_solver.
    + lia.
  - by intros ?%elem_of_nil.
Qed.

(** A job of an iteration leaves [pc] and [executing] alone and queues no
    job of a race. *)
Lemma bounded_task_step L (u u' : U) j q q' ix ix' p p' ex ts ts' rs rs' vs vs' :
  bounded L (State u (j :: q) ix p ex ts rs vs) →
  (∀ k, JRace k ∈ q' → JRace k ∈ q) →
  p' = p ∨ (p = AwaitAll ∧ ∃ r, p' = Resolved r) →
  bounded L (State u' q' ix' p' ex ts' rs' vs').
Proof.
  unfold Runner.bounded. simpl. intros Hb Hnew [->|[-> [r ->]]]; [|done].
  destruct p; try done. destruct Hb as [? Hb]. split; [done|].
  intros Hin%Hnew. apply Hb. by right.
Qed.

Lemma bounded_step z (l : label) (s s' : state) :
  limit = Int z → (1 ≤ z)%Z →
  inv s → bounded (Z.to_nat z) s → step l s = Some s' → bounded (Z.to_nat z) s'.
Proof.
  intros Hlim Hz Hinv Hb. destruct l as [|i e]; simpl.
  - destruct s as [u [|j q] ix p ex ts rs vs]; simpl; [done|]. intros [= <-].
    destruct j; simpl.
    + destruct (fn item i u) as [u' o]. unfold_state.
      eapply bounded_task_step; [done| |by left]. intros k0. set_solver.
    + destruct (fnPromise <$> ts !! i) as [[]|]; unfold_state;
        (eapply bounded_task_step; [done| |by left]); intros k0; set_solver.
    + unfold_state. eapply bounded_task_step; [done| |by left].
      intros k0. destruct gate, p; set_solver.
    + destruct Hinv as [Hc Hf].
      destruct (expected_head _ _ _ i Hc eq_refl eq_refl)
        as (x & t & Hx & Ht & Hg & Hp & Hes).
      simpl in Hx, Ht, Hg, Hp, Hes.
      pose proof (core_exec _ _ _ Hc) as He. unfold Runner.executing_ok in He.
      simpl in He. rewrite Hg in He. destruct He as [Hnd He].
      assert (Hi : i ∈ ex) by (apply He; eauto).
      destruct (splice_indexOf_spec i ex Hnd Hi) as (_ & _ & Hlen').
      unfold Runner.bounded in *. unfold_state.
      destruct p; simpl in *; try lia.
    + unfold Runner.bounded in *. simpl in *. destruct p as [k'| | |]; simpl; try done.
      destruct (bool_decide (k = k')) eqn:Hk; unfold_state.
      * apply bool_decide_eq_true in Hk as <-. apply Hb. by left.
      * destruct Hb as [? Hb]. split; [done|]. intros Hin. apply Hb. by right.
    + pose proof (looping_JResume _ _ _ _ _ _ _ _ Hinv) as Hloop.
      destruct Hinv as [Hc Hf].
      pose proof (core_sound _ _ _ Hc JResume ltac:(by left)) as Hp.
      unfold Runner.expected in Hp. simpl in Hp. subst p.
      apply bounded_loop; try done.
    + destruct Hinv as [Hc Hf].
      destruct (expected_head _ _ _ i Hc eq_refl eq_refl) as (x & t & Hx & Ht & Hp & Hv).
      pose proof (values_empty_AwaitAll _ i Hf Hv) as Hpc. simpl in Hpc.
      destruct (collect _); unfold_state.
      * eapply bounded_task_step; [done|done|right; eauto].
      * eapply bounded_task_step; [done|done|by left].
  - intros (t & k & Hq & Ht & Hfp & Hs')%deliver_Some.
    destruct s as [u q ix p ex ts rs vs]. simpl in *. subst q.
    destruct (resume k e u) as [u' o]. subst s'.
    unfold Runner.bounded in *. simpl in *. destruct p; try done.
    destruct Hb as [? Hb]. split; [done|]. intros Hin.
    destruct o, (adopted t); set_solver.
Qed.

Lemma reachable_bounded z (u : U) (s : state) :
  limit = Int z → (1 ≤ z)%Z → reachable u s → bounded (Z.to_nat z) s.
Proof.
  intros Hlim Hz [ls Hls].
  assert (Hgen : ∀ s0, inv s0 → bounded (Z.to_nat z) s0 → steps ls s0 = Some s →
                       bounded (Z.to_nat z) s).
  { clear Hls. induction ls as [|l ls IH]; intros s0 Hinv Hb; simpl; [by intros [= <-]|].
    destruct (step l s0) as [s1|] eqn:Hs; [|done].
    apply IH; eauto using inv_step, bounded_step. }
  eapply Hgen; [apply inv_init|by apply bounded_init|done].
Qed.


Lemma length_filter_indices (P : task → Prop) `{∀ t, Decision (P t)} k ts (ex : list nat) :
  NoDup ex → (∀ i t, ts !! i = Some t → P t → k + i ∈ ex) →
  length (filter P ts) ≤ length ex.
Proof.
  revert k ex. induction ts as [|t ts IH]; intros k ex Hnd Hin; simpl; [lia|].
  rewrite filter_cons. destruct (decide (P t)) as [Hp|Hp].
  - assert (Hk : k ∈ ex). { rewrite <- (Nat.add_0_r k). by apply (Hin 0 t). }
    apply elem_of_Permutation in Hk as [ex' Hex].
    rewrite Hex in Hnd. apply list.NoDup_cons in Hnd as [Hk Hnd].
    rewrite Hex. simpl. apply le_n_S. apply (IH (S k)); [done|].
    intros i t' Ht' Hp'. pose proof (Hin (S i) t' Ht' Hp') as Hin'.
    rewrite Hex in Hin'. apply elem_of_cons in Hin' as [?|Hin']; [lia|].
    by replace (S k + i) with (k + S i) by lia.
  - apply (IH (S k)); [done|]. intros i t' Ht' Hp'.
    replace (S k + i) with (k + S i) by lia. by apply (Hin (S i) t').
Qed.

Lemma in_flight_unsettled (t : task) :
  task_wf t → in_flight t = true → executeSettled t = false.
Proof.
  unfold Runner.in_flight. intros (_ & _ & Hw3 & Hw4) Hf.
  destruct (executeSettled t); [|done]. destruct Hw4 as [Hp _]; [done|].
  destruct (promise t) as [r|]; [|done]. rewrite (Hw3 r) in Hf; done.
Qed.

Lemma count_in_flight_executing (s : state) :
  inv s → gate = true → count_in_flight s ≤ length (executing s).
Proof.
  intros [Hc _] Hg. pose proof (core_exec _ _ _ Hc) as He.
  unfold Runner.executing_ok in He. rewrite Hg in He. destruct He as [Hnd He].
  apply (length_filter_indices _ 0); [done|]. intros i t Ht Hf. apply He.
  exists t. split; [done|]. apply in_flight_unsettled; [|done].
  by apply (core_wf _ _ _ Hc i).
Qed.

Lemma count_in_flight_results (s : state) : count_in_flight s ≤ length (results s).
Proof. apply length_filter. Qed.


(** *** Quiescence *)

(** When nothing is queued, an entry of [results] whose task is not in
    flight has gone through all its stages. *)
Lemma settled_task (s : state) i t :
  inv s → queue s = [] → results s !! i = Some t → in_flight t = false →
  ∃ r, fnPromise t = Fulfilled r ∧ promise t = Some r ∧
       (gate = true → executeSettled t = true) ∧ values s !! i ≠ Some None.
Proof.
  intros [Hc Hf] Hq Ht Hfl.
  assert (Hx : ∃ x, items !! i = Some x).
  { apply lookup_lt_is_Some. apply lookup_lt_Some in Ht.
    pose proof (core_len _ _ _ Hc). lia. }
  destruct Hx as [x Hx].
  assert (Hno : ∀ j, job_index j = Some i → ¬ wanted x t (values s !! i) j).
  { intros j Hj Hw. assert (j ∈ queue s) as Hin; [|by rewrite Hq in Hin; apply elem_of_nil in Hin].
    apply (core_live _ _ _ Hc); [by eexists|]. rewrite expected_task by done. eauto. }
  pose proof (Hno (JCall x i) eq_refl) as H1.
  pose proof (Hno (JAdopt i) eq_refl) as H2.
  pose proof (Hno (JSplice i) eq_refl) as H4.
  pose proof (core_wf _ _ _ Hc _ _ Ht) as (Hw1 & Hw2 & Hw3 & Hw4).
  unfold Runner.in_flight in Hfl. simpl in *.
  destruct (fnPromise t) as [|k|r] eqn:Hfp; [tauto|done|].
  pose proof (Hno (JSettle i r) eq_refl) as H3.
  pose proof (Hno (JElement i r) eq_refl) as H5. simpl in *.
  exists r. destruct (adopted t); [|tauto].
  destruct (promise t) as [r'|] eqn:Hp; [|tauto].
  assert (r' = r) as -> by (specialize (Hw3 r' eq_refl); congruence).
  split_and!; try done.
  - intros Hg. destruct (executeSettled t); [done|]. destruct H4. by split_and!.
  - intros Hv. by apply H5.
Qed.

Lemma quiescent_resolved (s : state) :
  inv s → quiescent s →
  ∃ rs, pc s = Resolved rs ∧ length rs = length items ∧
        ∀ i, i < length items →
             ∃ t r, results s !! i = Some t ∧ fnPromise t = Fulfilled r ∧ rs !! i = Some r.
Proof.
  intros Hinv [Hq Hfl]. pose proof Hinv as [Hc Hf].
  assert (Hdone : ∀ i t, results s !! i = Some t →
            ∃ r, fnPromise t = Fulfilled r ∧ promise t = Some r ∧
                 (gate = true → executeSettled t = true) ∧ values s !! i ≠ Some None).
  { intros i t Ht. apply settled_task; try done. apply Hfl. by eapply list_elem_of_lookup_2. }
  unfold Runner.framed in Hf. destruct (pc s) as [k| | |rs] eqn:Hpc.
  - destruct Hf as (_ & _ & _ & _ & [Hin|[Hk Hex]]).
    { rewrite Hq in Hin. by apply elem_of_nil in Hin. }
    pose proof (core_exec _ _ _ Hc) as He. unfold Runner.executing_ok in He.
    destruct gate eqn:Hg; [|done]. destruct He as [_ He].
    destruct (executing s) as [|i ex] eqn:Hexs; [done|].
    destruct (proj1 (He i) ltac:(by left)) as (t & Ht & Hes).
    destruct (Hdone i t Ht) as (r & _ & _ & Hset & _). rewrite Hset in Hes; done.
  - destruct Hf as (_ & _ & _ & Hin). rewrite Hq in Hin. by apply elem_of_nil in Hin.
  - destruct Hf as (Hl1 & Hl2 & _ & Hcol).
    apply collect_None_lookup in Hcol as [i Hi].
    destruct (lookup_lt_is_Some_2 (results s) i) as [t Ht].
    { apply lookup_lt_Some in Hi. lia. }
    destruct (Hdone i t Ht) as (r & _ & _ & _ & Hv). done.
  - destruct Hf as (Hl1 & Hl2 & _ & Hcol). exists rs. split_and!; [done| |].
    { apply collect_Some_length in Hcol. lia. }
    intros i Hi. destruct (collect_Some_lookup _ _ i Hcol ltac:(lia)) as (r & Hr & Hrs).
    apply (core_values _ _ _ Hc) in Hr as (t & Ht & Hp).
    destruct (Hdone i t Ht) as (r' & Hfp & Hp' & _). exists t, r.
    split_and!; try done. congruence.
Qed.

(** Once [Promise.all] is fulfilled no task is in flight and no task is
    left to call. *)
Lemma resolved_all_fulfilled (s : state) rs i t :
  inv s → pc s = Resolved rs → results s !! i = Some t →
  ∃ r, fnPromise t = Fulfilled r ∧ rs !! i = Some r.
Proof.
  intros [Hc Hf] Hpc Ht. unfold Runner.framed in Hf. rewrite Hpc in Hf.
  destruct Hf as (Hl1 & Hl2 & _ & Hcol).
  destruct (collect_Some_lookup _ _ i Hcol) as (r & Hr & Hrs).
  { apply lookup_lt_Some in Ht. lia. }
  apply (core_values _ _ _ Hc) in Hr as (t' & Ht' & Hp). exists r. split; [|done].
  assert (t' = t) as -> by congruence.
  by apply (core_wf _ _ _ Hc _ _ Ht).
Qed.


(** *** The microtask queue runs dry *)

Lemma sum_insert (ts : list task) i t t' :
  ts !! i = Some t →
  sum_list_with weight (<[i:=t']> ts) + weight t =
  sum_list_with weight ts + weight t'.
Proof.
  revert i. induction ts as [|t0 ts IH]; intros [|i] Hi; simpl in *; try done.
  - injection Hi as ->. lia.
  - specialize (IH i Hi). lia.
Qed.

Lemma length_race_reactions i k (rs : list (list nat)) :
  length (race_reactions i k rs : list job) ≤ length rs.
Proof.
  revert k. induction rs as [|m rs IH]; intros k; simpl; [done|].
  destruct (bool_decide (i ∈ m)); simpl; specialize (IH (S k)); lia.
Qed.

Lemma length_ready_elements k (ts : list task) :
  length (ready_elements k ts : list job) ≤ length ts.
Proof.
  revert k. induction ts as [|t ts IH]; intros k; simpl; [done|].
  destruct (promise t); simpl; specialize (IH (S k)); lia.
Qed.

Lemma framed_races (s : state) : inv s → length (races s) ≤ length items.
Proof.
  intros [Hc Hf]. pose proof (core_len _ _ _ Hc). unfold Runner.framed in Hf.
  destruct (pc s); destruct Hf as (? & ? & ? & ?); lia.
Qed.

Lemma potential_promise_all (s : state) :
  potential (promise_all s) =
  length (queue s) + length (ready_elements 0 (results s) : list job) +
  sum_list_with weight (results s).
Proof.
  destruct s as [u q i p ex ts rs vs].
  unfold Runner.promise_all. simpl results.
  destruct ts as [|t ts].
  - unfold Runner.potential, Runner.frame_weight. unfold_state. rewrite length_app.
    simpl. lia.
  - unfold Runner.potential, Runner.frame_weight.
    unfold Runner.set_pc, Runner.enqueue, Runner.set_values. cbn [queue results pc].
    rewrite length_app. lia.
Qed.

Lemma potential_loop rest (s : state) :
  looping rest s →
  potential (loop rest s) ≤
  length (queue s) + sum_list_with weight (results s) +
  loop_weight (length items) (length rest).
Proof.
  revert s. induction rest as [|x rest IH]; intros s (Hc & Hd & Hts & Hvs & Hrs & Hres).
  - pose proof (core_len _ _ _ Hc) as Hlen. simpl.
    rewrite potential_promise_all. pose proof (length_ready_elements 0 (results s)).
    unfold Runner.loop_weight. lia.
  - pose proof Hd as Hlen. apply (f_equal length) in Hlen.
    rewrite length_drop in Hlen. simpl in Hlen.
    apply drop_cons_inv in Hd as [Hx Hd].
    destruct s as [u q i p ex ts rs vs]. simpl in *. subst vs.
    pose proof (core_create _ _ _ _ _ _ _ _ Hc Hts Hx) as Hc'.
    assert (Hsum : sum_list_with weight (ts ++ [new_task]) =
                   sum_list_with weight ts + (length items + 5)).
    { rewrite sum_list_with_app. simpl. unfold Runner.task_weight. simpl. lia. }
    assert (Hloop : ∀ ex', looping rest (State u (q ++ [JCall x i]) (S i) p ex'
                                           (ts ++ [new_task]) rs [])
                  → potential (loop rest (State u (q ++ [JCall x i]) (S i) p ex'
                                           (ts ++ [new_task]) rs []))
                    ≤ length q + sum_list_with weight ts +
                      loop_weight (length items) (S (length rest))).
    { intros ex' Hl. etrans; [by apply IH|]. simpl. rewrite length_app, Hsum.
      unfold Runner.loop_weight. simpl. lia. }
    unfold_state. destruct gate eqn:Hg.
    + destruct (js_ge _ limit) eqn:Hge.
      * rewrite await_race_eq by done. unfold Runner.potential, Runner.frame_weight.
        simpl. rewrite length_app, Hsum. unfold Runner.loop_weight. simpl.
        replace (length items - S i) with (length rest) by lia. lia.
      * apply Hloop. split_and!; simpl; try done.
        -- by apply (core_index _ (S i)) in Hc'.
        -- rewrite length_app. simpl. lia.
        -- lia.
        -- intros [?|[=]%list_elem_of_singleton]%elem_of_app. done.
    + apply Hloop. split_and!; simpl; try done.
      * by apply (core_index _ (S i)) in Hc'.
      * rewrite length_app. simpl. lia.
      * lia.
      * intros [?|[=]%list_elem_of_singleton]%elem_of_app. done.
Qed.

Lemma potential_init (u : U) :
  potential (runWithConcurrencyLimit items limit u) ≤
  loop_weight (length items) (length items).
Proof.
  etrans; [apply potential_loop|simpl; lia].
  split_and!; simpl; try done.
  - split; simpl; try done.
    + by intros j ?%elem_of_nil.
    + intros j [i Hi] Hj. apply (expected_task _ _ _ Hi) in Hj as (x & t & _ & Ht & _).
      simpl in Ht. by rewrite lookup_nil in Ht.
    + constructor.
    + unfold Runner.executing_ok. simpl. destruct gate; [|done].
      split; [constructor|]. intros i. rewrite elem_of_nil. naive_solver.
    + lia.
  - by intros ?%elem_of_nil.
Qed.


Ltac weigh t :=
  unfold Runner.potential, Runner.frame_weight, Runner.task_weight in *;
  destruct t as [[] [] [] []]; unfold_task; simplify_eq/=; rewrite ?length_app; simpl;
  try lia.

Lemma potential_tick (s s' : state) :
  inv s → step Tick s = Some s' → potential s' < potential s.
Proof.
  intros Hinv. pose proof (framed_races _ Hinv) as Hraces. simpl.
  destruct s as [u [|j q] ix p ex ts rs vs]; simpl; [done|]. intros [= <-].
  destruct j.
  - destruct Hinv as [Hc Hf].
    destruct (expected_head _ _ _ i Hc eq_refl eq_refl) as (x' & t & Hx & Ht & -> & Hfp).
    simpl in Ht, Hfp. simpl. destruct (fn x' i u) as [u' o]. unfold_state.
    rewrite (alter_insert _ _ _ _ Ht).
    pose proof (sum_insert ts i t (set_fnPromise (reaction_of o) t) Ht) as Hsum.
    destruct o; weigh t.
  - destruct Hinv as [Hc Hf].
    destruct (expected_head _ _ _ i Hc eq_refl eq_refl) as (x & t & Hx & Ht & Hfp & Ha).
    simpl in Ht, Hfp, Ha. simpl. rewrite Ht. simpl. unfold_state.
    rewrite (alter_insert _ _ _ _ Ht).
    pose proof (sum_insert ts i t (set_adopted t) Ht) as Hsum.
    weigh t.
  - destruct Hinv as [Hc Hf].
    destruct (expected_head _ _ _ i Hc eq_refl eq_refl)
      as (x & t & Hx & Ht & Hfp & Ha & Hp).
    simpl in Ht, Hfp, Ha, Hp. simpl. unfold_state.
    rewrite (alter_insert _ _ _ _ Ht).
    pose proof (sum_insert ts i t (set_promise r t) Ht) as Hsum.
    destruct gate, p; weigh t.
  - destruct Hinv as [Hc Hf].
    destruct (expected_head _ _ _ i Hc eq_refl eq_refl)
      as (x & t & Hx & Ht & Hg & Hp & Hes).
    simpl in Ht, Hg, Hp, Hes. simpl. unfold_state.
    rewrite (alter_insert _ _ _ _ Ht).
    pose proof (sum_insert ts i t (set_executeSettled t) Ht) as Hsum.
    pose proof (length_race_reactions i 0 rs : _ ≤ length rs) as Hrr.
    weigh t.
  - simpl. unfold Runner.potential, Runner.frame_weight.
    destruct p as [k'| | |]; simpl; try lia.
    destruct (bool_decide (k = k')); unfold_state; rewrite ?length_app; simpl; lia.
  - pose proof (looping_JResume _ _ _ _ _ _ _ _ Hinv) as Hloop.
    destruct Hinv as [Hc Hf].
    pose proof (core_sound _ _ _ Hc JResume ltac:(by left)) as Hp.
    unfold Runner.expected in Hp. simpl in Hp. subst p. simpl.
    eapply Nat.le_lt_trans; [by apply potential_loop|].
    unfold Runner.potential, Runner.frame_weight. simpl. rewrite length_drop. lia.
  - destruct Hinv as [Hc Hf].
    destruct (expected_head _ _ _ i Hc eq_refl eq_refl) as (x & t & Hx & Ht & Hp & Hv).
    pose proof (values_empty_AwaitAll _ i Hf Hv) as Hpc. simpl in Hpc. subst p.
    simpl. unfold Runner.potential, Runner.frame_weight.
    destruct (collect _); unfold_state; lia.
Qed.

Lemma potential_deliver (s s' : state) i e :
  inv s → deliver i e s = Some s' → potential s' ≤ potential s.
Proof.
  intros Hinv (t & k & Hq & Ht & Hfp & Hs')%deliver_Some.
  destruct s as [u q ix p ex ts rs vs]. simpl in *. subst q.
  destruct (resume k e u) as [u' o]. subst s'.
  pose proof (sum_insert ts i t (set_fnPromise (reaction_of o) t) Ht) as Hsum.
  destruct o; weigh t.
Qed.

Lemma potential_steps (ls : list label) (s s' : state) :
  inv s → steps ls s = Some s' → ticks ls + potential s' ≤ potential s.
Proof.
  revert s. induction ls as [|l ls IH]; intros s Hinv; simpl; [intros [= <-]; lia|].
  destruct (step l s) as [s1|] eqn:Hs; [|done]. intros Hls.
  pose proof (inv_step _ _ _ Hinv Hs) as Hinv1. specialize (IH _ Hinv1 Hls).
  destruct l as [|i e].
  - pose proof (potential_tick _ _ Hinv Hs). lia.
  - pose proof (potential_deliver _ _ _ _ Hinv Hs). lia.
Qed.


(** *** What a step does to the closure *)

(** Only two kinds of steps touch the variables of the closure: the call of
    [fn] and the resumption of its frame.  Every other step leaves them
    alone and at most admits new tasks. *)
Inductive effect (l : label) (s s' : state) : Prop :=
| Silent (n : nat) :
    user s' = user s → phases s' = phases s ++ replicate n NotCalled →
    (∀ e i, l ≠ Deliver i e) →
    (∀ x i q, queue s ≠ JCall x i :: q) →
    effect l s s'
| Called (x : T) (i : nat) (o : outcome K R) (q : list job) :
    l = Tick → queue s = JCall x i :: q →
    phases s !! i = Some NotCalled → items !! i = Some x →
    fn x i (user s) = (user s', o) →
    phases s' = <[i := reaction_of o]> (phases s) →
    effect l s s'
| Resumed (i : nat) (k : K) (e : E) (o : outcome K R) :
    l = Deliver i e → queue s = [] →
    phases s !! i = Some (Pending k) →
    resume k e (user s) = (user s', o) →
    phases s' = <[i := reaction_of o]> (phases s) →
    effect l s s'.

Lemma phases_alter (f : task → task) i (ts : list task) :
  (∀ t, fnPromise (f t) = fnPromise t) →
  fnPromise <$> alter f i ts = fnPromise <$> ts.
Proof.
  intros Hf. apply list_eq. intros j. rewrite !list_lookup_fmap, list_lookup_alter.
  destruct (decide (i = j)) as [->|]; [|done].
  destruct (ts !! j); simpl; [by rewrite Hf|done].
Qed.

Lemma phases_loop rest (s : state) :
  user (loop rest s) = user s ∧
  ∃ n, phases (loop rest s) = phases s ++ replicate n NotCalled.
Proof.
  revert s. induction rest as [|x rest IH]; intros s.
  - simpl. unfold Runner.promise_all, Runner.phases.
    destruct (results s) eqn:Hr; unfold_state; rewrite ?Hr; split; try done;
      exists 0; simpl; by rewrite ?app_nil_r.
  - assert (Hnext : ∀ s1 : state,
              user s1 = user s → results s1 = results s ++ [new_task] →
              user (loop rest s1) = user s ∧
              ∃ n, phases (loop rest s1) = phases s ++ replicate n NotCalled).
    { intros s1 Hu Hr. destruct (IH s1) as (-> & n & ->). split; [done|].
      exists (S n). unfold Runner.phases. rewrite Hr, fmap_app. simpl.
      by rewrite <- app_assoc. }
    simpl. destruct gate.
    + destruct (js_ge _ limit).
      * unfold Runner.await_race, Runner.phases. unfold_state. split; [done|].
        exists 1. by rewrite fmap_app.
      * by apply Hnext.
    + by apply Hnext.
Qed.

Lemma step_effect (l : label) (s s' : state) :
  inv s → step l s = Some s' → effect l s s'.
Proof.
  intros Hinv. destruct l as [|i e]; simpl.
  - destruct s as [u [|j q] ix p ex ts rs vs]; simpl; [done|]. intros [= <-].
    destruct j.
    + destruct Hinv as [Hc Hf].
      destruct (expected_head _ _ _ i Hc eq_refl eq_refl) as (x' & t & Hx & Ht & -> & Hfp).
      simpl in Hx, Ht, Hfp. simpl. destruct (fn x' i u) as [u' o] eqn:Hfn.
      apply (Called _ _ _ x' i o q); simpl; try done.
      * unfold Runner.phases. simpl. by rewrite list_lookup_fmap, Ht, <- Hfp.
      * unfold Runner.phases. unfold_state. rewrite (alter_insert _ _ _ _ Ht).
        by rewrite list_fmap_insert.
    + apply (Silent _ _ _ 0); simpl; try done; rewrite ?app_nil_r;
        destruct (fnPromise <$> ts !! i) as [[]|]; unfold Runner.phases; unfold_state;
        try done; by apply phases_alter.
    + apply (Silent _ _ _ 0); simpl; try done; rewrite ?app_nil_r;
        unfold Runner.phases; unfold_state; try done; by apply phases_alter.
    + apply (Silent _ _ _ 0); simpl; try done; rewrite ?app_nil_r;
        unfold Runner.phases; unfold_state; try done; by apply phases_alter.
    + apply (Silent _ _ _ 0); simpl; try done.
      * destruct p as [k'| | |]; try done. by destruct (bool_decide (k = k')).
      * rewrite app_nil_r.
        destruct p as [k'| | |]; try done. by destruct (bool_decide (k = k')).
    + simpl.
      destruct (phases_loop (drop (S ix) items) (State u q (S ix) p ex ts rs vs))
        as (Hu & n & Hn).
      by apply (Silent _ _ _ n).
    + apply (Silent _ _ _ 0); simpl; try done.
      * by destruct (collect _).
      * rewrite app_nil_r. by destruct (collect _).
  - intros (t & k & Hq & Ht & Hfp & Hs')%deliver_Some.
    destruct s as [u q ix p ex ts rs vs]. simpl in *. subst q.
    destruct (resume k e u) as [u' o] eqn:Hres. subst s'.
    apply (Resumed _ _ _ i k e o); simpl; try done.
    + unfold Runner.phases. simpl. by rewrite list_lookup_fmap, Ht, <- Hfp.
    + unfold Runner.phases. simpl. by rewrite list_fmap_insert.
Qed.

(** A task is admitted only when the frame of the runner resumes. *)
Lemma step_admits (l : label) (s s' : state) :
  inv s → step l s = Some s' → length (results s') ≠ length (results s) →
  JResume ∈ queue s.
Proof.
  intros Hinv Hs Hlen. destruct l as [|i e]; simpl in Hs.
  - destruct s as [u [|j q] ix p ex ts rs vs]; simpl in *; [done|].
    injection Hs as <-. destruct j; try (by left); exfalso; apply Hlen; simpl.
    + destruct (fn item i u). unfold_state. by rewrite length_alter.
    + destruct (fnPromise <$> ts !! i) as [[]|]; unfold_state; by rewrite length_alter.
    + unfold_state. by rewrite length_alter.
    + unfold_state. by rewrite length_alter.
    + destruct p as [k'| | |]; try done. by destruct (bool_decide (k = k')).
    + by destruct (collect _).
  - apply deliver_Some in Hs as (t & k & Hq & Ht & Hfp & Hs').
    destruct (resume k e (user s)). subst s'. simpl in Hlen.
    by rewrite length_insert in Hlen.
Qed.


(** *** The gate that is skipped *)

Fixpoint calls (i : nat) (rest : list T) : list job :=
  match rest with
  | [] => []
  | x :: rest' => JCall x i :: calls (S i) rest'
  end.

Lemma calls_imap i (rest : list T) : calls i rest = imap (λ j x, JCall x (i + j)) rest.
Proof.
  revert i. induction rest as [|x rest IH]; intros i; simpl; [done|].
  rewrite Nat.add_0_r. f_equal. rewrite IH. apply imap_ext. intros j y _. simpl.
  f_equal. lia.
Qed.

Lemma loop_ungated rest (u : U) q i p ex ts rs vs :
  gate = false →
  loop rest (State u q i p ex ts rs vs) =
  promise_all (State u (q ++ calls i rest) (i + length rest) p ex
                     (ts ++ replicate (length rest) new_task) rs vs).
Proof.
  intros Hg. revert q i ts. induction rest as [|x rest IH]; intros q i ts; simpl.
  - by rewrite !app_nil_r, Nat.add_0_r.
  - rewrite Hg. unfold_state. rewrite IH. rewrite <- !app_assoc. simpl.
    by replace (i + S (length rest)) with (S (i + length rest)) by lia.
Qed.

Lemma ready_elements_new k n : ready_elements k (replicate n new_task) = ([] : list job).
Proof. revert k. induction n as [|n IH]; intros k; simpl; [done|]. apply IH. Qed.


(** ** The runner: what the runs satisfy *)

Lemma gate_false_small z : limit = Int z → gate = false → (Z.of_nat (length items) < z)%Z.
Proof.
  unfold Runner.gate, js_le, js_length. intros ->. intros Hg%Z.leb_gt. done.
Qed.

Lemma count_in_flight_lt z (s : state) :
  limit = Int z → (1 ≤ z)%Z → inv s → bounded (Z.to_nat z) s →
  count_in_flight s ≤ Z.to_nat z ∧
  (length (executing s) < Z.to_nat z ∨ gate = false → count_in_flight s < Z.to_nat z).
Proof.
  intros Hlim Hz Hinv Hb. destruct gate eqn:Hg.
  - pose proof (count_in_flight_executing _ Hinv Hg) as Hc.
    assert (length (executing s) ≤ Z.to_nat z).
    { unfold Runner.bounded in Hb. destruct (pc s); lia. }
    split; [lia|]. intros [?|?]; [lia|done].
  - pose proof (gate_false_small _ Hlim Hg). pose proof (count_in_flight_results s).
    destruct Hinv as [Hc _]. pose proof (core_len _ _ _ Hc). split; [lia|]. lia.
Qed.

(** C1.  With a limit L of at least one, no state of a run has more than L
    tasks in flight.  When L tasks are in flight the runner is suspended at
    [await Promise.race(executing)], the race is pending and nothing queued can
    resume it; a step admits a task only from a state with fewer than L tasks
    in flight. *)
Theorem bounded_concurrency (z : Z) (u : U) (ls : list label) (s : state) :
  limit = Int z → (1 ≤ z)%Z →
  steps ls (runWithConcurrencyLimit items limit u) = Some s →
  count_in_flight s ≤ Z.to_nat z ∧
  (count_in_flight s = Z.to_nat z →
   ∃ k, pc s = AwaitRace k ∧ (JRace k ∉ queue s) ∧ (JResume ∉ queue s)) ∧
  (∀ l s', step l s = Some s' → length (results s) < length (results s') →
           count_in_flight s < Z.to_nat z).
Proof.
  intros Hlim Hz Hls.
  assert (Hr : reachable u s) by by exists ls.
  pose proof (reachable_inv _ _ Hr) as Hinv.
  pose proof (reachable_bounded _ _ _ Hlim Hz Hr) as Hb.
  destruct (count_in_flight_lt _ _ Hlim Hz Hinv Hb) as [Hle Hlt].
  assert (Hres : JResume ∈ queue s → length (executing s) < Z.to_nat z).
  { intros Hin. destruct Hinv as [Hc _]. apply (core_sound _ _ _ Hc) in Hin.
    unfold Runner.expected in Hin. simpl in Hin. unfold Runner.bounded in Hb.
    by rewrite Hin in Hb. }
  split_and!; [done| |].
  - intros Heq. unfold Runner.bounded in Hb.
    destruct (pc s) as [k| | |] eqn:Hpc; try (specialize (Hlt (or_introl Hb)); lia).
    destruct Hb as [Hb1 Hb2]. exists k. split_and!; [done| |].
    + intros Hin. specialize (Hlt (or_introl (Hb2 Hin))). lia.
    + intros Hin. specialize (Hlt (or_introl (Hres Hin))). lia.
  - intros l s' Hs Hlen. apply Hlt. left. apply Hres.
    apply (step_admits l s s'); [done..|lia].
Qed.

(** C5.  Whatever the limit and whatever values the tasks return, the jobs
    of the microtask queue are at most [n * (n + 7) + n] in any run over [n]
    items; a queued job can always run and a task in flight can always be
    completed, so no task is cancelled; and when nothing is left to happen
    the runner is resolved with one result per item, in the order of the
    items, each the value its task returned.  On no items the call itself
    resolves to the empty array, with nothing queued and the closure
    untouched. *)
Theorem runner_resolves (u : U) (ls : list label) (s : state) :
  steps ls (runWithConcurrencyLimit items limit u) = Some s →
  ticks ls ≤ loop_weight (length items) (length items) ∧
  (queue s ≠ [] → is_Some (step Tick s)) ∧
  (∀ i t k e, queue s = [] → results s !! i = Some t → fnPromise t = Pending k →
              is_Some (step (Deliver i e) s)) ∧
  (quiescent s →
   ∃ rs, pc s = Resolved rs ∧ length rs = length items ∧
         ∀ i, i < length items →
              ∃ t r, results s !! i = Some t ∧ fnPromise t = Fulfilled r ∧
                     rs !! i = Some r) ∧
  (items = [] → runWithConcurrencyLimit items limit u = State u [] 0 (Resolved []) [] [] [] []).
Proof.
  intros Hls.
  assert (Hr : reachable u s) by by exists ls.
  pose proof (reachable_inv _ _ Hr) as Hinv.
  split_and!.
  - pose proof (potential_steps _ _ _ (inv_init u) Hls).
    pose proof (potential_init u). lia.
  - intros Hq. simpl. destruct (queue s); [done|]. by eexists.
  - intros i t k e Hq Ht Hfp. simpl. unfold Runner.deliver. rewrite Hq, Ht, Hfp.
    destruct (resume k e (user s)). by eexists.
  - by apply quiescent_resolved.
  - intros ->. done.
Qed.

(** *** The runs come to an end *)

Section Liveness.
Context (awaits : K → nat) (M : nat).
Hypothesis fn_awaits : ∀ x i v v' k, fn x i v = (v', Await k) → awaits k < M.
Hypothesis resume_awaits : ∀ k e v v' k', resume k e v = (v', Await k') → awaits k' < awaits k.

Lemma sum_list_with_insert {A} (f : A → nat) (l : list A) i x y :
  l !! i = Some x →
  sum_list_with f (<[i:=y]> l) + f x = sum_list_with f l + f y.
Proof.
  revert i. induction l as [|a l IH]; intros [|i] Hi; simpl in *; try done.
  - injection Hi as ->. lia.
  - specialize (IH i Hi). lia.
Qed.

Lemma sum_list_with_replicate {A} (f : A → nat) n x :
  sum_list_with f (replicate n x) = n * f x.
Proof. induction n as [|n IH]; simpl; [done|]. lia. Qed.

Lemma length_phases (s : state) : length (phases s) = length (results s).
Proof. unfold Runner.phases. by rewrite length_fmap. Qed.

(** Every step takes one from what is left. *)
Lemma steps_left_step (l : label) (s s' : state) :
  inv s → step l s = Some s' → steps_left awaits M s' < steps_left awaits M s.
Proof.
  intros Hinv Hs. pose proof (inv_step _ _ _ Hinv Hs) as [Hc' _].
  pose proof (core_len _ _ _ Hc') as Hlen'.
  assert (Hpot : potential s' ≤ potential s ∧ (l = Tick → potential s' < potential s)).
  { destruct l as [|i e].
    - pose proof (potential_tick _ _ Hinv Hs). split; [lia|done].
    - pose proof (potential_deliver _ _ _ _ Hinv Hs). split; [lia|done]. }
  destruct Hpot as [Hle Hlt]. unfold steps_left.
  destruct (step_effect _ _ _ Hinv Hs)
    as [n Hu Hp Hl Hcall|x i o q Hl Hq Hi Hx Hfn Hp|i k e o Hl Hq Hi Hres Hp].
  - assert (l = Tick) as Htick by (destruct l; [done|by destruct (Hl e i)]).
    specialize (Hlt Htick).
    pose proof (length_phases s) as H1. pose proof (length_phases s') as H2.
    rewrite Hp, length_app, length_replicate in H2.
    rewrite Hp, sum_list_with_app, sum_list_with_replicate. simpl.
    replace (length items - length (results s)) with (n + (length items - length (results s'))) by lia.
    lia.
  - specialize (Hlt Hl).
    pose proof (length_phases s) as H1. pose proof (length_phases s') as H2.
    rewrite Hp, length_insert in H2.
    pose proof (sum_list_with_insert (await_weight awaits M) _ _ _ (reaction_of o) Hi) as Hsum.
    rewrite Hp. simpl in Hsum.
    assert (await_weight awaits M (reaction_of o) ≤ M).
    { destruct o as [k|r]; simpl; [|lia]. pose proof (fn_awaits _ _ _ _ _ Hfn). lia. }
    replace (length (results s')) with (length (results s)) by lia. lia.
  - pose proof (length_phases s) as H1. pose proof (length_phases s') as H2.
    rewrite Hp, length_insert in H2.
    pose proof (sum_list_with_insert (await_weight awaits M) _ _ _ (reaction_of o) Hi) as Hsum.
    rewrite Hp. simpl in Hsum.
    assert (await_weight awaits M (reaction_of o) < S (awaits k)).
    { destruct o as [k'|r]; simpl; [|lia]. pose proof (resume_awaits _ _ _ _ _ Hres). lia. }
    replace (length (results s')) with (length (results s)) by lia. lia.
Qed.

Lemma steps_left_steps (ls : list label) (s s' : state) :
  inv s → steps ls s = Some s' → length ls + steps_left awaits M s' ≤ steps_left awaits M s.
Proof.
  revert s. induction ls as [|l ls IH]; intros s Hinv; simpl; [intros [= <-]; lia|].
  destruct (step l s) as [s1|] eqn:Hs; [|done]. intros Hls.
  pose proof (inv_step _ _ _ Hinv Hs) as Hinv1. specialize (IH _ Hinv1 Hls).
  pose proof (steps_left_step _ _ _ Hinv Hs). lia.
Qed.

Lemma steps_left_init (u : U) :
  steps_left awaits M (runWithConcurrencyLimit items limit u) ≤
  loop_weight (length items) (length items) + length items * M.
Proof.
  pose proof (potential_init u) as Hpot.
  pose proof (inv_init u) as [Hc _].
  pose proof (core_len _ _ _ Hc) as Hlen.
  unfold Runner.steps_left. unfold Runner.runWithConcurrencyLimit in *.
  set (s0 := State u [] 0 Resuming [] [] [] []) in *.
  destruct (phases_loop items s0) as (_ & n & Hn). simpl in Hn.
  pose proof (length_phases (loop items s0)) as H1. rewrite Hn, length_replicate in H1.
  rewrite Hn, sum_list_with_replicate. simpl.
  assert ((length items - length (results (loop items s0))) * M + n * M ≤ length items * M);
    [|lia].
  rewrite <- H1. rewrite <- Nat.mul_add_distr_r. apply Nat.mul_le_mono_r. lia.
Qed.

(** A state in which the runner is not resolved has a step to take: a job
    of the microtask queue, or the completion of what a task waits for. *)
Lemma unresolved_progress (s : state) :
  inv s → (∀ rs, pc s ≠ Resolved rs) →
  queue s ≠ [] ∨ ∃ i t k, results s !! i = Some t ∧ fnPromise t = Pending k.
Proof.
  intros Hinv Hpc. destruct (queue s) as [|j q] eqn:Hq; [|by left]. right.
  destruct (decide (Exists (λ t : task, in_flight t = true) (results s))) as [Hex|Hno].
  - apply Exists_exists in Hex as (t & (i & Ht)%list_elem_of_lookup & Hfl).
    unfold Runner.in_flight in Hfl. destruct (fnPromise t) as [|k|] eqn:Hfp; try done.
    by exists i, t, k.
  - exfalso. destruct (quiescent_resolved s Hinv) as (rs & Hrs & _).
    + split; [done|]. intros t Ht. destruct (in_flight t) eqn:Hfl; [|done].
      exfalso. apply Hno, Exists_exists. by exists t.
    + by apply (Hpc rs).
Qed.

Lemma deliver_advances (s : state) i t k e :
  queue s = [] → results s !! i = Some t → fnPromise t = Pending k →
  ∃ s', step (Deliver i e) s = Some s' ∧
        user s' = (resume k e (user s)).1 ∧
        phases s' = <[i := reaction_of (resume k e (user s)).2]> (phases s).
Proof.
  intros Hq Ht Hfp. simpl. unfold Runner.deliver. rewrite Hq, Ht, Hfp.
  destruct (resume k e (user s)) as [u o]. eexists. split; [done|].
  unfold Runner.phases.
  destruct o as [k'|r]; [|destruct (adopted t)];
    unfold Runner.alter_task, Runner.enqueue, Runner.set_results, Runner.set_user; simpl;
    (split; [done|]); by rewrite (alter_insert _ _ _ _ Ht), list_fmap_insert.
Qed.

(** The step an unresolved state takes when the environment answers
    with [completion]. *)
Lemma unresolved_step (completion : nat → K → E) (s : state) :
  inv s → (∀ rs, pc s ≠ Resolved rs) →
  ∃ l s1, step l s = Some s1 ∧ ∀ i e, l = Deliver i e → ∃ k, e = completion i k.
Proof.
  intros Hinv Hpc. destruct (queue s) as [|j q] eqn:Hqs.
  - destruct (unresolved_progress s Hinv Hpc) as [Hq|(i & t & k & Ht & Hfp)]; [done|].
    destruct (deliver_advances s i t k (completion i k) Hqs Ht Hfp) as (s1 & Hs & _).
    exists (Deliver i (completion i k)), s1. split; [done|].
    intros i' e' [= <- <-]. by exists k.
  - exists Tick. simpl. rewrite Hqs. eexists. split; [done|]. by intros i e [=].
Qed.

(** Whatever the environment answers, the run goes on to the end. *)
Lemma run_completes (completion : nat → K → E) (n : nat) (s : state) :
  inv s → steps_left awaits M s ≤ n →
  ∃ ls s' rs, steps ls s = Some s' ∧ pc s' = Resolved rs ∧
              ∀ i e, Deliver i e ∈ ls → ∃ k, e = completion i k.
Proof.
  revert s. induction n as [|n IH]; intros s Hinv Hn.
  - assert (Hcase : (∃ rs, pc s = Resolved rs) ∨ (∀ rs, pc s ≠ Resolved rs))
      by (destruct (pc s); eauto).
    destruct Hcase as [[rs Hrs]|Hpc].
    + exists [], s, rs. split_and!; [done..|]. by intros i e ?%elem_of_nil.
    + destruct (unresolved_step completion s Hinv Hpc) as (l & s1 & Hs & _).
      pose proof (steps_left_step _ _ _ Hinv Hs). lia.
  - assert (Hcase : (∃ rs, pc s = Resolved rs) ∨ (∀ rs, pc s ≠ Resolved rs))
      by (destruct (pc s); eauto).
    destruct Hcase as [[rs Hrs]|Hpc].
    + exists [], s, rs. split_and!; [done..|]. by intros i e ?%elem_of_nil.
    + destruct (unresolved_step completion s Hinv Hpc) as (l & s1 & Hs & Hl).
      pose proof (steps_left_step _ _ _ Hinv Hs) as Hlt.
      pose proof (inv_step _ _ _ Hinv Hs) as Hinv1.
      destruct (IH s1 Hinv1 ltac:(lia)) as (ls & s' & rs & Hls & Hrs & Hd).
      exists (l :: ls), s', rs. split_and!; [by simpl; rewrite Hs|done|].
      intros i e [Heq|Hin]%elem_of_cons; [by apply Hl|by apply (Hd i e)].
Qed.

End Liveness.

(** C10.  A limit that is [NaN], the positive infinity or greater than the
    number of items skips the gate: the call queues the call of [fn] for
    every item, in order, and goes straight to [Promise.all], with
    [executing] empty and no race awaited.  A limit of zero or less keeps
    the gate and counts as reached by any number of tasks, so the call
    stops at the race after the first task.  Whatever the limit, when the
    tasks await a bounded number of operations, a run is of bounded length;
    a queued job can run; with the queue empty, the completion of what a
    task waits for resumes that task and no other; a state in which the
    runner is not resolved has such a step to take; once resolved, the
    runner holds one value per item, each the value its task returned; a
    state with no step to take is one in which the runner is resolved; and
    from every state of a run, whatever the environment answers, the run
    goes on until the runner is resolved. *)
Theorem no_limit_deadlocks (awaits : K → nat) (M : nat) (u : U) :
  (∀ x i v v' k, fn x i v = (v', Await k) → awaits k < M) →
  (∀ k e v v' k', resume k e v = (v', Await k') → awaits k' < awaits k) →
  (limit = NaN ∨ limit = Infinity ∨ (∃ z, limit = Int z ∧ (Z.of_nat (length items) < z)%Z) →
   gate = false ∧
   runWithConcurrencyLimit items limit u =
   State u (imap (λ i x, JCall x i) items) (length items)
         (match items with [] => Resolved [] | _ :: _ => AwaitAll end)
         [] (replicate (length items) new_task) []
         (replicate (length items) None)) ∧
  (limit = NegZero ∨ limit = NegInfinity ∨ (∃ z, limit = Int z ∧ (z ≤ 0)%Z) →
   gate = true ∧ (∀ ex : list nat, js_ge (js_length ex) limit = true) ∧
   ∀ x rest, items = x :: rest →
     runWithConcurrencyLimit items limit u =
     State u [JCall x 0] 0 (AwaitRace 0) [0] [new_task] [[0]] []) ∧
  (∀ ls s, steps ls (runWithConcurrencyLimit items limit u) = Some s →
     length ls ≤ loop_weight (length items) (length items) + length items * M ∧
     (queue s ≠ [] → is_Some (step Tick s)) ∧
     (∀ i t k e, queue s = [] → results s !! i = Some t → fnPromise t = Pending k →
        ∃ s', step (Deliver i e) s = Some s' ∧
              user s' = (resume k e (user s)).1 ∧
              phases s' = <[i := reaction_of (resume k e (user s)).2]> (phases s)) ∧
     ((∀ rs, pc s ≠ Resolved rs) →
      queue s ≠ [] ∨ ∃ i t k, results s !! i = Some t ∧ fnPromise t = Pending k) ∧
     (∀ rs, pc s = Resolved rs →
        length rs = length items ∧
        ∀ i, i < length items →
          ∃ t r, results s !! i = Some t ∧ fnPromise t = Fulfilled r ∧ rs !! i = Some r) ∧
     (E → (∀ l, step l s = None) → ∃ rs, pc s = Resolved rs) ∧
     (∀ completion : nat → K → E,
        ∃ ls' s' rs, steps ls' s = Some s' ∧ pc s' = Resolved rs ∧
                     ∀ i e, Deliver i e ∈ ls' → ∃ k, e = completion i k)).
Proof.
  intros Hfn Hres. split_and!.
  - intros Hlim. assert (Hg : gate = false).
    { unfold Runner.gate, js_le, js_length.
      destruct Hlim as [->|[->|(z & -> & Hz)]]; [done..|]. by apply Z.leb_gt. }
    split; [done|]. unfold Runner.runWithConcurrencyLimit.
    rewrite (loop_ungated _ _ _ _ _ _ _ _ _ Hg). simpl.
    unfold Runner.promise_all. simpl. rewrite ready_elements_new, calls_imap.
    rewrite length_replicate. destruct items; unfold_state; by rewrite ?app_nil_r.
  - intros Hlim.
    assert (Hall : ∀ n : nat, js_le limit (Int (Z.of_nat n)) = true).
    { intros n. destruct Hlim as [->|[->|(z & -> & Hz)]]; simpl; [|done|].
      - apply Z.leb_le. lia.
      - apply Z.leb_le. lia. }
    assert (Hg : gate = true) by apply Hall.
    split_and!; [done|intros ex; apply Hall|].
    intros x rest Hitems. unfold Runner.runWithConcurrencyLimit.
    set (s0 := State u [] 0 Resuming [] [] [] []).
    replace (loop items s0) with (loop (x :: rest) s0) by (by rewrite <- Hitems).
    cbn [Runner.loop]. rewrite Hg.
    assert (Hge : ∀ ex : list nat, js_ge (js_length ex) limit = true) by (intros ex; apply Hall).
    rewrite Hge. reflexivity.
  - intros ls s Hls.
    assert (Hr : reachable u s) by by exists ls.
    pose proof (reachable_inv _ _ Hr) as Hinv.
    split_and!.
    + pose proof (steps_left_steps awaits M Hfn Hres _ _ _ (inv_init u) Hls).
      pose proof (steps_left_init awaits M u). lia.
    + intros Hq. simpl. destruct (queue s); [done|]. by eexists.
    + intros i t k e. apply deliver_advances.
    + by apply unresolved_progress.
    + intros rs Hpc. pose proof Hinv as [Hc Hf]. unfold Runner.framed in Hf.
      rewrite Hpc in Hf. destruct Hf as (Hl1 & Hl2 & _ & Hcol).
      split; [apply collect_Some_length in Hcol; lia|].
      intros i Hi. destruct (lookup_lt_is_Some_2 (results s) i) as [t Ht]; [lia|].
      destruct (resolved_all_fulfilled _ _ _ _ Hinv Hpc Ht) as (r & Hfp & Hr').
      by exists t, r.
    + intros e Hstuck.
      assert (Hcase : (∃ rs, pc s = Resolved rs) ∨ (∀ rs, pc s ≠ Resolved rs))
        by (destruct (pc s); eauto).
      destruct Hcase as [Hrs|Hpc]; [done|].
      destruct (unresolved_step (λ _ _, e) s Hinv Hpc) as (l & s1 & Hs & _).
      by rewrite Hstuck in Hs.
    + intros completion.
      apply (run_completes awaits M Hfn Hres completion (steps_left awaits M s)); [done|lia].
Qed.

End RunnerFacts.

(** * The states of the tasks *)

Section PhaseFacts.
Context {T R K : Type}.
Import Runner.

#[local] Abbreviation fnstate := (@Runner.fnstate R K).
#[local] Abbreviation fulfilled_items := (@Runner.fulfilled_items T R K).
#[local] Abbreviation is_pending := (@Runner.is_pending R K).
#[local] Abbreviation is_fulfilled := (@Runner.is_fulfilled R K).

Lemma fulfilled_items_new (xs : list T) (fs : list fnstate) n :
  fulfilled_items xs (fs ++ replicate n NotCalled) = fulfilled_items xs fs.
Proof.
  revert fs n. induction xs as [|x xs IH]; intros fs n; [by destruct (fs ++ _)|].
  destruct fs as [|f fs]; simpl.
  - destruct n as [|n]; simpl; [done|]. pose proof (IH [] n) as H. simpl in H. rewrite H. by destruct xs.
  - rewrite IH. done.
Qed.

Lemma fulfilled_items_insert (xs : list T) (fs : list fnstate) i x f f' :
  xs !! i = Some x → fs !! i = Some f → is_fulfilled f = false →
  fulfilled_items xs (<[i:=f']> fs) ≡ₚ
  (if is_fulfilled f' then [x] else []) ++ fulfilled_items xs fs.
Proof.
  revert fs i. induction xs as [|x0 xs IH]; intros fs i Hx Hf Hnf; [done|].
  destruct fs as [|f0 fs]; [done|]. destruct i as [|i]; simpl in *.
  - injection Hx as ->. injection Hf as ->. destruct f, f'; simpl in *; done.
  - specialize (IH fs i Hx Hf Hnf). destruct f0; try done.
    rewrite IH. destruct (is_fulfilled f'); simpl; [|done]. apply Permutation_swap.
Qed.

Lemma fulfilled_items_all (xs : list T) (fs : list fnstate) :
  length fs = length xs → (∀ f, f ∈ fs → is_fulfilled f = true) →
  fulfilled_items xs fs = xs.
Proof.
  revert fs. induction xs as [|x xs IH]; intros [|f fs] Hlen Hall; simpl in *; try done.
  assert (Hf : is_fulfilled f = true) by (apply Hall; by left).
  destruct f; try done. f_equal. apply IH; [lia|]. intros f' Hf'. apply Hall. by right.
Qed.

Lemma pending_new (fs : list fnstate) n :
  filter (λ f, is_pending f = true) (fs ++ replicate n NotCalled) =
  filter (λ f, is_pending f = true) fs.
Proof.
  rewrite list.filter_app. rewrite <- (app_nil_r (filter _ fs)) at 2. f_equal.
  induction n as [|n IH]; simpl; [done|]. by rewrite filter_cons_False.
Qed.

Lemma pending_insert (fs : list fnstate) i f f' :
  fs !! i = Some f →
  length (filter (λ f, is_pending f = true) (<[i:=f']> fs)) +
  (if is_pending f then 1 else 0) =
  length (filter (λ f, is_pending f = true) fs) + (if is_pending f' then 1 else 0).
Proof.
  revert i. induction fs as [|f0 fs IH]; intros [|i] Hf; simpl in *; try done.
  - injection Hf as ->. rewrite !filter_cons.
    destruct f, f'; simpl; repeat case_decide; simpl; try done; lia.
  - specialize (IH i Hf). rewrite !filter_cons. case_decide; simpl; lia.
Qed.


Lemma fulfilled_items_replicate (xs : list T) n :
  fulfilled_items xs (replicate n NotCalled) = [].
Proof.
  pose proof (fulfilled_items_new xs [] n) as H. simpl in H. rewrite H. by destruct xs.
Qed.

Lemma pending_replicate n :
  filter (λ f, is_pending f = true) (replicate n (NotCalled : fnstate)) = [].
Proof. apply (pending_new [] n). Qed.

Lemma pending_lookup_new (fs : list fnstate) n i k :
  (fs ++ replicate n NotCalled) !! i = Some (Pending k) → fs !! i = Some (Pending k).
Proof.
  intros [H|[_ H]]%lookup_app_Some; [done|].
  apply lookup_replicate in H as [? _]. done.
Qed.

Lemma fulfilled_now_new i (fs : list fnstate) n :
  fulfilled_now i fs (fs ++ replicate n NotCalled) = [].
Proof.
  revert i. induction fs as [|f fs IH]; intros i; simpl.
  - revert i. induction n as [|n IHn]; intros i; simpl; [done|]. destruct n; apply (IHn (S i)).
  - rewrite IH. by destruct (is_fulfilled f).
Qed.

Lemma fulfilled_now_same i (fs : list fnstate) : fulfilled_now i fs fs = [].
Proof. pose proof (fulfilled_now_new i fs 0) as H. simpl in H. by rewrite app_nil_r in H. Qed.

Lemma fulfilled_now_insert i0 (fs : list fnstate) i f f' :
  fs !! i = Some f → is_fulfilled f = false →
  fulfilled_now i0 fs (<[i:=f']> fs) = if is_fulfilled f' then [i0 + i] else [].
Proof.
  revert i0 i. induction fs as [|f0 fs IH]; intros i0 [|i] Hf Hnf; simpl in *; try done.
  - injection Hf as ->. rewrite Hnf, fulfilled_now_same, Nat.add_0_r.
    by destruct (is_fulfilled f').
  - rewrite (IH (S i0) i Hf Hnf).
    replace (S i0 + i) with (i0 + S i) by lia. by destruct (is_fulfilled f0).
Qed.

End PhaseFacts.


(** * The runs of the batch deletion *)

Section BatchFacts.
Variable password : jsstring.
Variable targets : list jsstring.
Variable limit : jsnum.

#[local] Abbreviation NotCalled := (@Runner.NotCalled unit jsstring).
#[local] Abbreviation Pending := (@Runner.Pending unit jsstring).
#[local] Abbreviation Fulfilled := (@Runner.Fulfilled unit jsstring).
#[local] Abbreviation label := (@Runner.label execResult).
#[local] Abbreviation phases := (@Runner.phases jsstring unit closure jsstring).
#[local] Abbreviation user := (@Runner.user jsstring unit closure jsstring).
#[local] Abbreviation queue := (@Runner.queue jsstring unit closure jsstring).
#[local] Abbreviation is_pending := (@Runner.is_pending unit jsstring).

#[local] Abbreviation bstate := (Runner.state (T:=jsstring) (R:=unit) (U:=closure) (K:=jsstring)).
#[local] Abbreviation bstep := (Runner.step (task password targets) (task_resume targets) targets limit).
#[local] Abbreviation binv := (@Runner.inv jsstring unit closure jsstring targets limit).
#[local] Abbreviation dinv := (delete_inv targets password).

Lemma delete_inv_init : dinv (batch targets limit).
Proof.
  unfold batch, Runner.runWithConcurrencyLimit.
  destruct (phases_loop targets limit targets (Runner.State (start targets) [] 0 Runner.Resuming [] [] [] [] : bstate))
    as (Hu & n & Hn).
  simpl in Hn. split; rewrite ?Hu, ?Hn; simpl; try done.
  - by rewrite fulfilled_items_replicate.
  - intros i k [H _]%lookup_replicate. done.
  - by rewrite pending_replicate.
  - intros c Hc. by apply elem_of_nil in Hc.
  - intros c Hc. by apply elem_of_nil in Hc.
Qed.

Lemma delete_inv_step (l : label) (s s' : bstate) :
  binv s → dinv s → bstep l s = Some s' → dinv s'.
Proof.
  intros Hinv [D1 D2 D3 D4 D5 D6 D7 D8] Hs.
  destruct (step_effect _ _ _ _ _ _ _ Hinv Hs)
    as [n Hu Hp _ _|x i o q _ Hq Hi Hx Hfn Hp|i k e o _ Hq Hi Hres Hp].
  - split; rewrite ?Hu, ?Hp; try done.
    + by rewrite fulfilled_items_new.
    + intros i k Hk%pending_lookup_new. by apply D2.
    + by rewrite pending_new.
  - unfold task in Hfn. destruct (authFailed (user s)) eqn:Hauth; injection Hfn as Hu <-.
    + split; rewrite <- ?Hu, ?Hp; simpl; rewrite ?Hauth; try done.
      * rewrite fmap_app. simpl.
        rewrite (fulfilled_items_insert targets _ i x NotCalled) by done. simpl.
        rewrite <- D1. symmetry. apply Permutation_cons_append.
      * intros j k. destruct (decide (i = j)) as [->|Hne].
        -- rewrite list_lookup_insert_eq by (by eapply lookup_lt_Some). done.
        -- rewrite list_lookup_insert_ne by done. apply D2.
      * pose proof (pending_insert (phases s) i NotCalled (Fulfilled ()) Hi) as H.
        simpl in H. lia.
      * rewrite length_app. simpl. lia.
    + split; rewrite <- ?Hu, ?Hp; simpl; rewrite ?Hauth; try done.
      * rewrite (fulfilled_items_insert targets _ i x NotCalled) by done. simpl. done.
      * intros j k. destruct (decide (i = j)) as [->|Hne].
        -- rewrite list_lookup_insert_eq by (by eapply lookup_lt_Some). congruence.
        -- rewrite list_lookup_insert_ne by done. apply D2.
      * pose proof (pending_insert (phases s) i NotCalled (Pending x) Hi) as H.
        simpl in H. rewrite length_app. simpl. lia.
      * intros c [Hc| ->%list_elem_of_singleton]%elem_of_app; [by apply D7|].
        exists x. split; [|done]. by eapply list_elem_of_lookup_2.
  - pose proof (D2 _ _ Hi) as Hk.
    assert (Hcount : length (filter (λ f, is_pending f = true)
                        (<[i:=Fulfilled ()]> (phases s))) + 1 =
                     length (filter (λ f, is_pending f = true) (phases s))).
    { pose proof (pending_insert (phases s) i (Pending k) (Fulfilled ()) Hi) as H.
      simpl in H. lia. }
    unfold task_resume in Hres. destruct e as [out|err]; injection Hres as Hu <-.
    + split; rewrite <- ?Hu, ?Hp; simpl; try done.
      * rewrite fmap_app. simpl.
        rewrite (fulfilled_items_insert targets _ i k (Pending k)) by done. simpl.
        rewrite <- D1. symmetry. apply Permutation_cons_append.
      * intros j k'. destruct (decide (i = j)) as [->|Hne].
        -- rewrite list_lookup_insert_eq by (by eapply lookup_lt_Some). done.
        -- rewrite list_lookup_insert_ne by done. apply D2.
      * lia.
      * rewrite length_app. simpl. lia.
      * intros Hf. rewrite length_app. simpl. rewrite D5 by done. lia.
    + split; rewrite <- ?Hu, ?Hp; simpl; try done.
      * rewrite fmap_app. simpl.
        rewrite (fulfilled_items_insert targets _ i k (Pending k)) by done. simpl.
        rewrite <- D1. symmetry. apply Permutation_cons_append.
      * intros j k'. destruct (decide (i = j)) as [->|Hne].
        -- rewrite list_lookup_insert_eq by (by eapply lookup_lt_Some). done.
        -- rewrite list_lookup_insert_ne by done. apply D2.
      * lia.
      * rewrite length_app. simpl. lia.
      * intros [Hf _]%orb_false_iff. rewrite length_app. simpl. rewrite D5 by done. lia.
      * intros t. destruct (isAuthError err) eqn:Herr.
        -- intros [Ht| ->%list_elem_of_singleton]%elem_of_app.
           ++ destruct (D8 t Ht) as [-> _]. split; [done|]. by rewrite orb_true_r.
           ++ split; [done|]. by rewrite orb_true_r.
        -- intros Ht. destruct (D8 t Ht) as [-> ->]. done.
Qed.

Lemma batch_steps_inv (ls : list label) (s : bstate) :
  batch_steps password targets limit ls (batch targets limit) = Some s → binv s ∧ dinv s.
Proof.
  unfold batch_steps. intros Hls.
  assert (Hgen : ∀ s0 : bstate, binv s0 → dinv s0 →
            Runner.steps (task password targets) (task_resume targets) targets limit ls s0 = Some s →
            binv s ∧ dinv s).
  { clear Hls. induction ls as [|l ls IH]; intros s0 Hi Hd; simpl; [by intros [= <-]|].
    destruct (Runner.step _ _ _ _ l s0) as [s1|] eqn:Hs; [|done]. apply IH.
    - by eapply inv_step.
    - by eapply delete_inv_step. }
  apply (Hgen _ (inv_init (task password targets) _ _ _) delete_inv_init Hls).
Qed.

Lemma resolved_phases (s : bstate) rs :
  binv s → Runner.pc s = Runner.Resolved rs →
  length (phases s) = length targets ∧
  ∀ f, f ∈ phases s → f = Fulfilled ().
Proof.
  intros Hinv Hpc. split.
  - unfold Runner.phases. rewrite length_fmap. destruct Hinv as [_ Hf].
    unfold Runner.framed in Hf. rewrite Hpc in Hf. tauto.
  - unfold Runner.phases. intros f (t & -> & (i & Ht)%list_elem_of_lookup)%list_elem_of_fmap.
    destruct (resolved_all_fulfilled _ _ _ _ _ _ Hinv Hpc Ht) as ([] & -> & _). done.
Qed.

Lemma resolved_results (ls : list label) (s : bstate) rs :
  batch_steps password targets limit ls (batch targets limit) = Some s →
  Runner.pc s = Runner.Resolved rs →
  snapshot <$> results (user s) ≡ₚ targets ∧
  completedCount (user s) = length (spawned (user s)).
Proof.
  intros [Hinv Hd]%batch_steps_inv Hpc.
  destruct (resolved_phases _ _ Hinv Hpc) as [Hlen Hall]. split.
  - rewrite (di_results _ _ _ Hd). rewrite fulfilled_items_all; [done..|].
    intros f Hf. by rewrite (Hall f Hf).
  - pose proof (di_count _ _ _ Hd) as Hc.
    assert (Hnil : filter (λ f, is_pending f = true) (phases s) = []).
    { revert Hall. generalize (phases s). intros fs. induction fs as [|f fs IH]; intros Hall; [done|].
      rewrite filter_cons, (Hall f) by by left. simpl. apply IH. intros f' Hf'. apply Hall. by right. }
    rewrite Hnil in Hc. simpl in Hc. lia.
Qed.

(** When the tasks of the batch return: a task that is called while
    [authFailed] is set returns at its call, any other task when its command
    ends. *)
Lemma fulfilled_now_step (l : label) (s s' : bstate) :
  binv s → bstep l s = Some s' →
  Runner.fulfilled_now 0 (phases s) (phases s') =
  match l, queue s with
  | Runner.Deliver i _, _ => [i]
  | Runner.Tick, Runner.JCall _ i :: _ => if authFailed (user s) then [i] else []
  | _, _ => []
  end.
Proof.
  intros Hinv Hs.
  destruct (step_effect _ _ _ _ _ _ _ Hinv Hs)
    as [n Hu Hp Hl Hcall|x i o q Hl Hq Hi Hx Hfn Hp|i k e o Hl Hq Hi Hres Hp].
  - rewrite Hp, fulfilled_now_new. destruct l as [|i e]; [|by destruct (Hl e i)].
    destruct (queue s) as [|j q] eqn:Hq; [done|]. destruct j; try done.
    by destruct (Hcall item i q).
  - rewrite Hl, Hq, Hp, (fulfilled_now_insert 0 _ i NotCalled) by done.
    unfold task in Hfn. by destruct (authFailed (user s)); injection Hfn as _ <-.
  - rewrite Hl, Hp, (fulfilled_now_insert 0 _ i (Pending k)) by done.
    unfold task_resume in Hres. by destruct e; injection Hres as _ <-.
Qed.

(** The results are pushed in the order in which the tasks return. *)
Lemma completion_order_results (ls : list label) (s0 s : bstate) :
  binv s0 → dinv s0 →
  Runner.steps (task password targets) (task_resume targets) targets limit ls s0 = Some s →
  snapshot <$> results (user s) =
  (snapshot <$> results (user s0)) ++
  omap (λ i, targets !! i)
       (Runner.completion_order (task password targets) (task_resume targets) targets limit
          ls s0).
Proof.
  revert s0. induction ls as [|l ls IH]; intros s0 Hinv Hd; simpl.
  - intros [= <-]. by rewrite app_nil_r.
  - destruct (Runner.step _ _ _ _ l s0) as [s1|] eqn:Hs; [|done]. intros Hls.
    rewrite (IH s1 (inv_step _ _ _ _ _ _ _ Hinv Hs) (delete_inv_step _ _ _ Hinv Hd Hs) Hls).
    rewrite omap_app, app_assoc. f_equal.
    destruct (step_effect _ _ _ _ _ _ _ Hinv Hs)
      as [n Hu Hp _ _|x i o q _ Hq Hi Hx Hfn Hp|i k e o _ Hq Hi Hres Hp].
    + by rewrite Hu, Hp, fulfilled_now_new, app_nil_r.
    + rewrite Hp, (fulfilled_now_insert 0 _ i NotCalled) by done.
      unfold task in Hfn.
      destruct (authFailed (user s0)); injection Hfn as Hu <-; rewrite <- Hu; simpl.
      * by rewrite fmap_app, Hx.
      * by rewrite app_nil_r.
    + rewrite Hp, (fulfilled_now_insert 0 _ i (Pending k)) by done.
      pose proof (di_pending _ _ _ Hd _ _ Hi) as Hk.
      unfold task_resume in Hres.
      destruct e as [out|err]; injection Hres as Hu <-; rewrite <- Hu; simpl;
        by rewrite fmap_app, Hk.
Qed.

Lemma batch_results_in_order (ls : list label) (s : bstate) :
  batch_steps password targets limit ls (batch targets limit) = Some s →
  snapshot <$> results (user s) =
  omap (λ i, targets !! i)
       (Runner.completion_order (task password targets) (task_resume targets) targets limit
          ls (batch targets limit)).
Proof.
  intros Hls.
  rewrite (completion_order_results ls _ s (inv_init (task password targets) _ _ _)
             delete_inv_init Hls).
  unfold batch, Runner.runWithConcurrencyLimit.
  destruct (phases_loop targets limit targets
              (Runner.State (start targets) [] 0 Runner.Resuming [] [] [] [] : bstate))
    as [Hu _].
  by rewrite Hu.
Qed.

(** A result that succeeded carries no error: the skipped results and the
    results of the commands that failed are the ones with [success] false. *)
Lemma results_errors (ls : list label) (s : bstate) :
  batch_steps password targets limit ls (batch targets limit) = Some s →
  ∀ r, r ∈ results (user s) → success r = true → failure r = None.
Proof.
  unfold batch_steps. intros Hls.
  assert (Hgen : ∀ s0 : bstate, binv s0 →
            (∀ r, r ∈ results (user s0) → success r = true → failure r = None) →
            Runner.steps (task password targets) (task_resume targets) targets limit ls s0 = Some s →
            ∀ r, r ∈ results (user s) → success r = true → failure r = None).
  { clear Hls. induction ls as [|l ls IH]; intros s0 Hinv H0; simpl; [by intros [= <-]|].
    destruct (Runner.step _ _ _ _ l s0) as [s1|] eqn:Hs; [|done].
    apply IH; [by eapply inv_step|].
    destruct (step_effect _ _ _ _ _ _ _ Hinv Hs)
      as [n Hu _ _ _|x i o q _ _ _ _ Hfn _|i k e o _ _ _ Hres _].
    - by rewrite Hu.
    - unfold task in Hfn.
      destruct (authFailed (user s0)); injection Hfn as Hu _; rewrite <- Hu; simpl; [|done].
      intros r [Hr| ->%list_elem_of_singleton]%elem_of_app; [by apply H0|done].
    - unfold task_resume in Hres.
      destruct e as [out|err]; injection Hres as Hu _; rewrite <- Hu; simpl;
        intros r [Hr| ->%list_elem_of_singleton]%elem_of_app; try done; by apply H0. }
  apply (Hgen (batch targets limit) (inv_init (task password targets) _ _ _)); [|done].
  unfold batch, Runner.runWithConcurrencyLimit.
  destruct (phases_loop targets limit targets
              (Runner.State (start targets) [] 0 Runner.Resuming [] [] [] [] : bstate))
    as [Hu _].
  rewrite Hu. simpl. by intros r ?%elem_of_nil.
Qed.


End BatchFacts.

(** ** The results of [deleteSnapshots] *)

Lemma finished_results password selected concurrency e :
  deleteSnapshots password selected true concurrency e →
  snapshot <$> outcomes e ≡ₚ selected.
Proof.
  intros [Hlen|Hlen Hc|ls s rs Hlen _ Hls Hpc]; simpl.
  - by destruct selected.
  - done.
  - by destruct (resolved_results _ _ _ _ _ _ Hls Hpc).
Qed.

Lemma successful_failed (rs : list DeletionResult) :
  successful rs + failed rs = length rs.
Proof.
  unfold successful, failed. induction rs as [|r rs IH]; [done|].
  rewrite !filter_cons. destruct (success r); simpl; repeat case_decide; simpl; try done; lia.
Qed.

(** C2, as the code has it.  A confirmed call of [deleteSnapshots] leaves
    one result per selected snapshot: the snapshots of the results are the
    selected ones in some order, so there are as many of them and none is
    repeated unless it was selected twice.  The order is that in which the
    tasks return: in every state of every run of the batch, whatever the
    limit, the results pushed so far are those of the tasks that have
    returned, in the order in which they returned, where a task that is
    called while [authFailed] is set returns at its call and any other task
    when its command ends; the results a finished call leaves are those of
    the state in which the runner resolved. *)
Theorem one_result_per_snapshot password selected concurrency e :
  deleteSnapshots password selected true concurrency e →
  snapshot <$> outcomes e ≡ₚ selected ∧
  length (outcomes e) = length selected ∧
  (NoDup selected → NoDup (snapshot <$> outcomes e)) ∧
  (selected ≠ [] →
   ∃ ls s rs,
     batch_steps password selected (concurrencyLimit concurrency) ls
       (batch selected (concurrencyLimit concurrency)) = Some s ∧
     Runner.pc s = Runner.Resolved rs ∧
     outcomes e = results (Runner.user s) ∧
     snapshot <$> outcomes e =
     omap (λ i, selected !! i)
          (Runner.completion_order (task password selected) (task_resume selected) selected
             (concurrencyLimit concurrency) ls
             (batch selected (concurrencyLimit concurrency)))) ∧
  (∀ limit ls s,
     batch_steps password selected limit ls (batch selected limit) = Some s →
     snapshot <$> results (Runner.user s) =
     omap (λ i, selected !! i)
          (Runner.completion_order (task password selected) (task_resume selected) selected
             limit ls (batch selected limit)) ∧
     ∀ l s',
       Runner.step (task password selected) (task_resume selected) selected limit l s = Some s' →
       Runner.fulfilled_now 0 (Runner.phases s) (Runner.phases s') =
       match l, Runner.queue s with
       | Runner.Deliver i _, _ => [i]
       | Runner.Tick, Runner.JCall _ i :: _ =>
           if authFailed (Runner.user s) then [i] else []
       | _, _ => []
       end).
Proof.
  intros He. pose proof (finished_results _ _ _ _ He) as Hp.
  assert (Horder : ∀ limit ls s,
            batch_steps password selected limit ls (batch selected limit) = Some s →
            snapshot <$> results (Runner.user s) =
            omap (λ i, selected !! i)
                 (Runner.completion_order (task password selected) (task_resume selected)
                    selected limit ls (batch selected limit)))
    by (intros limit ls s; apply batch_results_in_order).
  split_and!; [done| | | |].
  - by rewrite <- Hp, length_fmap.
  - intros Hnd. by rewrite Hp.
  - intros Hne. destruct He as [Hlen|Hlen Hc|ls s rs Hlen _ Hls Hpc]; simpl.
    + by destruct selected.
    + done.
    + exists ls, s, rs. split_and!; [done..|]. by apply Horder.
  - intros limit ls s Hls. split; [by apply Horder|]. intros l s' Hs.
    apply (fulfilled_now_step password selected limit l s s'); [|done].
    by destruct (batch_steps_inv _ _ _ _ _ Hls).
Qed.

(** The counts of the code are those of the specification. *)
Lemma successful_successCount (rs : list DeletionResult) : successful rs = successCount rs.
Proof.
  unfold successful, successCount. induction rs as [|r rs IH]; [done|].
  rewrite filter_cons. simpl. destruct (success r); simpl; by rewrite <- IH.
Qed.

Lemma failed_failureCount (rs : list DeletionResult) : failed rs = failureCount rs.
Proof.
  unfold failed, failureCount. induction rs as [|r rs IH]; [done|].
  rewrite filter_cons. simpl. destruct (success r); simpl; by rewrite <- IH.
Qed.

(** The toast the summary leaves for each class of the specification, on
    the results of at least one task. *)
Lemma summaryToast_classify (rs : list DeletionResult) :
  rs ≠ [] →
  match classify rs with
  | NoOp => False
  | AllSucceeded =>
      snd (summaryToast rs) =
      Toast Success (lit "All snapshots deleted successfully")
            (toString (successCount rs) ++ lit " snapshot(s) deleted")
  | AllFailed =>
      style (snd (summaryToast rs)) = Failure ∧
      title (snd (summaryToast rs)) = lit "Failed to delete snapshots" ∧
      (message (snd (summaryToast rs)) =
       lit "All " ++ toString (failureCount rs) ++ lit " deletion(s) failed" ∨
       ∃ r err, firstError rs = Some r ∧ success r = false ∧ failure r = Some err ∧
                err ≠ [] ∧
                message (snd (summaryToast rs)) = lit "Error: " ++ take 100 err ++ lit "...")
  | Partial =>
      snd (summaryToast rs) =
      Toast Failure (lit "Partially completed")
            (toString (successCount rs) ++ lit " deleted, " ++
             toString (failureCount rs) ++ lit " failed")
  end.
Proof.
  intros Hne. unfold classify, summaryToast.
  rewrite !successful_successCount, !failed_failureCount.
  destruct rs as [|r0 rs]; [done|]. set (l := r0 :: rs).
  destruct (failureCount l =? 0); [done|].
  destruct (successCount l =? 0); [|done].
  cbn [snd style title message]. split_and!; [done..|].
  destruct (firstError l) as [r|] eqn:Hr; [|by left].
  destruct (failure r) as [err|] eqn:Herr; [|by left].
  destruct err as [|c err]; [by left|]. right. exists r, (c :: err).
  split_and!; try done.
  unfold firstError, failedResults in Hr. apply head_Some_elem_of in Hr.
  by apply list_elem_of_filter in Hr as [Hr _].
Qed.

(** C8.  A confirmed call of [deleteSnapshots] counts its results as the
    specification counts the outcomes: those with [success] true and those
    with [success] false, which are all the others and include every result
    that carries an error, the skipped ones among them.  The toast the call
    ends with is the one of the class of the specification: "No snapshots
    selected", from the guard, exactly when there is no outcome, which is
    when nothing was selected; "All snapshots deleted successfully", of
    style Success, when no outcome failed; "Failed to delete snapshots" when
    none succeeded; "Partially completed" with both counts otherwise. *)
Theorem summary_classification password selected concurrency e :
  deleteSnapshots password selected true concurrency e →
  successful (outcomes e) = successCount (outcomes e) ∧
  failed (outcomes e) = failureCount (outcomes e) ∧
  successCount (outcomes e) + failureCount (outcomes e) = length (outcomes e) ∧
  (∀ r, r ∈ outcomes e → is_Some (failure r) → success r = false) ∧
  (classify (outcomes e) = NoOp ↔ selected = []) ∧
  ∃ t, finalToast e = Some t ∧
       match classify (outcomes e) with
       | NoOp =>
           e = NothingSelected t ∧
           t = Toast Failure (lit "No snapshots selected")
                     (lit "Please select at least one snapshot to delete")
       | AllSucceeded =>
           t = Toast Success (lit "All snapshots deleted successfully")
                     (toString (successCount (outcomes e)) ++ lit " snapshot(s) deleted")
       | AllFailed =>
           style t = Failure ∧ title t = lit "Failed to delete snapshots" ∧
           (message t = lit "All " ++ toString (failureCount (outcomes e)) ++
                        lit " deletion(s) failed" ∨
            ∃ r err, firstError (outcomes e) = Some r ∧ success r = false ∧
                     failure r = Some err ∧ err ≠ [] ∧
                     message t = lit "Error: " ++ take 100 err ++ lit "...")
       | Partial =>
           t = Toast Failure (lit "Partially completed")
                     (toString (successCount (outcomes e)) ++ lit " deleted, " ++
                      toString (failureCount (outcomes e)) ++ lit " failed")
       end.
Proof.
  intros He. pose proof (finished_results _ _ _ _ He) as Hp.
  assert (Hlen : length (outcomes e) = length selected) by by rewrite <- Hp, length_fmap.
  split_and!.
  - apply successful_successCount.
  - apply failed_failureCount.
  - rewrite <- successful_successCount, <- failed_failureCount. apply successful_failed.
  - intros r Hr [err Herr]. destruct (success r) eqn:Hs; [|done]. exfalso.
    destruct He as [Hsel|Hsel Hc|ls s rs Hsel _ Hls Hpc]; simpl in *;
      try by apply elem_of_nil in Hr.
    rewrite (results_errors _ _ _ _ _ Hls r Hr Hs) in Herr. done.
  - unfold classify. destruct (outcomes e) as [|r rs] eqn:Ho.
    + split; [|done]. intros _. by destruct selected.
    + split; [by repeat case_match|]. intros ->. done.
  - destruct He as [Hsel|Hsel Hc|ls s rs Hsel _ Hls Hpc].
    + by exists noSelectionToast.
    + done.
    + eexists. split; [reflexivity|]. cbn [outcomes] in *.
      assert (Hne : results (Runner.user s) ≠ []).
      { intros Hnil. rewrite Hnil in Hlen. simpl in Hlen. lia. }
      pose proof (summaryToast_classify _ Hne) as H.
      destruct (classify (results (Runner.user s))); [done|exact H..].
Qed.

(** * Strings and numbers *)

Lemma trimStart_blank (s : jsstring) : forallb isWhiteSpace s = true → trimStart s = [].
Proof.
  induction s as [|c s IH]; simpl; [done|].
  intros [Hc Hs]%andb_true_iff. rewrite Hc. by apply IH.
Qed.

Lemma trim_blank (s : jsstring) : forallb isWhiteSpace s = true → trim s = [].
Proof. intros Hs. unfold trim. by rewrite trimStart_blank. Qed.

Lemma digit_Some (c : N) : is_digit c = true → digit c = Some (Z.of_N c - 48)%Z.
Proof. unfold is_digit, digit. by intros ->. Qed.

Lemma digit_not_blank (c : N) : is_digit c = true → isWhiteSpace c = false.
Proof.
  unfold is_digit, isWhiteSpace. intros [H1 H2]%andb_true_iff.
  apply N.leb_le in H1, H2. apply orb_false_iff. split.
  - apply bool_decide_eq_false. set_unfold. lia.
  - apply andb_false_iff. left. apply N.leb_gt. lia.
Qed.

Lemma digits_of_uint (d : Decimal.uint) (acc : nat) :
  digits (Z.of_nat acc) (lit (NilEmpty.string_of_uint d)) = Z.of_nat (Nat.of_uint_acc d acc) ∧
  forallb is_digit (lit (NilEmpty.string_of_uint d)) = true.
Proof.
  revert acc. induction d as [|d IH|d IH|d IH|d IH|d IH|d IH|d IH|d IH|d IH|d IH]; intros acc;
    [done|..]; simpl;
    match goal with |- context [Nat.of_uint_acc d ?a] => destruct (IH a) as [H1 H2] end;
    (split; [|exact H2]); rewrite <- H1; f_equal; rewrite Nat.tail_mul_spec; lia.
Qed.

Lemma toString_digits (n : nat) :
  ∃ c s, toString n = c :: s ∧ is_digit c = true ∧ digits 0 (toString n) = Z.of_nat n.
Proof.
  unfold toString, NilZero.string_of_uint.
  pose proof (DecimalNat.Unsigned.of_to n) as Hn. unfold Nat.of_uint in Hn.
  destruct (digits_of_uint (Nat.to_uint n) 0) as [H1 H2]. rewrite Hn in H1.
  destruct (Nat.to_uint n) as [|d|d|d|d|d|d|d|d|d|d] eqn:Hd.
  - exists 48%N, []. simpl in *. by subst n.
  - eexists _, _. split; [done|]. split; [done|]. exact H1.
  - eexists _, _. split; [done|]. split; [done|]. exact H1.
  - eexists _, _. split; [done|]. split; [done|]. exact H1.
  - eexists _, _. split; [done|]. split; [done|]. exact H1.
  - eexists _, _. split; [done|]. split; [done|]. exact H1.
  - eexists _, _. split; [done|]. split; [done|]. exact H1.
  - eexists _, _. split; [done|]. split; [done|]. exact H1.
  - eexists _, _. split; [done|]. split; [done|]. exact H1.
  - eexists _, _. split; [done|]. split; [done|]. exact H1.
  - eexists _, _. split; [done|]. split; [done|]. exact H1.
Qed.

Lemma digits_app (s rest : jsstring) (acc : Z) :
  forallb is_digit s = true →
  digits acc (s ++ rest) = digits (digits acc s) rest.
Proof.
  revert acc. induction s as [|c s IH]; intros acc; simpl; [done|].
  intros [Hc Hs]%andb_true_iff. rewrite (digit_Some c Hc). by apply IH.
Qed.

Lemma digits_stop (rest : jsstring) (acc : Z) :
  match rest with [] => True | c :: _ => is_digit c = false end →
  digits acc rest = acc.
Proof.
  destruct rest as [|c rest]; simpl; [done|]. unfold digit, is_digit. by intros ->.
Qed.

Lemma toString_all_digits (n : nat) : forallb is_digit (toString n) = true.
Proof.
  unfold toString, NilZero.string_of_uint.
  destruct (digits_of_uint (Nat.to_uint n) 0) as [_ H].
  by destruct (Nat.to_uint n).
Qed.

Lemma trimStart_app_blank (ws s : jsstring) :
  forallb isWhiteSpace ws = true → trimStart (ws ++ s) = trimStart s.
Proof.
  induction ws as [|c ws IH]; simpl; [done|].
  intros [Hc Hs]%andb_true_iff. rewrite Hc. by apply IH.
Qed.

Lemma concurrencyLimit_Some (t : jsstring) :
  t ≠ [] → concurrencyLimit (Some t) = parseInt10 t.
Proof. by destruct t. Qed.

Lemma parseInt10_blank_prefix (ws s : jsstring) :
  forallb isWhiteSpace ws = true → parseInt10 (ws ++ s) = parseInt10 s.
Proof. intros Hws. unfold parseInt10. by rewrite trimStart_app_blank. Qed.

Lemma parseDigits_none (rest : jsstring) :
  starts_with_digit rest = false → parseDigits rest = None.
Proof.
  destruct rest as [|c rest]; simpl; [done|]. unfold digit, is_digit. by intros ->.
Qed.

Lemma parseDigits_digits (ds rest : jsstring) :
  ds ≠ [] → forallb is_digit ds = true → starts_with_digit rest = false →
  parseDigits (ds ++ rest) = Some (digits 0 ds).
Proof.
  intros Hne Hds Hrest. destruct ds as [|c ds]; [done|].
  pose proof Hds as [Hc _]%andb_true_iff.
  unfold parseDigits. cbn [app]. rewrite (digit_Some c Hc).
  change (c :: ds ++ rest) with ((c :: ds) ++ rest).
  rewrite digits_app by done. f_equal. apply digits_stop.
  destruct rest; [done|]. exact Hrest.
Qed.

(** What [parseInt] does once the white space is gone: a sign is taken
    off, and a first unit that is neither a sign nor white space starts
    the digits. *)
Lemma parseInt10_minus (s : jsstring) :
  parseInt10 (45%N :: s) =
  match parseDigits s with
  | None => NaN
  | Some m => if (m =? 0)%Z then NegZero else number (- m)
  end.
Proof.
  unfold parseInt10. cbn [trimStart]. change (isWhiteSpace 45) with false. cbv iota.
  destruct (parseDigits s) as [m|]; [|done]. change (-1 =? -1)%Z with true. cbv iota.
  destruct (m =? 0)%Z; [done|]. f_equal; lia.
Qed.

Lemma parseInt10_plus (s : jsstring) :
  parseInt10 (43%N :: s) =
  match parseDigits s with
  | None => NaN
  | Some m => if (m =? 0)%Z then Int 0 else number m
  end.
Proof.
  unfold parseInt10. cbn [trimStart]. change (isWhiteSpace 43) with false. cbv iota.
  destruct (parseDigits s) as [m|]; [|done]. change (1 =? -1)%Z with false. cbv iota.
  destruct (m =? 0)%Z; [done|]. f_equal; lia.
Qed.

Lemma parseInt10_unsigned (s : jsstring) :
  match s with
  | c :: _ => isWhiteSpace c = false ∧ c ≠ 43%N ∧ c ≠ 45%N
  | [] => True
  end →
  parseInt10 s =
  match parseDigits s with
  | None => NaN
  | Some m => if (m =? 0)%Z then Int 0 else number m
  end.
Proof.
  destruct s as [|c s]; [done|]. intros (Hw & H1 & H2).
  unfold parseInt10. cbn [trimStart]. rewrite Hw.
  assert (Hs : (match c :: s with 45%N :: _ => (-1)%Z | _ => 1%Z end) = 1%Z).
  { destruct c as [|p]; [done|]. repeat (destruct p as [p|p|]; try done). }
  assert (Hb : (match c :: s with 45%N :: S' | 43%N :: S' => S' | _ => c :: s end) = c :: s).
  { destruct c as [|p]; [done|]. repeat (destruct p as [p|p|]; try done). }
  rewrite Hs, Hb. destruct (parseDigits (c :: s)) as [m|]; [|done].
  change (1 =? -1)%Z with false. cbv iota.
  destruct (m =? 0)%Z; [done|]. f_equal; lia.
Qed.

Lemma digits_zeros (k : nat) (s : jsstring) :
  digits 0 (replicate k 48%N ++ s) = digits 0 s.
Proof. induction k as [|k IH]; [done|]. exact IH. Qed.

Lemma zeros_digits (k : nat) : forallb is_digit (replicate k 48%N) = true.
Proof. induction k as [|k IH]; [done|]. exact IH. Qed.

Lemma numeral_digits (k n : nat) :
  replicate k 48%N ++ toString n ≠ [] ∧
  forallb is_digit (replicate k 48%N ++ toString n) = true ∧
  digits 0 (replicate k 48%N ++ toString n) = Z.of_nat n.
Proof.
  destruct (toString_digits n) as (c & s & Hs & Hc & Hd). split_and!.
  - rewrite Hs. by destruct k.
  - rewrite forallb_app, zeros_digits. apply toString_all_digits.
  - by rewrite digits_zeros.
Qed.

(** Below [2^53] the integers are doubles. *)
Lemma number_exact (z : Z) : (Z.abs z ≤ 2 ^ 53)%Z → number z = Int z.
Proof.
  intros Hz. destruct (decide (Z.abs z = 2 ^ 53)%Z) as [He|Hne].
  - destruct (Z.abs_spec z) as [[_ H]|[_ H]]; rewrite H in He.
    + subst z. by vm_compute.
    + replace z with (- 2 ^ 53)%Z by lia. by vm_compute.
  - unfold number. cbv zeta.
    assert (Hlog : (Z.log2 (Z.abs z) - 52 ≤ 0)%Z).
    { destruct (decide (Z.abs z = 0)%Z) as [->|H0]; [done|].
      assert (Z.log2 (Z.abs z) < 53)%Z; [|lia]. apply Z.log2_lt_pow2; lia. }
    apply Z.leb_le in Hlog. by rewrite Hlog.
Qed.

(** Every string of digits is a numeral after zeros. *)
Definition unit_of_digit (c : N) (d : Decimal.uint) : Decimal.uint :=
  match (c - 48)%N with
  | 0%N => Decimal.D0 d
  | 1%N => Decimal.D1 d
  | 2%N => Decimal.D2 d
  | 3%N => Decimal.D3 d
  | 4%N => Decimal.D4 d
  | 5%N => Decimal.D5 d
  | 6%N => Decimal.D6 d
  | 7%N => Decimal.D7 d
  | 8%N => Decimal.D8 d
  | _ => Decimal.D9 d
  end.

Lemma uint_of_digits (ds : jsstring) :
  forallb is_digit ds = true →
  ∃ d, lit (NilEmpty.string_of_uint d) = ds ∧ (ds ≠ [] → d ≠ Decimal.Nil).
Proof.
  induction ds as [|c ds IH]; [by exists Decimal.Nil|].
  intros [Hc Hds]%andb_true_iff. destruct (IH Hds) as (d & Hd & _).
  exists (unit_of_digit c d). unfold is_digit in Hc.
  apply andb_true_iff in Hc as [H1%N.leb_le H2%N.leb_le].
  assert (Hin : c ∈ [48; 49; 50; 51; 52; 53; 54; 55; 56; 57]%N) by (set_unfold; lia).
  set_unfold. destruct_or!; subst c; simpl; (split; [by rewrite <- Hd|done]).
Qed.

Lemma lit_iter_D0 (k : nat) (d : Decimal.uint) :
  lit (NilEmpty.string_of_uint (Nat.iter k Decimal.D0 d)) =
  replicate k 48%N ++ lit (NilEmpty.string_of_uint d).
Proof. induction k as [|k IH]; [done|]. simpl. by rewrite <- IH. Qed.

Lemma digit_string_shape (ds : jsstring) :
  ds ≠ [] → forallb is_digit ds = true →
  ∃ k n, ds = replicate k 48%N ++ toString n.
Proof.
  intros Hne Hds. destruct (uint_of_digits ds Hds) as (d & Hd & Hnil).
  specialize (Hnil Hne).
  exists (Decimal.nb_digits d - Decimal.nb_digits (Decimal.unorm d)), (Nat.of_uint d).
  unfold toString. rewrite DecimalNat.Unsigned.to_of.
  assert (Hz : NilZero.string_of_uint (Decimal.unorm d) =
               NilEmpty.string_of_uint (Decimal.unorm d)).
  { pose proof (unorm_nonnil d). by destruct (Decimal.unorm d). }
  rewrite Hz, <- lit_iter_D0, iter_D0_unorm by done. by symmetry.
Qed.

Lemma digit_head (ds rest : jsstring) :
  ds ≠ [] → forallb is_digit ds = true →
  match ds ++ rest with
  | c :: _ => isWhiteSpace c = false ∧ c ≠ 43%N ∧ c ≠ 45%N
  | [] => True
  end.
Proof.
  destruct ds as [|c ds]; [done|]. intros _ [Hc _]%andb_true_iff. simpl.
  split; [by apply digit_not_blank|]. unfold is_digit in Hc.
  apply andb_true_iff in Hc as [H1%N.leb_le H2%N.leb_le]. lia.
Qed.

Lemma parseInt10_numeral (ws sign rest : jsstring) (k n : nat) :
  forallb isWhiteSpace ws = true → optional_sign sign → starts_with_digit rest = false →
  parseInt10 (ws ++ sign ++ replicate k 48%N ++ toString n ++ rest) =
  if bool_decide (sign = lit "-")
  then (if bool_decide (n = 0) then NegZero else number (- Z.of_nat n))
  else number (Z.of_nat n).
Proof.
  intros Hws Hsign Hrest. rewrite parseInt10_blank_prefix by done.
  destruct (numeral_digits k n) as (Hne & Hds & Hval).
  rewrite (app_assoc (replicate k 48%N)).
  pose proof (parseDigits_digits _ _ Hne Hds Hrest) as Hp. rewrite Hval in Hp.
  assert (Hzero : (if (Z.of_nat n =? 0)%Z then Int 0 else number (Z.of_nat n)) =
                  number (Z.of_nat n)).
  { destruct (Z.eqb_spec (Z.of_nat n) 0) as [->|]; done. }
  destruct Hsign as [-> | [-> | ->]].
  - rewrite bool_decide_eq_false_2 by done. cbn [app].
    rewrite parseInt10_unsigned by by apply digit_head. by rewrite Hp.
  - rewrite bool_decide_eq_false_2 by done.
    change (lit "+" ++ ?x) with (43%N :: x). by rewrite parseInt10_plus, Hp.
  - rewrite bool_decide_eq_true_2 by done.
    change (lit "-" ++ ?x) with (45%N :: x). rewrite parseInt10_minus, Hp.
    destruct (Z.eqb_spec (Z.of_nat n) 0) as [H0|H0].
    + rewrite bool_decide_eq_true_2 by lia. done.
    + rewrite bool_decide_eq_false_2 by lia. done.
Qed.

Lemma parseInt10_no_digit (ws sign rest : jsstring) :
  forallb isWhiteSpace ws = true → optional_sign sign → no_digit sign rest →
  parseInt10 (ws ++ sign ++ rest) = NaN.
Proof.
  intros Hws Hsign [Hd Hns]. rewrite parseInt10_blank_prefix by done.
  pose proof (parseDigits_none _ Hd) as Hp.
  destruct Hsign as [-> | [-> | ->]].
  - cbn [app]. rewrite parseInt10_unsigned by by apply Hns. by rewrite Hp.
  - change (lit "+" ++ ?x) with (43%N :: x). by rewrite parseInt10_plus, Hp.
  - change (lit "-" ++ ?x) with (45%N :: x). by rewrite parseInt10_minus, Hp.
Qed.

Lemma trimStart_split (s : jsstring) :
  ∃ ws, s = ws ++ trimStart s ∧ forallb isWhiteSpace ws = true ∧
        match trimStart s with
        | c :: _ => isWhiteSpace c = false
        | [] => True
        end.
Proof.
  induction s as [|c s (ws & Hs & Hws & Hc)]; [by exists []|].
  simpl. destruct (isWhiteSpace c) eqn:Hw.
  - exists (c :: ws). simpl. rewrite Hw. split_and!; [by f_equal|done..].
  - by exists [].
Qed.

Lemma digits_split (b : jsstring) :
  ∃ ds rest, b = ds ++ rest ∧ forallb is_digit ds = true ∧ starts_with_digit rest = false.
Proof.
  induction b as [|c b (ds & rest & Hb & Hds & Hrest)]; [by exists [], []|].
  destruct (is_digit c) eqn:Hc.
  - exists (c :: ds), rest. simpl. rewrite Hc. split_and!; [by f_equal|done..].
  - by exists [], (c :: b).
Qed.

(** The strings [parseInt] reads, sorted by what it finds after the white
    space and the sign. *)
Lemma preference_shapes (s : jsstring) :
  s = [] ∨
  (∃ ws sign rest,
     s = ws ++ sign ++ rest ∧ forallb isWhiteSpace ws = true ∧
     optional_sign sign ∧ no_digit sign rest) ∨
  (∃ ws sign k n rest,
     s = ws ++ sign ++ replicate k 48%N ++ toString n ++ rest ∧
     forallb isWhiteSpace ws = true ∧ optional_sign sign ∧
     starts_with_digit rest = false).
Proof.
  destruct (trimStart_split s) as (ws & Hs & Hws & Hhead). right.
  assert (Hbody : ∀ sign body, s = ws ++ sign ++ body → optional_sign sign →
            (sign = [] → match body with
                         | c :: _ => isWhiteSpace c = false ∧ c ≠ 43%N ∧ c ≠ 45%N
                         | [] => True
                         end) →
            (∃ ws sign rest,
               s = ws ++ sign ++ rest ∧ forallb isWhiteSpace ws = true ∧
               optional_sign sign ∧ no_digit sign rest) ∨
            (∃ ws sign k n rest,
               s = ws ++ sign ++ replicate k 48%N ++ toString n ++ rest ∧
               forallb isWhiteSpace ws = true ∧ optional_sign sign ∧
               starts_with_digit rest = false)).
  { intros sign body Hsb Hsign Hns.
    destruct (digits_split body) as (ds & rest & Hb & Hds & Hrest).
    destruct ds as [|c ds].
    - left. exists ws, sign, body. simpl in Hb. subst rest. by split_and!.
    - right. destruct (digit_string_shape (c :: ds) ltac:(done) Hds) as (k & n & Hkn).
      exists ws, sign, k, n, rest. split_and!; try done.
      by rewrite Hsb, Hb, Hkn, <- !app_assoc. }
  destruct (trimStart s) as [|c t] eqn:Ht.
  - apply (Hbody [] []); [done|by left|done].
  - destruct (decide (c = 43%N)) as [->|H1]; [|destruct (decide (c = 45%N)) as [->|H2]].
    + apply (Hbody (lit "+") t); [done|by right; left|done].
    + apply (Hbody (lit "-") t); [done|by right; right|done].
    + apply (Hbody [] (c :: t)); [done|by left|done].
Qed.

(** C6, as the code has it.  The limit is [parseInt(preferences.concurrency
    || "3", 10)].  It is 3 when the preference is missing or empty.  It is
    [NaN], not 3, when no digit follows the white space and the optional
    sign.  Otherwise it is the Number value for the integer the digits
    denote, with the sign, whatever comes after the digits: the integer
    itself up to [2^53], so nothing is clamped to 1-5, and the nearest
    double above.  Every preference has one of these shapes. *)
Theorem concurrencyLimit_unclamped :
  concurrencyLimit None = Int 3 ∧ concurrencyLimit (Some []) = Int 3 ∧
  (∀ ws sign rest,
     forallb isWhiteSpace ws = true → optional_sign sign → no_digit sign rest →
     ws ++ sign ++ rest ≠ [] →
     concurrencyLimit (Some (ws ++ sign ++ rest)) = NaN) ∧
  (∀ ws sign k n rest,
     forallb isWhiteSpace ws = true → optional_sign sign →
     starts_with_digit rest = false →
     concurrencyLimit (Some (ws ++ sign ++ replicate k 48%N ++ toString n ++ rest)) =
     if bool_decide (sign = lit "-")
     then (if bool_decide (n = 0) then NegZero else number (- Z.of_nat n))
     else number (Z.of_nat n)) ∧
  (∀ z, (Z.abs z ≤ 2 ^ 53)%Z → number z = Int z) ∧
  (∀ n, (Z.of_nat n ≤ 2 ^ 53)%Z →
        concurrencyLimit (Some (toString n)) = Int (Z.of_nat n) ∧
        (n ≠ 0 → concurrencyLimit (Some (lit "-" ++ toString n)) = Int (- Z.of_nat n))) ∧
  (∀ s : jsstring,
     s = [] ∨
     (∃ ws sign rest,
        s = ws ++ sign ++ rest ∧ forallb isWhiteSpace ws = true ∧
        optional_sign sign ∧ no_digit sign rest) ∨
     (∃ ws sign k n rest,
        s = ws ++ sign ++ replicate k 48%N ++ toString n ++ rest ∧
        forallb isWhiteSpace ws = true ∧ optional_sign sign ∧
        starts_with_digit rest = false)).
Proof.
  split_and!; [done..| | |exact number_exact| |exact preference_shapes].
  - intros ws sign rest Hws Hsign Hno Hne.
    rewrite concurrencyLimit_Some by done. by apply parseInt10_no_digit.
  - intros ws sign k n rest Hws Hsign Hrest.
    rewrite concurrencyLimit_Some; [by apply parseInt10_numeral|].
    destruct (toString_digits n) as (c & s & Hs & _). rewrite Hs.
    intros H. do 3 (apply app_eq_nil in H as [_ H]). done.
  - intros n Hn.
    destruct (toString_digits n) as (c & s & Hs & _). split.
    + rewrite concurrencyLimit_Some by by rewrite Hs.
      pose proof (parseInt10_numeral [] [] [] 0 n eq_refl ltac:(by left) eq_refl) as H.
      cbn [app replicate] in H. rewrite app_nil_r in H. rewrite H.
      rewrite bool_decide_eq_false_2 by done. apply number_exact. lia.
    + intros Hn0. rewrite concurrencyLimit_Some by done.
      pose proof (parseInt10_numeral [] (lit "-") [] 0 n eq_refl
                    ltac:(by right; right) eq_refl) as H.
      cbn [app replicate] in H. rewrite app_nil_r in H.
      change ([] ++ ?x) with x in H. rewrite H.
      rewrite bool_decide_eq_true_2 by done. rewrite bool_decide_eq_false_2 by done.
      apply number_exact. lia.
Qed.

(** C9.  A password that is empty or made of white space only is refused by
    [handleSubmit] itself: the error "Please enter your password" is set, no
    command is handed to [execAsync], [onSubmit] is not called and the form
    stays where it is. *)
Theorem blank_password_rejected (env : jsstring → execResult) (f : form) :
  forallb isWhiteSpace (password f) = true →
  handleSubmit env f =
  Submitted (Form (password f) (isVerifying f) (Some (lit "Please enter your password")))
            [] None false.
Proof. intros Hb. unfold handleSubmit. by rewrite trim_blank. Qed.


(** * The commands *)

Lemma sh_tokens_escaped (w password rest : jsstring) :
  sh_tokens (InQuote w) (escapeSingleQuote password ++ 39%N :: rest) =
  sh_tokens (InWord (w ++ password)) rest.
Proof.
  revert w. induction password as [|c p IH]; intros w; simpl.
  - by rewrite app_nil_r.
  - case_bool_decide as Hc.
    + subst c. simpl. rewrite IH. by rewrite <- app_assoc.
    + simpl. rewrite (bool_decide_eq_false_2 _ Hc). rewrite IH. by rewrite <- app_assoc.
Qed.

Lemma plain_not_special (c : N) :
  is_plain c = true →
  is_blank c = false ∧ is_operator_unit c = false ∧ c ≠ 39%N ∧ c ≠ 92%N.
Proof.
  intros Hc. unfold is_blank, is_operator_unit.
  split_and!; try apply bool_decide_eq_false; intros Hin;
    repeat (apply elem_of_cons in Hin as [->|Hin]; [by vm_compute in Hc|]);
    try (by apply elem_of_nil in Hin); subst c; by vm_compute in Hc.
Qed.

Lemma sh_tokens_plain (w x : jsstring) :
  forallb is_plain x = true → sh_tokens (InWord w) x = Some [Word (w ++ x)].
Proof.
  revert w. induction x as [|c x IH]; intros w; simpl; [by rewrite app_nil_r|].
  intros [Hc Hx]%andb_true_iff.
  destruct (plain_not_special c Hc) as (-> & -> & H1 & H2).
  rewrite (bool_decide_eq_false_2 _ H1), (bool_decide_eq_false_2 _ H2), Hc.
  rewrite IH by done. by rewrite <- app_assoc.
Qed.

Lemma sh_tokens_plain_word (x : jsstring) :
  plain_word x = true → sh_tokens Between x = Some [Word x].
Proof.
  destruct x as [|c x]; [done|]. simpl. intros [Hc Hx]%andb_true_iff.
  destruct (plain_not_special c Hc) as (-> & -> & H1 & H2).
  rewrite (bool_decide_eq_false_2 _ H1), (bool_decide_eq_false_2 _ H2), Hc.
  by rewrite sh_tokens_plain.
Qed.

(** C7, as the code has it.  [exec] hands the whole command, the escaped
    password in it, to a shell as its argument.  The shell reads the
    deletion command of a snapshot whose name is a plain word as a pipe of
    two commands: [printf] with the format and the password, unchanged
    whatever units it holds, as its arguments, and [sudo -S] with [tmutil],
    its verb and the snapshot as its arguments.  So sudo gets the password
    on its standard input and never as an argument.  The command of
    [verifyPassword] reads the same way. *)
Theorem password_piped_to_sudo (password snapshotDate : jsstring) :
  plain_word snapshotDate = true →
  exec_argv (deleteCommand password snapshotDate) =
    [lit "/bin/sh"; lit "-c"; deleteCommand password snapshotDate] ∧
  sh_tokens Between (deleteCommand password snapshotDate) =
    Some [Word (lit "printf"); Word (lit "%s\n"); Word password; Operator (lit "|");
          Word (lit "sudo"); Word (lit "-S"); Word (lit "/usr/bin/tmutil");
          Word (lit "deletelocalsnapshots"); Word snapshotDate] ∧
  sh_tokens Between (verifyCommand password) =
    Some [Word (lit "sudo"); Word (lit "-k"); Operator (lit "&&");
          Word (lit "printf"); Word (lit "%s\n"); Word password; Operator (lit "|");
          Word (lit "sudo"); Word (lit "-S"); Word (lit "-v"); Word (lit "2");
          Operator (lit ">&"); Word (lit "1")].
Proof.
  intros Hx. split_and!; [done| |].
  - unfold deleteCommand, escapedPassword. simpl.
    rewrite sh_tokens_escaped. simpl. by rewrite sh_tokens_plain_word.
  - unfold verifyCommand.
    change (lit "' | sudo -S -v 2>&1") with (39%N :: lit " | sudo -S -v 2>&1").
    simpl. rewrite sh_tokens_escaped. done.
Qed.

(** * The theorems on runs of two and three snapshots *)

Lemma bounded_concurrency_witness :
  ∃ s, batch_steps (lit "pw") [lit "a"; lit "b"; lit "c"] (Int 2)
         [Runner.Tick; Runner.Tick; Runner.Tick; Runner.Tick]
         (batch [lit "a"; lit "b"; lit "c"] (Int 2)) = Some s ∧
       Runner.count_in_flight s = 2 ∧
       ∃ k, Runner.pc s = Runner.AwaitRace k ∧ (Runner.JRace k ∉ Runner.queue s) ∧
            (Runner.JResume ∉ Runner.queue s).
Proof.
  eexists. split; [vm_compute; reflexivity|]. split; [vm_compute; reflexivity|].
  refine (proj1 (proj2 (bounded_concurrency (task (lit "pw") [lit "a"; lit "b"; lit "c"])
            (task_resume [lit "a"; lit "b"; lit "c"]) [lit "a"; lit "b"; lit "c"] (Int 2) 2
            (start [lit "a"; lit "b"; lit "c"])
            [Runner.Tick; Runner.Tick; Runner.Tick; Runner.Tick] _ _ _ _)) _);
    [reflexivity|lia|vm_compute; reflexivity|vm_compute; reflexivity].
Defined.

Lemma runner_resolves_witness :
  ∃ s, batch_steps (lit "pw") [lit "a"; lit "b"] (Int 2)
         (replicate 4 Runner.Tick ++ [Runner.Deliver 1 (ExecOk [])] ++ replicate 5 Runner.Tick ++
          [Runner.Deliver 0 denied] ++ replicate 4 Runner.Tick)
         (batch [lit "a"; lit "b"] (Int 2)) = Some s ∧
       Runner.quiescent s ∧
       ∃ rs, Runner.pc s = Runner.Resolved rs ∧ length rs = 2.
Proof.
  eexists. split; [vm_compute; reflexivity|].
  assert (Hq : ∀ s : Runner.state (T:=jsstring) (R:=unit) (U:=closure) (K:=jsstring),
            Runner.queue s = [] → forallb (λ t, negb (Runner.in_flight t)) (Runner.results s) = true →
            Runner.quiescent s).
  { intros s Hq Hall. split; [done|]. intros t Ht.
    rewrite forallb_forall in Hall. apply negb_true_iff, Hall. by apply list_elem_of_In. }
  split; [by apply Hq|].
  destruct (runner_resolves (task (lit "pw") [lit "a"; lit "b"]) (task_resume [lit "a"; lit "b"])
              [lit "a"; lit "b"] (Int 2) (start [lit "a"; lit "b"])
              (replicate 4 Runner.Tick ++ [Runner.Deliver 1 (ExecOk [])] ++
               replicate 5 Runner.Tick ++ [Runner.Deliver 0 denied] ++ replicate 4 Runner.Tick)
              _ ltac:(vm_compute; reflexivity)) as (_ & _ & _ & Hres & _).
  destruct Hres as (rs & Hpc & Hlen & _); [by apply Hq|]. by exists rs.
Defined.

Lemma no_limit_deadlocks_witness :
  batch [lit "a"; lit "b"] NaN =
  Runner.State (start [lit "a"; lit "b"])
    [Runner.JCall (lit "a") 0; Runner.JCall (lit "b") 1] 2 Runner.AwaitAll []
    [Runner.new_task; Runner.new_task] [] [None; None] ∧
  batch [lit "a"; lit "b"] (Int 0) =
  Runner.State (start [lit "a"; lit "b"])
    [Runner.JCall (lit "a") 0] 0 (Runner.AwaitRace 0) [0] [Runner.new_task] [[0]] [] ∧
  (∃ s, batch_steps (lit "pw") [lit "a"; lit "b"] (Int 0) [Runner.Tick; Runner.Tick]
          (batch [lit "a"; lit "b"] (Int 0)) = Some s ∧
        Runner.queue s = [] ∧
        ∃ s', Runner.step (task (lit "pw") [lit "a"; lit "b"]) (task_resume [lit "a"; lit "b"])
                [lit "a"; lit "b"] (Int 0) (Runner.Deliver 0 (ExecOk [])) s = Some s' ∧
              Runner.phases s' = [Runner.Fulfilled ()]) ∧
  (∃ s rs, batch_steps (lit "pw") [lit "a"; lit "b"] (Int 0)
             (replicate 2 Runner.Tick ++ [Runner.Deliver 0 (ExecOk [])] ++
              replicate 6 Runner.Tick ++ [Runner.Deliver 1 denied] ++ replicate 6 Runner.Tick)
             (batch [lit "a"; lit "b"] (Int 0)) = Some s ∧
           Runner.pc s = Runner.Resolved rs ∧ length rs = 2) ∧
  (∃ ls s rs, batch_steps (lit "pw") [lit "a"; lit "b"] (Int (-1)) ls
                (batch [lit "a"; lit "b"] (Int (-1))) = Some s ∧
              Runner.pc s = Runner.Resolved rs ∧
              ∀ i e, Runner.Deliver i e ∈ ls → e = denied).
Proof.
  assert (Hfn : ∀ (x : jsstring) (i : nat) (v v' : closure) (k : jsstring),
            task (lit "pw") [lit "a"; lit "b"] x i v = (v', Await k) → 0 < 1) by (intros; lia).
  assert (Hres : ∀ (k : jsstring) (e : execResult) (v v' : closure) (k' : jsstring),
            task_resume [lit "a"; lit "b"] k e v = (v', Await k') → 0 < 0)
    by (intros k e v v' k' H; destruct e; discriminate H).
  pose proof (no_limit_deadlocks (task (lit "pw") [lit "a"; lit "b"])
                (task_resume [lit "a"; lit "b"]) [lit "a"; lit "b"] NaN (λ _, 0) 1
                (start [lit "a"; lit "b"]) Hfn Hres) as (Hnan & _ & _).
  pose proof (no_limit_deadlocks (task (lit "pw") [lit "a"; lit "b"])
                (task_resume [lit "a"; lit "b"]) [lit "a"; lit "b"] (Int 0) (λ _, 0) 1
                (start [lit "a"; lit "b"]) Hfn Hres) as (_ & Hzero & Hrun).
  pose proof (no_limit_deadlocks (task (lit "pw") [lit "a"; lit "b"])
                (task_resume [lit "a"; lit "b"]) [lit "a"; lit "b"] (Int (-1)) (λ _, 0) 1
                (start [lit "a"; lit "b"]) Hfn Hres) as (_ & _ & Hneg).
  split_and!.
  - exact (proj2 (Hnan (or_introl eq_refl))).
  - refine (proj2 (proj2 (Hzero (or_intror (or_intror (ex_intro _ 0%Z (conj eq_refl _))))))
              _ _ eq_refl). lia.
  - eexists. split; [vm_compute; reflexivity|]. split; [reflexivity|].
    match goal with
    | |- ∃ s', Runner.step _ _ _ _ _ ?s = _ ∧ _ =>
        pose proof (Hrun [Runner.Tick; Runner.Tick] s ltac:(vm_compute; reflexivity))
          as (_ & _ & Hdel & _)
    end.
    destruct (Hdel 0 _ (lit "a") (ExecOk []) eq_refl eq_refl eq_refl) as (s' & Hs' & _ & Hph).
    exists s'. split; [exact Hs'|]. rewrite Hph. reflexivity.
  - eexists. eexists. split; [vm_compute; reflexivity|].
    match goal with
    | |- Runner.pc ?s = _ ∧ _ =>
        pose proof (Hrun (replicate 2 Runner.Tick ++ [Runner.Deliver 0 (ExecOk [])] ++
                          replicate 6 Runner.Tick ++ [Runner.Deliver 1 denied] ++
                          replicate 6 Runner.Tick) s ltac:(vm_compute; reflexivity))
          as (_ & _ & _ & _ & Hres' & _)
    end.
    split; [reflexivity|]. exact (proj1 (Hres' _ eq_refl)).
  - destruct (Hneg [] _ eq_refl) as (_ & _ & _ & _ & _ & _ & Hend).
    destruct (Hend (λ _ _, denied)) as (ls & s & rs & Hls & Hrs & Hd).
    exists ls, s, rs. split_and!; [exact Hls|exact Hrs|].
    intros i e Hin. destruct (Hd i e Hin) as [k ->]. reflexivity.
Defined.

(** C2 fails as it is stated: with two snapshots and a limit of two, the
    command of the second snapshot ends first and its result is pushed
    first. *)
Lemma results_in_completion_order :
  ∃ e, deleteSnapshots (lit "pw") [lit "a"; lit "b"] true (Some (lit "2")) e ∧
       concurrencyLimit (Some (lit "2")) = Int 2 ∧
       snapshot <$> outcomes e = [lit "b"; lit "a"] ∧
       snapshot <$> outcomes e ≠ [lit "a"; lit "b"].
Proof.
  eexists. split.
  - eapply (delete_finished _ _ _ _
              (replicate 4 Runner.Tick ++ [Runner.Deliver 1 (ExecOk [])] ++
               replicate 5 Runner.Tick ++ [Runner.Deliver 0 (ExecOk [])] ++
               replicate 4 Runner.Tick));
      [done|done|vm_compute; reflexivity|reflexivity].
  - split_and!; [reflexivity|reflexivity|discriminate].
Qed.

Lemma one_result_per_snapshot_witness :
  ∃ e, deleteSnapshots (lit "pw") [lit "a"; lit "b"] true (Some (lit "2")) e ∧
       snapshot <$> outcomes e ≡ₚ [lit "a"; lit "b"] ∧
       length (outcomes e) = 2 ∧
       ∃ s, batch_steps (lit "pw") [lit "a"; lit "b"] (Int 2)
              (replicate 4 Runner.Tick ++ [Runner.Deliver 1 (ExecOk [])] ++
               replicate 5 Runner.Tick ++ [Runner.Deliver 0 denied] ++
               replicate 4 Runner.Tick)
              (batch [lit "a"; lit "b"] (Int 2)) = Some s ∧
            Runner.completion_order (task (lit "pw") [lit "a"; lit "b"])
              (task_resume [lit "a"; lit "b"]) [lit "a"; lit "b"] (Int 2)
              (replicate 4 Runner.Tick ++ [Runner.Deliver 1 (ExecOk [])] ++
               replicate 5 Runner.Tick ++ [Runner.Deliver 0 denied] ++
               replicate 4 Runner.Tick)
              (batch [lit "a"; lit "b"] (Int 2)) = [1; 0] ∧
            snapshot <$> results (Runner.user s) = [lit "b"; lit "a"].
Proof.
  eexists. split.
  - eapply (delete_finished _ _ _ _
              (replicate 4 Runner.Tick ++ [Runner.Deliver 1 (ExecOk [])] ++
               replicate 5 Runner.Tick ++ [Runner.Deliver 0 denied] ++
               replicate 4 Runner.Tick));
      [done|done|vm_compute; reflexivity|reflexivity].
  - match goal with
    | |- snapshot <$> outcomes ?e ≡ₚ _ ∧ _ =>
        pose proof (one_result_per_snapshot (lit "pw") [lit "a"; lit "b"] (Some (lit "2")) e
                      ltac:(eapply (delete_finished _ _ _ _
                              (replicate 4 Runner.Tick ++ [Runner.Deliver 1 (ExecOk [])] ++
                               replicate 5 Runner.Tick ++ [Runner.Deliver 0 denied] ++
                               replicate 4 Runner.Tick));
                            [done|done|vm_compute; reflexivity|reflexivity]))
          as (H1 & H2 & _ & _ & H5)
    end.
    split; [exact H1|]. split; [exact H2|].
    eexists. split; [vm_compute; reflexivity|]. split; [vm_compute; reflexivity|].
    match goal with
    | |- snapshot <$> results (Runner.user ?s) = _ =>
        etrans; [exact (proj1 (H5 (Int 2)
                           (replicate 4 Runner.Tick ++ [Runner.Deliver 1 (ExecOk [])] ++
                            replicate 5 Runner.Tick ++ [Runner.Deliver 0 denied] ++
                            replicate 4 Runner.Tick) s ltac:(vm_compute; reflexivity)))|]
    end.
    vm_compute. reflexivity.
Defined.

Lemma summary_classification_witness :
  ∃ e, deleteSnapshots (lit "pw") [lit "a"; lit "b"] true (Some (lit "2")) e ∧
       classify (outcomes e) = Partial ∧
       finalToast e =
       Some (Toast Failure (lit "Partially completed") (lit "1 deleted, 1 failed")).
Proof.
  eexists. split.
  - eapply (delete_finished _ _ _ _
              (replicate 4 Runner.Tick ++ [Runner.Deliver 1 (ExecOk [])] ++
               replicate 5 Runner.Tick ++ [Runner.Deliver 0 denied] ++
               replicate 4 Runner.Tick));
      [done|done|vm_compute; reflexivity|reflexivity].
  - split; [vm_compute; reflexivity|].
    match goal with
    | |- finalToast ?e = _ =>
        pose proof (summary_classification (lit "pw") [lit "a"; lit "b"] (Some (lit "2")) e
                      ltac:(eapply (delete_finished _ _ _ _
                              (replicate 4 Runner.Tick ++ [Runner.Deliver 1 (ExecOk [])] ++
                               replicate 5 Runner.Tick ++ [Runner.Deliver 0 denied] ++
                               replicate 4 Runner.Tick));
                            [done|done|vm_compute; reflexivity|reflexivity]))
          as (_ & _ & _ & _ & _ & t & Ht & Hc)
    end.
    transitivity (Some t); [exact Ht|]. f_equal. vm_compute in Hc. exact Hc.
Defined.


Lemma blank_password_rejected_witness :
  forallb isWhiteSpace (lit "   ") = true ∧
  commands (handleSubmit (λ _, ExecOk []) (Form (lit "   ") false None)) = [] ∧
  onSubmit (handleSubmit (λ _, ExecOk []) (Form (lit "   ") false None)) = None.
Proof.
  split; [reflexivity|].
  rewrite (blank_password_rejected (λ _, ExecOk []) (Form (lit "   ") false None) eq_refl).
  split; reflexivity.
Defined.

(** C6 fails as it is stated: a preference that is no number gives [NaN],
    and a number outside 1-5 is kept. *)
Lemma concurrency_not_clamped :
  concurrencyLimit (Some (lit "abc")) = NaN ∧
  concurrencyLimit (Some (lit "100")) = Int 100 ∧
  concurrencyLimit (Some (lit "0")) = Int 0 ∧
  concurrencyLimit (Some (lit "-2")) = Int (-2).
Proof. split_and!; reflexivity. Qed.

(** Above [2^53] the limit is the double nearest to the integer written,
    a tie going to the even significand, and an infinity from
    [2^1024 - 2^970] on. *)
Lemma concurrency_rounded :
  concurrencyLimit (Some (lit "9007199254740993")) = Int 9007199254740992 ∧
  concurrencyLimit (Some (lit "9007199254740995")) = Int 9007199254740996 ∧
  concurrencyLimit (Some (lit "-9007199254740993")) = Int (-9007199254740992) ∧
  concurrencyLimit (Some (lit "179769313486231580793728971405303415079934132710037826936173778980444968292764750946649017977587207096330286416692887910946555547851940402630657488671505820681908902000708383676273854845817711531764475730270069855571366959622842914819860834936475292719074168444365510704342711559699508093042880177904174497791")) = Int (2 ^ 1024 - 2 ^ 971) ∧
  concurrencyLimit (Some (lit "179769313486231580793728971405303415079934132710037826936173778980444968292764750946649017977587207096330286416692887910946555547851940402630657488671505820681908902000708383676273854845817711531764475730270069855571366959622842914819860834936475292719074168444365510704342711559699508093042880177904174497792")) = Infinity.
Proof. split_and!; by vm_compute. Qed.

(** C7 fails as it is stated: the password is part of an argument of the
    shell that [exec] starts. *)
Lemma password_in_shell_argv :
  exec_argv (deleteCommand (lit "hunter2") (lit "2024-01-13-120000")) !! 2 =
    Some (lit "printf '%s\n' 'hunter2' | sudo -S /usr/bin/tmutil deletelocalsnapshots 2024-01-13-120000") ∧
  (∃ arg, arg ∈ exec_argv (deleteCommand (lit "hunter2") (lit "2024-01-13-120000")) ∧
          includes arg (lit "hunter2") = true) ∧
  (∃ arg, arg ∈ exec_argv (verifyCommand (lit "hunter2")) ∧
          includes arg (lit "hunter2") = true).
Proof.
  split_and!; [reflexivity| |].
  - eexists. split; [apply list_elem_of_lookup; by exists 2|reflexivity].
  - eexists. split; [apply list_elem_of_lookup; by exists 2|reflexivity].
Qed.

Lemma password_piped_to_sudo_witness :
  plain_word (lit "2024-01-13-120000") = true ∧
  sh_tokens Between (deleteCommand (lit "it's") (lit "2024-01-13-120000")) =
    Some [Word (lit "printf"); Word (lit "%s\n"); Word (lit "it's"); Operator (lit "|");
          Word (lit "sudo"); Word (lit "-S"); Word (lit "/usr/bin/tmutil");
          Word (lit "deletelocalsnapshots"); Word (lit "2024-01-13-120000")].
Proof.
  split; [reflexivity|].
  exact (proj1 (proj2 (password_piped_to_sudo (lit "it's") (lit "2024-01-13-120000") eq_refl))).
Defined.

(** C4: the counter misses the snapshots that are skipped.  With two
    snapshots and a limit of one, sudo refuses the password for the first;
    the second is skipped.  When the runner is resolved and nothing is left
    to happen, both results are there and the counter stands at one of
    two. *)
Theorem skipped_snapshots_not_counted :
  ∃ s, batch_steps (lit "pw") [lit "a"; lit "b"] (concurrencyLimit (Some (lit "1")))
         ([Runner.Tick; Runner.Tick; Runner.Deliver 0 denied] ++ replicate 12 Runner.Tick)
         (batch [lit "a"; lit "b"] (concurrencyLimit (Some (lit "1")))) = Some s ∧
       Runner.pc s = Runner.Resolved [(); ()] ∧ Runner.queue s = [] ∧
       Runner.phases s = [Runner.Fulfilled (); Runner.Fulfilled ()] ∧
       results (Runner.user s) =
         [Result (lit "a") false (Some (lit "Sorry, try again."));
          Result (lit "b") false (Some skippedError)] ∧
       completedCount (Runner.user s) = 1 ∧
       size [lit "a"; lit "b"] = 2 ∧
       toastMessage (Runner.user s) = lit "1/2 completed".
Proof. eexists. split; [vm_compute; reflexivity|]. split_and!; reflexivity. Qed.

(** * The calls of the task function *)

Section RunnerCalls.
Context {T R U E K : Type}.
Context (fn : T → nat → U → U * outcome K R) (resume : K → E → U → U * outcome K R).
Context (items : list T) (limit : jsnum).
Import Runner.

#[local] Abbreviation state := (@Runner.state T R U K).
#[local] Abbreviation job := (@Runner.job T R).
#[local] Abbreviation step := (@Runner.step T R U E K fn resume items limit).
#[local] Abbreviation steps := (@Runner.steps T R U E K fn resume items limit).
#[local] Abbreviation reachable := (@Runner.reachable T R U E K fn resume items limit).
#[local] Abbreviation inv := (@Runner.inv T R U K items limit).
#[local] Abbreviation phases := (@Runner.phases T R U K).
#[local] Abbreviation gate := (@Runner.gate T items limit).

Lemma reaction_of_called (o : outcome K R) : reaction_of o ≠ NotCalled.
Proof. by destruct o. Qed.

(** [fn] is called for an item at most once, with the item and its index,
    and only by the job queued for it; the promise it returns goes from
    pending to fulfilled and never back, and a value it is fulfilled with is
    never replaced.  Nothing but the call of [fn] and the completion of what
    it awaits touches the variables [fn] has captured. *)
Theorem fn_called_once (u : U) (ls : list label) (s s' : state) (l : label) :
  steps ls (runWithConcurrencyLimit items limit u) = Some s →
  step l s = Some s' →
  (∀ x i q, queue s = JCall x i :: q →
            items !! i = Some x ∧ phases s !! i = Some NotCalled ∧
            ∃ o, fn x i (user s) = (user s', o) ∧ phases s' !! i = Some (reaction_of o)) ∧
  (∀ i f, phases s !! i = Some f → f ≠ NotCalled →
          ∃ f', phases s' !! i = Some f' ∧ f' ≠ NotCalled) ∧
  (∀ i r, phases s !! i = Some (Fulfilled r) → phases s' !! i = Some (Fulfilled r)) ∧
  (user s' = user s ∨ (∃ x i q, queue s = JCall x i :: q) ∨ ∃ i e, l = Deliver i e).
Proof.
  intros Hls Hs.
  assert (Hinv : inv s) by (apply (reachable_inv fn resume _ _ u); by exists ls).
  destruct (step_effect _ _ _ _ _ _ _ Hinv Hs)
    as [n Hu Hp Hl Hcall|x i o q Hl Hq Hi Hx Hfn Hp|i k e o Hl Hq Hi Hres Hp]; rewrite Hp.
  - split_and!.
    + intros x i q Hq. by destruct (Hcall x i q).
    + intros i f Hf Hne. exists f. split; [|done]. by apply lookup_app_l_Some.
    + intros i r Hf. by apply lookup_app_l_Some.
    + by left.
  - assert (Hlt : i < length (phases s)) by by eapply lookup_lt_Some.
    split_and!.
    + intros x' i' q'. rewrite Hq. intros [= <- <- <-]. split_and!; [done..|].
      exists o. split; [done|]. by rewrite list_lookup_insert_eq.
    + intros j f Hf Hne. exists f. split; [|done].
      rewrite list_lookup_insert_ne; [done|]. intros ->. congruence.
    + intros j r Hf. rewrite list_lookup_insert_ne; [done|]. intros ->. congruence.
    + right. left. by exists x, i, q.
  - assert (Hlt : i < length (phases s)) by by eapply lookup_lt_Some.
    split_and!.
    + intros x' i' q'. by rewrite Hq.
    + intros j f Hf Hne. destruct (decide (i = j)) as [<-|Hij].
      * exists (reaction_of o). rewrite list_lookup_insert_eq by done.
        split; [done|]. apply reaction_of_called.
      * exists f. by rewrite list_lookup_insert_ne.
    + intros j r Hf. rewrite list_lookup_insert_ne; [done|]. intros ->. congruence.
    + right. right. by exists i, e.
Qed.

(** [executing.indexOf(executePromise)] never answers -1: when the reaction
    that removes an [executePromise] from [executing] runs, the promise is in
    the array, once; the [splice] removes it and nothing else. *)
Theorem splice_removes_own_promise (u : U) (ls : list label) (s s' : state) i q :
  steps ls (runWithConcurrencyLimit items limit u) = Some s →
  queue s = JSplice i :: q →
  step Tick s = Some s' →
  is_Some (indexOf i (executing s)) ∧
  NoDup (executing s) ∧
  S (length (executing s')) = length (executing s) ∧
  ∀ j, j ∈ executing s' ↔ j ∈ executing s ∧ j ≠ i.
Proof.
  intros Hls Hq Hs.
  assert (Hinv : inv s) by (apply (reachable_inv fn resume _ _ u); by exists ls).
  destruct Hinv as [Hc _].
  destruct (expected_head _ _ _ _ _ i Hc Hq eq_refl) as (x & t & Hx & Ht & Hg & Hp & He).
  pose proof (core_exec _ _ _ Hc) as Hex. unfold executing_ok in Hex.
  fold gate in Hg, Hex. rewrite Hg in Hex.
  destruct Hex as [Hnd Hin].
  assert (Hi : i ∈ executing s) by (apply Hin; eauto).
  destruct (splice_indexOf_spec i _ Hnd Hi) as (_ & H2 & H3).
  simpl in Hs. rewrite Hq in Hs. injection Hs as <-. simpl.
  split_and!; [|done..].
  unfold indexOf. destruct (list_find_elem_of (λ j, j = i) (executing s) i Hi eq_refl) as [[n y] ->].
  by eexists.
Qed.

End RunnerCalls.

(** * The order of the calls *)

Section RunnerOrder.
Context {T R U E K : Type}.
Context (fn : T → nat → U → U * outcome K R) (resume : K → E → U → U * outcome K R).
Context (items : list T) (limit : jsnum).
Import Runner.

#[local] Abbreviation state := (@Runner.state T R U K).
#[local] Abbreviation job := (@Runner.job T R).
#[local] Abbreviation step := (@Runner.step T R U E K fn resume items limit).
#[local] Abbreviation steps := (@Runner.steps T R U E K fn resume items limit).
#[local] Abbreviation loop := (@Runner.loop T R U K items limit).
#[local] Abbreviation run_job := (@Runner.run_job T R U K fn items limit).
#[local] Abbreviation inv := (@Runner.inv T R U K items limit).
#[local] Abbreviation phases := (@Runner.phases T R U K).
#[local] Abbreviation gate := (@Runner.gate T items limit).
#[local] Abbreviation in_order := (@calls_in_order T R U K).

Ltac unfold_state :=
  unfold Runner.alter_task, Runner.set_pc, Runner.enqueue, Runner.set_races,
    Runner.set_user, Runner.set_index, Runner.set_executing, Runner.set_results,
    Runner.set_values in *;
  simpl in *.

Lemma seq_join a b c : a ≤ b → b ≤ c → seq a (b - a) ++ seq b (c - b) = seq a (c - a).
Proof.
  intros Hab Hbc. replace (c - a) with ((b - a) + (c - b)) by lia.
  rewrite seq_app. do 2 f_equal. lia.
Qed.

Lemma call_indices_app (q q' : list job) :
  call_indices (q ++ q') = call_indices q ++ call_indices q'.
Proof. apply omap_app. Qed.

Lemma call_indices_none (q : list job) :
  (∀ j, j ∈ q → call_index j = None) → call_indices q = [].
Proof.
  induction q as [|j q IH]; intros Hq; [done|]. unfold call_indices. simpl.
  rewrite (Hq j) by by left. apply IH. intros j' Hj'. apply Hq. by right.
Qed.

Lemma call_indices_ready n (ts : list (@Runner.task R K)) :
  call_indices (ready_elements n ts : list job) = [].
Proof.
  revert n. induction ts as [|t ts IH]; intros n; simpl; [done|].
  destruct (promise t); simpl; apply IH.
Qed.

Lemma call_indices_races i k (rs : list (list nat)) :
  call_indices (race_reactions i k rs : list job) = [].
Proof.
  revert k. induction rs as [|m rs IH]; intros k; simpl; [done|].
  case_bool_decide; simpl; apply IH.
Qed.

Lemma call_indices_map_race k (l : list nat) :
  call_indices (map (λ _, JRace k) l : list job) = [].
Proof. induction l; simpl; done. Qed.

(** What the [for] loop queues: a call for every task it creates. *)
Lemma loop_calls rest (s : state) :
  index s = length (results s) →
  ∃ js, queue (loop rest s) = queue s ++ js ∧
        length (results s) ≤ length (results (loop rest s)) ∧
        call_indices js =
        seq (length (results s)) (length (results (loop rest s)) - length (results s)).
Proof.
  revert s. induction rest as [|x rest IH]; intros s Hix.
  - simpl. exists (ready_elements 0 (results s)).
    assert (Hq : queue (promise_all s) = queue s ++ ready_elements 0 (results s))
      by (unfold promise_all; destruct (results s); unfold_state; done).
    assert (Hr : results (promise_all s) = results s)
      by (unfold promise_all; destruct (results s) eqn:Hr'; unfold_state; by rewrite ?Hr').
    rewrite Hq, Hr, call_indices_ready, Nat.sub_diag. done.
  - assert (Hnext : ∀ s1 : state,
              queue s1 = queue s ++ [JCall x (index s)] →
              results s1 = results s ++ [new_task] →
              index s1 = S (index s) →
              ∃ js, queue (loop rest s1) = queue s ++ js ∧
                    length (results s) ≤ length (results (loop rest s1)) ∧
                    call_indices js =
                    seq (length (results s))
                        (length (results (loop rest s1)) - length (results s))).
    { intros s1 Hq Hr Hi. destruct (IH s1) as (js & Hjs & Hlen & Hcalls).
      { rewrite Hi, Hr, length_app. simpl. lia. }
      rewrite Hr, length_app in Hlen, Hcalls. simpl in Hlen, Hcalls.
      exists (JCall x (index s) :: js). split_and!.
      - rewrite Hjs, Hq, <- app_assoc. done.
      - lia.
      - change (call_indices (JCall x (index s) :: js)) with (index s :: call_indices js).
        rewrite Hcalls, Hix.
        replace (length (results (loop rest s1)) - length (results s))
          with (S (length (results (loop rest s1)) - (length (results s) + 1))) by lia.
        simpl. by rewrite Nat.add_1_r. }
    simpl. destruct (Runner.gate items limit).
    + destruct (js_ge _ limit).
      * unfold await_race. unfold_state.
        eexists. split_and!; [by rewrite <- app_assoc|rewrite length_app; lia|].
        rewrite call_indices_app, call_indices_map_race, length_app. simpl.
        rewrite Hix. replace (length (results s) + 1 - length (results s)) with 1 by lia.
        done.
      * by apply Hnext.
    + by apply Hnext.
Qed.

Lemma in_order_step (l : label) (s s' : state) :
  inv s → in_order s → step l s = Some s' → in_order s'.
Proof.
  intros [Hc Hf] (a & Ha & Hcalls) Hs. destruct l as [|i e]; simpl in Hs.
  - destruct s as [u [|j q] ix p ex ts rs vs]; simpl in *; [done|]. injection Hs as <-.
    unfold call_indices in Hcalls. simpl in Hcalls.
    destruct j; simpl in *.
    + (* JCall *)
      destruct (length ts - a) as [|n] eqn:Hn; [done|]. simpl in Hcalls.
      injection Hcalls as -> Hq. destruct (fn item a u) as [u' o]. unfold_state.
      exists (S a). simpl. rewrite length_alter. split; [lia|].
      rewrite call_indices_app. unfold call_indices at 1. rewrite Hq. simpl.
      rewrite app_nil_r. f_equal. lia.
    + (* JAdopt *)
      exists a. destruct (fnPromise <$> ts !! i) as [[]|]; unfold_state; simpl;
        rewrite ?length_alter, ?call_indices_app; (split; [done|]);
        unfold call_indices at 1; rewrite Hcalls; simpl; by rewrite ?app_nil_r.
    + (* JSettle *)
      exists a. unfold_state. simpl. rewrite length_alter, call_indices_app. split; [done|].
      unfold call_indices at 1. rewrite Hcalls.
      rewrite (call_indices_none (_ ++ _)); [by rewrite app_nil_r|].
      intros j Hj. destruct (Runner.gate items limit), p; set_unfold; naive_solver.
    + (* JSplice *)
      exists a. unfold_state. simpl. rewrite length_alter, call_indices_app, call_indices_races.
      split; [done|]. unfold call_indices. by rewrite Hcalls, app_nil_r.
    + (* JRace *)
      exists a. destruct p as [k'| | |]; try by (simpl; split; [done|]).
      case_bool_decide; unfold_state; simpl; [|by split].
      split; [done|]. rewrite call_indices_app. unfold call_indices at 1. rewrite Hcalls.
      by rewrite app_nil_r.
    + (* JResume *)
      assert (Hp : p = Resuming).
      { pose proof (core_sound _ _ _ Hc JResume) as H. simpl in H. apply H. by left. }
      subst p. simpl in Hf. destruct Hf as (Hlen & _).
      destruct (loop_calls (drop (S ix) items) (State u q (S ix) Resuming ex ts rs vs))
        as (js & Hjs & Hle & Hcj); [done|]. simpl in *.
      unfold Runner.set_index. simpl. exists a. split; [lia|].
      rewrite Hjs, call_indices_app, Hcj.
      unfold call_indices at 1. rewrite Hcalls.
      by apply seq_join.
    + (* JElement *)
      exists a. destruct (collect _); simpl; by split.
  - apply deliver_Some in Hs as (t & k & Hq & Ht & Hfp & Hs').
    rewrite Hq in Hcalls. unfold call_indices in Hcalls. simpl in Hcalls.
    assert (a = length (results s)) as ->.
    { destruct (length (results s) - a) eqn:Hn; [lia|done]. }
    destruct (resume k e (user s)) as [u' o]. subst s'.
    exists (length (results s)). destruct o as [k'|r]; [|destruct (adopted t)]; unfold_state;
      rewrite ?length_insert, ?Hq, Nat.sub_diag; by split.
Qed.

Lemma in_order_init (u : U) : in_order (runWithConcurrencyLimit items limit u).
Proof.
  unfold runWithConcurrencyLimit.
  destruct (loop_calls items (State u [] 0 Resuming [] [] [] [])) as (js & Hjs & Hle & Hc);
    [done|]. simpl in *.
  exists 0. split; [lia|]. rewrite Hjs. simpl. by rewrite Hc.
Qed.

Lemma in_order_steps (ls : list label) (s s' : state) :
  inv s → in_order s → steps ls s = Some s' → inv s' ∧ in_order s'.
Proof.
  revert s. induction ls as [|l ls IH]; intros s Hinv Ho; simpl; [by intros [= <-]|].
  destruct (step l s) as [s1|] eqn:Hs; [|done]. apply IH.
  - by eapply inv_step.
  - by eapply in_order_step.
Qed.

(** The tasks are called in the order of the items: when the call of [fn]
    for an item runs, [fn] has been called for every item before it, and in
    no state of a run has a task been called while the task of an earlier
    item has not. *)
Theorem tasks_called_in_order (u : U) (ls : list label) (s : state) :
  steps ls (runWithConcurrencyLimit items limit u) = Some s →
  (∀ x i q, queue s = JCall x i :: q →
            ∀ i', i' < i → ∃ f, phases s !! i' = Some f ∧ f ≠ NotCalled) ∧
  (∀ i i' f, i' < i → phases s !! i = Some f → f ≠ NotCalled →
             ∃ f', phases s !! i' = Some f' ∧ f' ≠ NotCalled).
Proof.
  intros Hls.
  destruct (in_order_steps _ _ _ (inv_init fn items limit u) (in_order_init u) Hls)
    as [[Hc Hf] (a & Ha & Hcalls)].
  assert (Hcalled : ∀ i, i < a → ∃ f, phases s !! i = Some f ∧ f ≠ NotCalled).
  { intros i Hi. destruct (lookup_lt_is_Some_2 (results s) i) as [t Ht]; [lia|].
    exists (fnPromise t). unfold Runner.phases. rewrite list_lookup_fmap, Ht. split; [done|].
    intros Hnc.
    assert (Hx : ∃ x, items !! i = Some x).
    { apply lookup_lt_is_Some. pose proof (core_len _ _ _ Hc). lia. }
    destruct Hx as [x Hx].
    assert (Hin : JCall x i ∈ queue s).
    { apply (core_live _ _ _ Hc); [by eexists|]. unfold expected. simpl.
      exists x, t. by split_and!. }
    assert (Hi' : i ∈ call_indices (queue s)).
    { unfold call_indices. apply list_elem_of_omap. by exists (JCall x i). }
    rewrite Hcalls in Hi'. apply elem_of_seq in Hi'. lia. }
  assert (Hwaiting : ∀ i x, JCall x i ∈ queue s → a ≤ i).
  { intros i x Hin.
    assert (Hi' : i ∈ call_indices (queue s)).
    { unfold call_indices. apply list_elem_of_omap. by exists (JCall x i). }
    rewrite Hcalls in Hi'. apply elem_of_seq in Hi'. lia. }
  split.
  - intros x i q Hq i' Hi'. apply Hcalled.
    assert (a = i); [|lia].
    rewrite Hq in Hcalls. unfold call_indices in Hcalls. simpl in Hcalls.
    destruct (length (results s) - a); simpl in Hcalls; congruence.
  - intros i i' f Hi' Hph Hne. apply Hcalled.
    destruct (decide (a ≤ i)) as [Hai|]; [|lia]. exfalso.
    unfold Runner.phases in Hph. rewrite list_lookup_fmap in Hph.
    destruct (results s !! i) as [t|] eqn:Ht; [|done]. injection Hph as <-.
    assert (Hi2 : i ∈ call_indices (queue s)).
    { rewrite Hcalls. apply elem_of_seq. apply lookup_lt_Some in Ht. lia. }
    unfold call_indices in Hi2. apply list_elem_of_omap in Hi2 as (j & Hj & Hji).
    destruct j; try done. injection Hji as ->.
    apply (core_sound _ _ _ Hc) in Hj. unfold expected in Hj. simpl in Hj.
    destruct Hj as (x & t' & _ & Ht' & _ & Hnc). congruence.
Qed.

End RunnerOrder.

(** * A limit of one *)

Section RunnerSequential.
Context {T R U E K : Type}.
Context (fn : T → nat → U → U * outcome K R) (resume : K → E → U → U * outcome K R).
Context (items : list T) (limit : jsnum).
Import Runner.

#[local] Abbreviation state := (@Runner.state T R U K).
#[local] Abbreviation job := (@Runner.job T R).
#[local] Abbreviation task := (@Runner.task R K).
#[local] Abbreviation step := (@Runner.step T R U E K fn resume items limit).
#[local] Abbreviation steps := (@Runner.steps T R U E K fn resume items limit).
#[local] Abbreviation loop := (@Runner.loop T R U K items limit).
#[local] Abbreviation inv := (@Runner.inv T R U K items limit).
#[local] Abbreviation bounded := (@Runner.bounded T R U K).
#[local] Abbreviation phases := (@Runner.phases T R U K).
#[local] Abbreviation gate := (@Runner.gate T items limit).
#[local] Abbreviation new_task := (@Runner.new_task R K).
#[local] Abbreviation initial := (@Runner.runWithConcurrencyLimit T R U K items limit).

Ltac unfold_state :=
  unfold Runner.alter_task, Runner.set_pc, Runner.enqueue, Runner.set_races,
    Runner.set_user, Runner.set_index, Runner.set_executing, Runner.set_results,
    Runner.set_values in *;
  simpl in *.

Lemma one_at_a_time_alter (f : task → task) i (ts : list task) :
  (∀ t, executeSettled t = true → executeSettled (f t) = true) →
  one_at_a_time ts → one_at_a_time (alter f i ts).
Proof.
  intros Hf Hts j t. rewrite list_lookup_alter, length_alter.
  destruct (decide (i = j)) as [->|Hne].
  - destruct (ts !! j) as [t0|] eqn:Ht0; simpl; [|done]. intros [= <-] Hj.
    apply Hf. by apply (Hts j).
  - apply Hts.
Qed.

Lemma one_at_a_time_insert (t' : task) i (ts : list task) :
  one_at_a_time ts → (∀ t, ts !! i = Some t → executeSettled t = true → executeSettled t' = true) →
  one_at_a_time (<[i:=t']> ts).
Proof.
  intros Hts Hf j t. rewrite length_insert.
  destruct (decide (i = j)) as [->|Hne].
  - intros Hl Hj. assert (Hlt : j < length ts) by lia.
    rewrite list_lookup_insert_eq in Hl by done. injection Hl as <-.
    destruct (lookup_lt_is_Some_2 ts j Hlt) as [t0 Ht0]. apply (Hf t0 Ht0). by apply (Hts j).
  - rewrite list_lookup_insert_ne by done. apply Hts.
Qed.

(** With a limit of one the [for] loop creates one task and waits. *)
Lemma loop_sequential rest (s : state) :
  gate = true → limit = Int 1 → executing s = [] →
  results (loop rest s) = results s ++ match rest with [] => [] | _ :: _ => [new_task] end.
Proof.
  intros Hg Hl Hex. destruct rest as [|x rest]; simpl.
  - unfold promise_all. rewrite app_nil_r. destruct (results s) eqn:Hr; unfold_state; by rewrite ?Hr.
  - fold gate. rewrite Hg. unfold_state. rewrite Hex, Hl. simpl. done.
Qed.

Lemma one_at_a_time_step (l : label) (s s' : state) :
  limit = Int 1 →
  inv s → bounded 1 s → one_at_a_time (results s) → step l s = Some s' →
  one_at_a_time (results s').
Proof.
  intros Hl [Hc Hf] Hb Hone Hs. destruct l as [|i e]; simpl in Hs.
  - destruct s as [u [|j q] ix p ex ts rs vs]; simpl in *; [done|]. injection Hs as <-.
    destruct j; simpl.
    + destruct (fn item i u). unfold_state. by apply one_at_a_time_alter.
    + destruct (fnPromise <$> ts !! i) as [[]|]; unfold_state; by apply one_at_a_time_alter.
    + unfold_state. by apply one_at_a_time_alter.
    + unfold_state. by apply one_at_a_time_alter.
    + destruct p as [k'| | |]; try done. by destruct (bool_decide (k = k')).
    + assert (Hp : p = Resuming).
      { pose proof (core_sound _ _ _ Hc JResume) as H. simpl in H. apply H. by left. }
      subst p. unfold Runner.bounded in Hb. simpl in Hf, Hb. destruct Hf as (Hlen & _).
      assert (Hex : ex = []) by (destruct ex; [done|simpl in Hb; lia]). subst ex.
      pose proof (core_exec _ _ _ Hc) as He. unfold executing_ok in He. simpl in He.
      assert (Hg : gate = true).
      { destruct gate eqn:Hg; [done|]. exfalso.
        pose proof (gate_false_small items limit 1 Hl Hg).
        pose proof (core_len _ _ _ Hc). simpl in *. lia. }
      fold gate in He. rewrite Hg in He. destruct He as [_ He].
      unfold Runner.set_index. simpl.
      rewrite (loop_sequential _ (State u q (S ix) Resuming [] ts rs vs) Hg Hl eq_refl). simpl.
      assert (Hall : ∀ i t, ts !! i = Some t → executeSettled t = true).
      { intros i t Ht. destruct (executeSettled t) eqn:Hes; [done|].
        assert (i ∈ ([] : list nat)) as Hin by (apply He; eauto). by apply elem_of_nil in Hin. }
      intros i t Ht Hi. destruct (drop (S ix) items).
      * rewrite app_nil_r in Ht. by apply (Hall i).
      * apply lookup_app_Some in Ht as [Ht|[Hge Ht]]; [by apply (Hall i)|].
        rewrite length_app in Hi. simpl in Hi.
        apply lookup_lt_Some in Ht. simpl in Ht. lia.
    + by destruct (collect _).
  - apply deliver_Some in Hs as (t & k & Hq & Ht & Hfp & Hs').
    destruct (resume k e (user s)) as [u' o]. subst s'.
    assert (Hwf : executeSettled t = false).
    { apply (in_flight_unsettled items limit); [by apply (core_wf _ _ _ Hc i)|].
      unfold in_flight. by rewrite Hfp. }
    destruct o as [k'|r]; [|destruct (adopted t)]; unfold_state;
      apply one_at_a_time_insert; try done; intros t0 Ht0; congruence.
Qed.

Lemma steps_snoc (ls : list label) (l : label) (s s' : state) :
  steps (ls ++ [l]) s = Some s' ↔ ∃ s0, steps ls s = Some s0 ∧ step l s0 = Some s'.
Proof.
  revert s. induction ls as [|l' ls IH]; intros s.
  - change (steps ([] ++ [l]) s) with (match step l s with Some s1 => Some s1 | None => None end).
    change (steps [] s) with (Some s). split.
    + intros Hs. exists s. split; [done|]. by destruct (step l s).
    + intros (s0 & [= <-] & ->). done.
  - change (steps ((l' :: ls) ++ [l]) s)
      with (match step l' s with Some s1 => steps (ls ++ [l]) s1 | None => None end).
    change (steps (l' :: ls) s)
      with (match step l' s with Some s1 => steps ls s1 | None => None end).
    destruct (step l' s) as [s1|]; [apply IH|]. split; [done|]. by intros (s0 & ? & _).
Qed.

Lemma one_at_a_time_init (u : U) :
  limit = Int 1 → one_at_a_time (results (initial u)).
Proof.
  intros Hl. unfold Runner.runWithConcurrencyLimit. destruct gate eqn:Hg.
  - rewrite (loop_sequential _ (State u [] 0 Resuming [] [] [] []) Hg Hl eq_refl). simpl.
    intros i t Ht Hi. apply lookup_lt_Some in Ht. destruct items; simpl in *; lia.
  - pose proof (gate_false_small items limit 1 Hl Hg) as Hn.
    destruct items; [|simpl in Hn; lia]. simpl. unfold promise_all. simpl.
    intros i t Ht. done.
Qed.

Lemma one_at_a_time_steps (u : U) (ls : list label) (s : state) :
  limit = Int 1 →
  steps ls (initial u) = Some s →
  inv s ∧ one_at_a_time (results s).
Proof.
  intros Hl Hls. 
  assert (Hgen : ∀ ls0 s0 s1, (∃ ls', steps ls' (initial u) = Some s0) →
            one_at_a_time (results s0) → steps ls0 s0 = Some s1 →
            inv s1 ∧ one_at_a_time (results s1)).
  { clear s ls Hls. induction ls0 as [|l ls0 IH]; intros s0 s1 Hr Hone; simpl.
    - intros [= <-]. split; [|done]. by apply (reachable_inv fn resume _ _ u).
    - destruct (step l s0) as [s2|] eqn:Hs; [|done]. apply IH.
      + destruct Hr as [ls' Hls']. exists (ls' ++ [l]). apply steps_snoc. eauto.
      + apply (one_at_a_time_step l s0); try done.
        * by apply (reachable_inv fn resume _ _ u).
        * by apply (reachable_bounded fn resume items limit 1 u). }
  apply (Hgen ls _ _ (ex_intro _ [] eq_refl) (one_at_a_time_init u Hl) Hls).
Qed.

Lemma settled_fulfilled (s : state) i t :
  inv s → results s !! i = Some t → executeSettled t = true →
  ∃ r, fnPromise t = Fulfilled r.
Proof.
  intros [Hc _] Ht Hes.
  destruct (core_wf _ _ _ Hc i t Ht) as (_ & _ & Hw3 & Hw4).
  destruct (Hw4 Hes) as [Hp _]. destruct (promise t) as [r|] eqn:Hpr; [|done].
  exists r. by apply Hw3.
Qed.

Lemma sequential_phases (u : U) (ls : list label) (s : state) :
  limit = Int 1 →
  steps ls (initial u) = Some s →
  ∀ i, S i < length (phases s) → ∃ r, phases s !! i = Some (Fulfilled r).
Proof.
  intros Hl Hls. destruct (one_at_a_time_steps u ls s Hl Hls) as [Hinv Hone].
  intros i Hi. unfold Runner.phases in *. rewrite length_fmap in Hi.
  destruct (lookup_lt_is_Some_2 (results s) i) as [t Ht]; [lia|].
  rewrite list_lookup_fmap, Ht. simpl.
  destruct (settled_fulfilled s i t Hinv Ht (Hone i t Ht Hi)) as [r ->]. by exists r.
Qed.

(** With a limit of one the tasks run one after the other: in every state
    of a run, every task but the last one created has returned, and the
    runner creates a task only when none is in flight. *)
Theorem limit_one_is_sequential (u : U) (ls : list label) (s : state) :
  limit = Int 1 →
  steps ls (initial u) = Some s →
  (∀ i, S i < length (phases s) → ∃ r, phases s !! i = Some (Fulfilled r)) ∧
  (∀ l s', step l s = Some s' → length (phases s) < length (phases s') →
           ∀ f, f ∈ phases s → ∃ r, f = Fulfilled r).
Proof.
  intros Hl Hls. destruct (one_at_a_time_steps u ls s Hl Hls) as [Hinv Hone].
  split; [by apply (sequential_phases u ls)|].
  intros l s' Hs Hlen f Hf.
  assert (Hlast : ∃ ls', steps ls' (initial u) = Some s').
  { exists (ls ++ [l]). apply steps_snoc. eauto. }
  destruct Hlast as [ls' Hls'].
  destruct (one_at_a_time_steps u ls' s' Hl Hls') as [_ Hone'].
  destruct (step_effect _ _ _ _ _ _ _ Hinv Hs)
    as [n Hu Hp _ _|x i o q _ Hq Hi Hx Hfn Hp|i k e o _ Hq Hi Hres Hp];
    rewrite Hp in Hlen; rewrite ?length_insert in Hlen; try lia.
  rewrite length_app, length_replicate in Hlen.
  unfold Runner.phases in Hf. apply list_elem_of_fmap in Hf as (t & -> & Ht).
  apply list_elem_of_lookup in Ht as [i Ht].
  assert (Ht' : results s' !! i = Some t ∨ ∃ t', results s' !! i = Some t').
  { right. apply lookup_lt_is_Some. apply lookup_lt_Some in Ht.
    assert (length (phases s') = length (results s')) as H1
      by (unfold Runner.phases; by rewrite length_fmap).
    assert (length (phases s) = length (results s)) as H2
      by (unfold Runner.phases; by rewrite length_fmap).
    rewrite Hp, length_app, length_replicate in H1. lia. }
  assert (Hph : phases s' !! i = Some (fnPromise t)).
  { rewrite Hp. apply lookup_app_l_Some. unfold Runner.phases.
    by rewrite list_lookup_fmap, Ht. }
  unfold Runner.phases in Hph. rewrite list_lookup_fmap in Hph.
  destruct (results s' !! i) as [t'|] eqn:Hti; [|done]. simpl in Hph. injection Hph as Hph.
  assert (Hes : executeSettled t' = true).
  { apply (Hone' i t' Hti). apply lookup_lt_Some in Ht.
    assert (length (phases s') = length (results s')) as H1
      by (unfold Runner.phases; by rewrite length_fmap).
    assert (length (phases s) = length (results s)) as H2
      by (unfold Runner.phases; by rewrite length_fmap).
    rewrite Hp, length_app, length_replicate in H1. lia. }
  rewrite <- Hph. apply (settled_fulfilled s' i t'); [|done..].
  apply (reachable_inv fn resume items limit u). by exists ls'.
Qed.

End RunnerSequential.

(** * The progress of the batch *)

Section BatchProgress.
Variable password : jsstring.
Variable targets : list jsstring.
Variable limit : jsnum.

#[local] Abbreviation NotCalled := (@Runner.NotCalled unit jsstring).
#[local] Abbreviation Pending := (@Runner.Pending unit jsstring).
#[local] Abbreviation Fulfilled := (@Runner.Fulfilled unit jsstring).
#[local] Abbreviation label := (@Runner.label execResult).
#[local] Abbreviation phases := (@Runner.phases jsstring unit closure jsstring).
#[local] Abbreviation user := (@Runner.user jsstring unit closure jsstring).
#[local] Abbreviation queue := (@Runner.queue jsstring unit closure jsstring).
#[local] Abbreviation is_pending := (@Runner.is_pending unit jsstring).
#[local] Abbreviation bstate := (Runner.state (T:=jsstring) (R:=unit) (U:=closure) (K:=jsstring)).
#[local] Abbreviation bstep := (Runner.step (task password targets) (task_resume targets) targets limit).
#[local] Abbreviation binv := (@Runner.inv jsstring unit closure jsstring targets limit).
#[local] Abbreviation dinv := (delete_inv targets password).

Lemma fulfilled_pending_length (xs : list jsstring) (fs : list (@Runner.fnstate unit jsstring)) :
  length (Runner.fulfilled_items xs fs) + length (filter (λ f, is_pending f = true) fs) ≤ length fs.
Proof.
  revert fs. induction xs as [|x xs IH]; intros fs.
  - destruct fs; simpl; [done|]. pose proof (length_filter (λ f, is_pending f = true) (f :: fs)).
    simpl in *. lia.
  - destruct fs as [|f fs]; simpl; [done|]. specialize (IH fs). rewrite filter_cons.
    destruct f; simpl; lia.
Qed.

Lemma phases_length (s : bstate) : binv s → length (phases s) ≤ length targets.
Proof.
  intros [Hc _]. unfold Runner.phases. rewrite length_fmap. apply (Runner.core_len _ _ _ Hc).
Qed.

(** The counter of completed deletions moves by one, and only when the
    command of a task ends: the call of a task and the bookkeeping of the
    runner leave it alone.  In every state of a run it counts the commands
    that have ended, it is at most the number of results pushed, which is at
    most the number of snapshots, and as long as no authentication failure
    was seen it is the number of results. *)
Theorem completedCount_progress (ls : list label) (s s' : bstate) (l : label) :
  batch_steps password targets limit ls (batch targets limit) = Some s →
  bstep l s = Some s' →
  completedCount (user s') =
    completedCount (user s) + (match l with Runner.Deliver _ _ => 1 | Runner.Tick => 0 end) ∧
  completedCount (user s) + length (filter (λ f, is_pending f = true) (phases s)) =
    length (spawned (user s)) ∧
  completedCount (user s) ≤ length (results (user s)) ∧
  length (results (user s)) ≤ size targets ∧
  (authFailed (user s) = false → completedCount (user s) = length (results (user s))).
Proof.
  intros [Hinv Hd]%batch_steps_inv Hs. split_and!.
  - destruct (step_effect _ _ _ _ _ _ _ Hinv Hs)
      as [n Hu Hp Hl Hcall|x i o q Hl Hq Hi Hx Hfn Hp|i k e o Hl Hq Hi Hres Hp].
    + rewrite Hu. destruct l as [|i e]; [lia|]. by destruct (Hl e i).
    + subst l. unfold task in Hfn. destruct (authFailed (user s)); injection Hfn as Hu _;
        rewrite <- Hu; simpl; lia.
    + subst l. unfold task_resume in Hres. destruct e; injection Hres as Hu _;
        rewrite <- Hu; simpl; lia.
  - apply (di_count _ _ _ Hd).
  - apply (di_le _ _ _ Hd).
  - pose proof (di_results _ _ _ Hd) as Hr. apply Permutation_length in Hr.
    rewrite length_fmap in Hr. rewrite Hr.
    pose proof (fulfilled_pending_length targets (phases s)).
    pose proof (phases_length s Hinv). unfold size. lia.
  - apply (di_eq _ _ _ Hd).
Qed.

(** Every command a run hands to [execAsync] is the deletion command of a
    selected snapshot, and there are never more commands than snapshots.  A
    step adds at most one command, at the end, and removes none.  When the
    runner is resolved every command has ended and the counter is their
    number; it is the number of snapshots when no authentication failure was
    seen. *)
Theorem commands_are_deletions (ls : list label) (s : bstate) :
  batch_steps password targets limit ls (batch targets limit) = Some s →
  (∀ c, c ∈ spawned (user s) → ∃ x, x ∈ targets ∧ c = deleteCommand password x) ∧
  length (spawned (user s)) ≤ size targets ∧
  (∀ l s', bstep l s = Some s' →
     spawned (user s') = spawned (user s) ∨
     ∃ x i q, queue s = Runner.JCall x i :: q ∧ targets !! i = Some x ∧
              authFailed (user s) = false ∧
              spawned (user s') = spawned (user s) ++ [deleteCommand password x]) ∧
  (∀ rs, Runner.pc s = Runner.Resolved rs →
     completedCount (user s) = length (spawned (user s)) ∧
     (authFailed (user s) = false → completedCount (user s) = size targets)).
Proof.
  intros Hls. pose proof (batch_steps_inv _ _ _ _ _ Hls) as [Hinv Hd]. split_and!.
  - apply (di_spawned _ _ _ Hd).
  - pose proof (di_results _ _ _ Hd) as Hr. apply Permutation_length in Hr.
    rewrite length_fmap in Hr.
    pose proof (fulfilled_pending_length targets (phases s)).
    pose proof (phases_length s Hinv). pose proof (di_count _ _ _ Hd).
    pose proof (di_le _ _ _ Hd). unfold size. lia.
  - intros l s' Hs.
    destruct (step_effect _ _ _ _ _ _ _ Hinv Hs)
      as [n Hu Hp Hl Hcall|x i o q Hl Hq Hi Hx Hfn Hp|i k e o Hl Hq Hi Hres Hp].
    + left. by rewrite Hu.
    + unfold task in Hfn. destruct (authFailed (user s)) eqn:Hauth; injection Hfn as Hu _;
        rewrite <- Hu; simpl; [by left|]. right. by exists x, i, q.
    + left. unfold task_resume in Hres. destruct e; injection Hres as Hu _; by rewrite <- Hu.
  - intros rs Hpc. destruct (resolved_results _ _ _ _ _ _ Hls Hpc) as [Hp Hc].
    split; [done|]. intros Hauth. rewrite (di_eq _ _ _ Hd Hauth).
    apply Permutation_length in Hp. rewrite length_fmap in Hp. done.
Qed.

(** The message of the progress toast is always the counter over the number
    of selected snapshots. *)
Theorem toast_shows_counter (ls : list label) (s : bstate) :
  batch_steps password targets limit ls (batch targets limit) = Some s →
  toastMessage (user s) =
  toString (completedCount (user s)) ++ lit "/" ++ toString (length targets) ++ lit " completed".
Proof. intros [_ Hd]%batch_steps_inv. apply (di_toast _ _ _ Hd). Qed.

End BatchProgress.

(** * The flag of the batch *)

(** Two passwords that are escaped alike are the same password. *)
Theorem escapeSingleQuote_injective (p q : jsstring) :
  escapeSingleQuote p = escapeSingleQuote q → p = q.
Proof.
  intros Heq.
  pose proof (sh_tokens_escaped [] p []) as Hp.
  pose proof (sh_tokens_escaped [] q []) as Hq.
  rewrite Heq, Hq in Hp. simpl in Hp. congruence.
Qed.

Section BatchAuth.
Variable password : jsstring.
Variable targets : list jsstring.
Variable limit : jsnum.

#[local] Abbreviation label := (@Runner.label execResult).
#[local] Abbreviation phases := (@Runner.phases jsstring unit closure jsstring).
#[local] Abbreviation user := (@Runner.user jsstring unit closure jsstring).
#[local] Abbreviation bstate := (Runner.state (T:=jsstring) (R:=unit) (U:=closure) (K:=jsstring)).
#[local] Abbreviation bstep := (Runner.step (task password targets) (task_resume targets) targets limit).
#[local] Abbreviation bsteps := (Runner.steps (task password targets) (task_resume targets) targets limit).

Lemma auth_toast_step (l : label) (s s' : bstate) :
  Runner.inv targets limit s →
  (authFailed (user s) = true → authToast ∈ shown (user s)) →
  bstep l s = Some s' →
  authFailed (user s') = true → authToast ∈ shown (user s').
Proof.
  intros Hinv Hs0 Hs.
  destruct (step_effect _ _ _ _ _ _ _ Hinv Hs)
    as [n Hu Hp _ _|x i o q _ Hq Hi Hx Hfn Hp|i k e o _ Hq Hi Hres Hp].
  - by rewrite Hu.
  - unfold task in Hfn. destruct (authFailed (user s)) eqn:Hauth; injection Hfn as Hu _;
      rewrite <- Hu; simpl; [by intros _; apply Hs0|done].
  - unfold task_resume in Hres. destruct e as [out|err]; injection Hres as Hu _;
      rewrite <- Hu; simpl; [done|].
    destruct (isAuthError err).
    + intros _. apply elem_of_app. right. by left.
    + by rewrite orb_false_r.
Qed.

(** The toast "Authentication Failed" is on the screen exactly when the
    flag [authFailed] is set, and the tasks show no other toast. *)
Theorem auth_toast_shown (ls : list label) (s : bstate) :
  batch_steps password targets limit ls (batch targets limit) = Some s →
  (authFailed (user s) = true ↔ authToast ∈ shown (user s)) ∧
  (∀ t, t ∈ shown (user s) → t = authToast) ∧
  (authFailed (user s) = false → shown (user s) = []).
Proof.
  intros Hls. pose proof (batch_steps_inv _ _ _ _ _ Hls) as [_ Hd].
  assert (Hfwd : authFailed (user s) = true → authToast ∈ shown (user s)).
  { unfold batch_steps in Hls. revert s Hls Hd. induction ls as [|l ls IH] using rev_ind; intros s.
    - simpl. intros [= <-] _. unfold batch, Runner.runWithConcurrencyLimit.
      destruct (phases_loop targets limit targets
                  (Runner.State (start targets) [] 0 Runner.Resuming [] [] [] [] : bstate))
        as (Hu & _). by rewrite Hu.
    - intros (s0 & Hls0 & Hs)%steps_snoc _.
      destruct (batch_steps_inv _ _ _ _ _ Hls0) as [Hinv0 Hd0].
      by apply (auth_toast_step l s0 s Hinv0 (IH s0 Hls0 Hd0)). }
  split_and!.
  - split; [done|]. intros Hin. by destruct (di_shown _ _ _ Hd _ Hin).
  - intros t Ht. by destruct (di_shown _ _ _ Hd _ Ht).
  - intros Hf. destruct (shown (user s)) as [|t ts] eqn:Hsh; [done|].
    destruct (di_shown _ _ _ Hd t) as [_ Ht]; [rewrite Hsh; by left|]. congruence.
Qed.

Lemma pending_in_flight (s : bstate) :
  length (filter (λ f, Runner.is_pending f = true) (phases s)) = Runner.count_in_flight s.
Proof.
  unfold Runner.count_in_flight, Runner.phases. induction (Runner.results s) as [|t ts IH]; [done|].
  rewrite fmap_cons, !filter_cons.
  assert (Heq : Runner.is_pending (Runner.fnPromise t) = Runner.in_flight t)
    by (unfold Runner.in_flight; by destruct (Runner.fnPromise t)).
  destruct (decide (Runner.is_pending (Runner.fnPromise t) = true)) as [H|H];
    destruct (decide (Runner.in_flight t = true)) as [H'|H']; simpl; rewrite ?IH;
    try done; congruence.
Qed.

(** With a limit of at least one, no more commands than the limit run at
    the same time: the commands handed to [execAsync] that have not ended
    are never more than the limit. *)
Theorem running_commands_bounded (z : Z) (ls : list label) (s : bstate) :
  limit = Int z → (1 ≤ z)%Z →
  batch_steps password targets limit ls (batch targets limit) = Some s →
  length (spawned (user s)) - completedCount (user s) ≤ Z.to_nat z ∧
  length (spawned (user s)) - completedCount (user s) = Runner.count_in_flight s.
Proof.
  intros Hl Hz Hls. pose proof (batch_steps_inv _ _ _ _ _ Hls) as [Hinv Hd].
  assert (Hb : Runner.bounded (Z.to_nat z) s).
  { apply (reachable_bounded (task password targets) (task_resume targets) targets limit z
             (start targets)); [done..|]. by exists ls. }
  destruct (count_in_flight_lt _ _ _ _ Hl Hz Hinv Hb) as [Hle _].
  pose proof (di_count _ _ _ Hd) as Hc. rewrite pending_in_flight in Hc. lia.
Qed.

End BatchAuth.

(** * The batch with a limit of one *)

Section BatchSequential.
Variable password : jsstring.
Variable targets : list jsstring.

#[local] Abbreviation NotCalled := (@Runner.NotCalled unit jsstring).
#[local] Abbreviation Pending := (@Runner.Pending unit jsstring).
#[local] Abbreviation Fulfilled := (@Runner.Fulfilled unit jsstring).
#[local] Abbreviation fnstate := (@Runner.fnstate unit jsstring).
#[local] Abbreviation label := (@Runner.label execResult).
#[local] Abbreviation phases := (@Runner.phases jsstring unit closure jsstring).
#[local] Abbreviation user := (@Runner.user jsstring unit closure jsstring).
#[local] Abbreviation bstate := (Runner.state (T:=jsstring) (R:=unit) (U:=closure) (K:=jsstring)).
#[local] Abbreviation bstep := (Runner.step (task password targets) (task_resume targets) targets (Int 1)).
#[local] Abbreviation bsteps := (Runner.steps (task password targets) (task_resume targets) targets (Int 1)).

Lemma fulfilled_items_insert_last (xs : list jsstring) (fs : list fnstate) i x f f' :
  xs !! i = Some x → fs !! i = Some f → Runner.is_fulfilled f = false → S i = length fs →
  Runner.fulfilled_items xs (<[i:=f']> fs) =
  Runner.fulfilled_items xs fs ++ (if Runner.is_fulfilled f' then [x] else []).
Proof.
  revert fs i. induction xs as [|x0 xs IH]; intros fs i Hx Hf Hnf Hlast; [done|].
  destruct fs as [|f0 fs]; [done|]. destruct i as [|i]; simpl in *.
  - injection Hx as ->. injection Hf as ->. destruct fs; [|done].
    destruct f, f'; simpl in *; try done; by destruct xs.
  - rewrite (IH fs i Hx Hf Hnf) by lia. by destruct f0.
Qed.

Lemma ordered_step (ls : list label) (s s' : bstate) (l : label) :
  bsteps ls (batch targets (Int 1)) = Some s →
  snapshot <$> results (user s) = Runner.fulfilled_items targets (phases s) →
  bstep l s = Some s' →
  snapshot <$> results (user s') = Runner.fulfilled_items targets (phases s').
Proof.
  intros Hls Heq Hs.
  destruct (batch_steps_inv password targets (Int 1) ls s Hls) as [Hinv Hd].
  pose proof (sequential_phases _ _ _ _ _ ls s eq_refl Hls) as Hseq.
  assert (Hlast : ∀ i f, phases s !! i = Some f → Runner.is_fulfilled f = false →
             S i = length (phases s)).
  { intros i f Hf Hnf. pose proof (lookup_lt_Some _ _ _ Hf).
    destruct (decide (S i < length (phases s))) as [Hlt|]; [|lia].
    destruct (Hseq i Hlt) as [r Hr]. rewrite Hr in Hf. injection Hf as <-. done. }
  destruct (step_effect _ _ _ _ _ _ _ Hinv Hs)
    as [n Hu Hp _ _|x i o q _ Hq Hi Hx Hfn Hp|i k e o _ Hq Hi Hres Hp]; rewrite Hp.
  - rewrite Hu, fulfilled_items_new. done.
  - rewrite (fulfilled_items_insert_last targets _ i x NotCalled) by eauto.
    unfold task in Hfn. destruct (authFailed (user s)); injection Hfn as Hu <-;
      rewrite <- Hu; simpl; rewrite ?fmap_app, ?app_nil_r, Heq; done.
  - pose proof (di_pending _ _ _ Hd _ _ Hi) as Hk.
    rewrite (fulfilled_items_insert_last targets _ i k (Pending k)) by eauto.
    unfold task_resume in Hres. destruct e; injection Hres as Hu <-;
      rewrite <- Hu; simpl; rewrite ?fmap_app, Heq; done.
Qed.

Lemma ordered_steps (ls : list label) (s : bstate) :
  bsteps ls (batch targets (Int 1)) = Some s →
  snapshot <$> results (user s) = Runner.fulfilled_items targets (phases s).
Proof.
  revert s. induction ls as [|l ls IH] using rev_ind; intros s.
  - simpl. intros [= <-].
    destruct (phases_loop targets (Int 1) targets
                (Runner.State (start targets) [] 0 Runner.Resuming [] [] [] [] : bstate))
      as (Hu & n & Hn).
    unfold batch, Runner.runWithConcurrencyLimit. rewrite Hu, Hn. simpl.
    by rewrite fulfilled_items_replicate.
  - intros Hls.
    apply steps_snoc in Hls as Hsplit.
    destruct Hsplit as (s0 & Hls0 & Hs). apply (ordered_step ls s0 s l); [done|by apply IH|done].
Qed.

End BatchSequential.

(** With the preference set to one thread the results are in the order of
    the selection: the result at each place is that of the snapshot selected
    at that place. *)
Theorem sequential_results_in_order password selected concurrency e :
  concurrencyLimit concurrency = Int 1 →
  deleteSnapshots password selected true concurrency e →
  snapshot <$> outcomes e = selected.
Proof.
  intros Hl [Hlen|Hlen Hc|ls s rs Hlen _ Hls Hpc]; simpl.
  - by destruct selected.
  - done.
  - rewrite Hl in Hls. rewrite (ordered_steps password selected ls s Hls).
    destruct (batch_steps_inv _ _ _ _ _ Hls) as [Hinv _].
    destruct (resolved_phases _ _ _ _ Hinv Hpc) as [Hlen' Hall].
    apply fulfilled_items_all; [done|]. intros f Hf. by rewrite (Hall f Hf).
Qed.

(** * The password form *)

Lemma verifyPassword_error (r : execResult) :
  valid (verifyPassword_result r) = false →
  verror (verifyPassword_result r) = Some (lit "Incorrect password") ∨
  verror (verifyPassword_result r) = Some (lit "Failed to verify password").
Proof.
  destruct r as [out|[m se so|]]; simpl; [done| |by right].
  destruct (_ || _); simpl; auto.
Qed.

(** [onSubmit] gets a password only when it is not blank and the command
    that checks it with sudo ended well, and then it gets the password as it
    was typed and the form is popped.  In every other case [onSubmit] is not
    called and the form stays. *)
Theorem onSubmit_only_verified (env : jsstring → execResult) (f : form) (p : jsstring) :
  onSubmit (handleSubmit env f) = Some p ↔
  p = password f ∧ trim (password f) ≠ [] ∧
  (∃ out, env (verifyCommand (password f)) = ExecOk out) ∧
  commands (handleSubmit env f) = [verifyCommand (password f)] ∧
  popped (handleSubmit env f) = true.
Proof.
  unfold handleSubmit, verifyPassword.
  destruct (trim (password f)) as [|c t] eqn:Ht; simpl.
  - split; [done|]. by intros (_ & ? & _).
  - destruct (env (verifyCommand (password f))) as [out|err] eqn:Henv; simpl.
    + split.
      * intros [= <-]. split_and!; try done. by exists out.
      * by intros (-> & _).
    + split.
      * destruct err as [m se so|]; simpl; [destruct (_ || _)|]; done.
      * intros (_ & _ & [out Hout] & _). done.
Qed.

(** A password that is not blank is checked as it was typed, by one
    command.  When the command fails the form shows "Incorrect password" if
    the output of a failed command names a wrong password and "Failed to
    verify password" otherwise, and it stops verifying; the text "Incorrect
    password. Please try again." is never shown. *)
Theorem failed_submit_message (env : jsstring → execResult) (f : form) (err : thrown) :
  trim (password f) ≠ [] →
  env (verifyCommand (password f)) = ExecFailed err →
  commands (handleSubmit env f) = [verifyCommand (password f)] ∧
  onSubmit (handleSubmit env f) = None ∧ popped (handleSubmit env f) = false ∧
  isVerifying (after (handleSubmit env f)) = false ∧
  password (after (handleSubmit env f)) = password f ∧
  error (after (handleSubmit env f)) =
  Some (match err with
        | ErrorObject message stderr stdout =>
            let output := or_else stderr (or_else stdout message) in
            if includes output (lit "Sorry") || includes output (lit "incorrect password")
            then lit "Incorrect password" else lit "Failed to verify password"
        | OtherValue => lit "Failed to verify password"
        end) ∧
  error (after (handleSubmit env f)) ≠ Some (lit "Incorrect password. Please try again.").
Proof.
  intros Ht Henv. unfold handleSubmit, verifyPassword.
  destruct (trim (password f)) as [|c t]; [done|]. simpl. rewrite Henv.
  destruct err as [m se so|]; simpl; [destruct (_ || _)|]; simpl; split_and!; try done;
    intros H; by vm_compute in H.
Qed.

(** * The errors of the deletion *)

Lemma includes_nil_false (p : jsstring) : p ≠ [] → includes [] p = false.
Proof. by destruct p. Qed.

(** When a task takes the failure of its command for an authentication
    failure, the standard error of the command is not empty and is the
    message it records, and [verifyPassword] would answer "Incorrect
    password" to the same failure. *)
Theorem auth_error_is_stderr (err : thrown) :
  isAuthError err = true →
  ∃ message stderr stdout,
    err = ErrorObject message (Some stderr) stdout ∧ stderr ≠ [] ∧
    errorMessage err = stderr ∧
    (includes stderr (lit "Sorry") = true ∨ includes stderr (lit "incorrect password") = true) ∧
    verifyPassword_result (ExecFailed err) = Verdict false (Some (lit "Incorrect password")).
Proof.
  unfold isAuthError. destruct err as [m [[|c se]|] so|]; try done.
  cbn [is_truthy truthy or_else andb]. intros Hinc.
  exists m, (c :: se), so. split_and!; try done.
  - unfold errorMessage. cbn [is_truthy truthy or_else].
    destruct so as [[|d so]|]; cbn [truthy]; try done.
    case_bool_decide as Heq; [|done]. rewrite Heq in Hinc. by vm_compute in Hinc.
  - by apply orb_true_iff.
  - unfold verifyPassword_result. cbn [or_else truthy]. by rewrite Hinc.
Qed.

(** * The toasts of the summary *)

(** The details come in at most four toasts, all of failure: one for each
    of the first three failed results, with the snapshot in the title, and
    one more, counting the others, when more than three failed.  There is
    none when nothing failed. *)
Theorem detailToasts_count (rs : list DeletionResult) :
  length (detailToasts rs) = failed rs `min` 3 + (if 3 <? failed rs then 1 else 0) ∧
  length (detailToasts rs) ≤ 4 ∧
  (detailToasts rs = [] ↔ failed rs = 0) ∧
  (∀ t, t ∈ detailToasts rs → style t = Failure) ∧
  (∀ i r, i < 3 → failedResults rs !! i = Some r →
          title <$> detailToasts rs !! i = Some (lit "Failed: " ++ snapshot r)) ∧
  (3 < failed rs →
   message <$> detailToasts rs !! 3 =
   Some (toString (failed rs - 3) ++ lit " more deletion(s) failed. Check console logs.")).
Proof.
  unfold detailToasts, failed. fold (failedResults rs).
  generalize (failedResults rs). intros l.
  assert (Hlen : length (take 3 l) = length l `min` 3) by (rewrite length_take; lia).
  split_and!.
  - rewrite length_app, length_map, Hlen. by destruct (3 <? length l).
  - rewrite length_app, length_map, Hlen. destruct (3 <? length l); simpl; lia.
  - destruct l as [|r l]; [done|]. split; [|done]. done.
  - intros t [Ht|Ht]%elem_of_app.
    + apply list_elem_of_fmap in Ht as (r & -> & _). done.
    + destruct (3 <? length l); [|by apply elem_of_nil in Ht].
      apply list_elem_of_singleton in Ht as ->. done.
  - intros i r Hi Hr. rewrite lookup_app_l.
    + change (map ?f ?l) with (f <$> l). rewrite list_lookup_fmap, lookup_take_lt by done.
      by rewrite Hr.
    + rewrite length_map, Hlen. apply lookup_lt_Some in Hr. lia.
  - intros H3. rewrite lookup_app_r; rewrite length_map, Hlen.
    + replace (3 - length l `min` 3) with 0 by lia.
      apply Nat.ltb_lt in H3 as ->. done.
    + lia.
Qed.

(** * The preference, read by [parseInt] *)

(** [parseInt] skips the white space before the number and stops at the
    first unit that is no digit: a preference made of white space, a
    decimal numeral and anything that does not start with a digit gives the
    Number value for the numeral, the same after a plus sign, and that for
    its opposite after a minus sign, which is the negative zero for zero.
    Up to [2^53] the value is the integer itself.  What follows the digits
    and the white space before them change nothing. *)
Theorem concurrencyLimit_reads_prefix (ws rest : jsstring) (n : nat) :
  forallb isWhiteSpace ws = true →
  match rest with [] => True | c :: _ => is_digit c = false end →
  concurrencyLimit (Some (ws ++ toString n ++ rest)) = number (Z.of_nat n) ∧
  concurrencyLimit (Some (ws ++ lit "+" ++ toString n ++ rest)) = number (Z.of_nat n) ∧
  concurrencyLimit (Some (ws ++ lit "-" ++ toString n ++ rest)) =
    (if bool_decide (n = 0) then NegZero else number (- Z.of_nat n)) ∧
  ((Z.of_nat n ≤ 2 ^ 53)%Z →
   number (Z.of_nat n) = Int (Z.of_nat n) ∧ number (- Z.of_nat n) = Int (- Z.of_nat n)) ∧
  concurrencyLimit (Some (ws ++ toString n ++ rest)) = concurrencyLimit (Some (toString n)).
Proof.
  intros Hws Hrest.
  assert (Hrest' : starts_with_digit rest = false) by by destruct rest.
  destruct (toString_digits n) as (c & s & Hs & _).
  pose proof (parseInt10_numeral ws [] rest 0 n Hws ltac:(by left) Hrest') as H1.
  pose proof (parseInt10_numeral ws (lit "+") rest 0 n Hws ltac:(by right; left) Hrest') as H2.
  pose proof (parseInt10_numeral ws (lit "-") rest 0 n Hws ltac:(by right; right) Hrest') as H3.
  pose proof (parseInt10_numeral [] [] [] 0 n eq_refl ltac:(by left) eq_refl) as H4.
  cbn [app replicate] in H1, H2, H3, H4. rewrite app_nil_r in H4.
  rewrite bool_decide_eq_false_2 in H1, H2, H4 by done.
  rewrite bool_decide_eq_true_2 in H3 by done.
  assert (Hne : ws ++ toString n ++ rest ≠ []) by (rewrite Hs; by destruct ws).
  split_and!.
  - by rewrite concurrencyLimit_Some.
  - by rewrite concurrencyLimit_Some by (by destruct ws).
  - by rewrite concurrencyLimit_Some by (by destruct ws).
  - intros Hn. split; apply number_exact; lia.
  - rewrite !concurrencyLimit_Some by (done || by rewrite Hs). by rewrite H1, H4.
Qed.

(** * The selection *)

Lemma from_acc (acc l : list jsstring) :
  NoDup acc →
  NoDup (foldl (λ s x, StringSet.add x s) acc l) ∧
  (∀ y, y ∈ foldl (λ s x, StringSet.add x s) acc l ↔ y ∈ acc ∨ y ∈ l) ∧
  length (foldl (λ s x, StringSet.add x s) acc l) ≤ length acc + length l ∧
  (NoDup (acc ++ l) → foldl (λ s x, StringSet.add x s) acc l = acc ++ l).
Proof.
  revert acc. induction l as [|x l IH]; intros acc Hacc; simpl.
  - split_and!; [done| |lia|by rewrite app_nil_r]. intros y. set_solver.
  - assert (Hadd : NoDup (StringSet.add x acc)).
    { unfold StringSet.add, StringSet.has. case_bool_decide; [done|].
      apply list.NoDup_app. split_and!; [done| |apply NoDup_singleton].
      intros y Hy ->%list_elem_of_singleton. done. }
    destruct (IH _ Hadd) as (IH1 & IH2 & IH3 & IH4). split_and!; [done| | |].
    + intros y. rewrite IH2. unfold StringSet.add, StringSet.has.
      case_bool_decide; set_solver.
    + clear IH1 IH2 IH4 Hadd. unfold StringSet.add, StringSet.has in *.
      destruct (bool_decide (x ∈ acc)); rewrite ?length_app in IH3; simpl in *; lia.
    + intros Hnd. apply list.NoDup_app in Hnd as Hnd'. destruct Hnd' as (_ & Hdisj & Hl).
      assert (Hx : x ∉ acc) by (intros Hin; apply (Hdisj x Hin); by left).
      assert (Ha : StringSet.add x acc = acc ++ [x]).
      { unfold StringSet.add, StringSet.has. by rewrite bool_decide_eq_false_2. }
      rewrite Ha in *. rewrite IH4; [by rewrite <- app_assoc|].
      by rewrite <- app_assoc.
Qed.

Lemma from_NoDup (l : list jsstring) : NoDup l → StringSet.from l = l.
Proof. intros Hl. by apply (from_acc [] l (NoDup_nil_2)). Qed.

Lemma filter_other_id (x : jsstring) (l : list jsstring) :
  x ∉ l → filter (λ y, y ≠ x) l = l.
Proof.
  induction l as [|z l IH]; intros Hx; [done|].
  rewrite filter_cons_True by (intros ->; apply Hx; by left).
  f_equal. apply IH. intros Hz. apply Hx. by right.
Qed.

Lemma filter_other_snoc (x : jsstring) (l : list jsstring) :
  NoDup l → x ∈ l → filter (λ y, y ≠ x) l ++ [x] ≡ₚ l.
Proof.
  induction l as [|z l IH]; intros Hnd Hx; [by apply elem_of_nil in Hx|].
  apply list.NoDup_cons in Hnd as [Hz Hnd].
  destruct (decide (z = x)) as [->|Hne].
  - rewrite filter_cons_False by naive_solver. rewrite filter_other_id by done.
    symmetry. apply Permutation_cons_append.
  - rewrite filter_cons_True by done. simpl. apply Permutation_skip.
    apply IH; [done|]. apply elem_of_cons in Hx as [->|Hx]; done.
Qed.

(** [toggleSnapshot] puts a snapshot that is not selected at the end of the
    selection and takes a selected one out; the others stay, in their order,
    and nothing is selected twice.  Toggled twice, a snapshot is selected as
    before: the selection has the same elements, and is the same when the
    snapshot was not selected. *)
Theorem toggleSnapshot_toggles (x : jsstring) (prev : list jsstring) :
  NoDup prev →
  toggleSnapshot x prev = (if bool_decide (x ∈ prev) then filter (λ y, y ≠ x) prev
                           else prev ++ [x]) ∧
  NoDup (toggleSnapshot x prev) ∧
  (x ∈ toggleSnapshot x prev ↔ x ∉ prev) ∧
  (∀ y, y ≠ x → (y ∈ toggleSnapshot x prev ↔ y ∈ prev)) ∧
  toggleSnapshot x (toggleSnapshot x prev) ≡ₚ prev ∧
  (x ∉ prev → toggleSnapshot x (toggleSnapshot x prev) = prev).
Proof.
  intros Hnd.
  assert (Htog : ∀ l, NoDup l →
            toggleSnapshot x l = (if bool_decide (x ∈ l) then filter (λ y, y ≠ x) l
                                  else l ++ [x])).
  { intros l Hl. unfold toggleSnapshot. rewrite (from_NoDup l Hl).
    unfold StringSet.has, StringSet.add, StringSet.delete, StringSet.has.
    by case_bool_decide. }
  assert (Hin : x ∈ prev → NoDup (filter (λ y, y ≠ x) prev) ∧ x ∉ filter (λ y, y ≠ x) prev).
  { intros _. split; [by apply NoDup_filter|]. rewrite list_elem_of_filter. naive_solver. }
  assert (Hout : x ∉ prev → NoDup (prev ++ [x])).
  { intros Hx. apply list.NoDup_app. split_and!; [done| |apply NoDup_singleton].
    intros y Hy ->%list_elem_of_singleton. done. }
  assert (Hfilter : x ∉ prev → filter (λ y, y ≠ x) (prev ++ [x]) = prev).
  { intros Hx. rewrite list.filter_app. rewrite filter_cons_False by naive_solver.
    rewrite filter_nil, app_nil_r. by apply filter_other_id. }
  rewrite (Htog prev Hnd). case_bool_decide as Hx.
  - destruct (Hin Hx) as [Hnd' Hx']. split_and!; try done.
    + intros y Hy. rewrite list_elem_of_filter. naive_solver.
    + rewrite (Htog _ Hnd'). rewrite bool_decide_eq_false_2 by done.
      by apply filter_other_snoc.
  - pose proof (Hout Hx) as Hnd'. split_and!; try done.
    + split; [done|]. intros _. apply elem_of_app. right. by left.
    + intros y Hy. rewrite elem_of_app, list_elem_of_singleton. naive_solver.
    + rewrite (Htog _ Hnd'). rewrite bool_decide_eq_true_2 by (apply elem_of_app; right; by left).
      by rewrite Hfilter.
    + intros _. rewrite (Htog _ Hnd').
      rewrite bool_decide_eq_true_2 by (apply elem_of_app; right; by left).
      by apply Hfilter.
Qed.

(** [selectAll] selects the ids of the snapshots of the list, each once, in
    the order of the list; [deselectAll] selects nothing.  A confirmed
    deletion after [selectAll] leaves one result for each id, none twice;
    after [deselectAll] the deletion stops at "No snapshots selected". *)
Theorem selectAll_selects_ids (snapshots : list Snapshot.t) :
  NoDup (fst (selectAll snapshots)) ∧
  (∀ x, x ∈ fst (selectAll snapshots) ↔ ∃ s, s ∈ snapshots ∧ Snapshot.id s = x) ∧
  length (fst (selectAll snapshots)) ≤ length snapshots ∧
  (NoDup (map Snapshot.id snapshots) → fst (selectAll snapshots) = map Snapshot.id snapshots) ∧
  (∀ password concurrency e,
     deleteSnapshots password (fst (selectAll snapshots)) true concurrency e →
     NoDup (snapshot <$> outcomes e) ∧
     ∀ x, x ∈ snapshot <$> outcomes e ↔ ∃ s, s ∈ snapshots ∧ Snapshot.id s = x) ∧
  (∀ password confirmed concurrency e,
     deleteSnapshots password (fst deselectAll) confirmed concurrency e →
     e = NothingSelected noSelectionToast).
Proof.
  unfold selectAll, deselectAll. simpl.
  destruct (from_acc [] (map Snapshot.id snapshots) NoDup_nil_2) as (H1 & H2 & H3 & H4).
  fold (StringSet.from (map Snapshot.id snapshots)) in *.
  assert (Hin : ∀ x, x ∈ StringSet.from (map Snapshot.id snapshots) ↔
                     ∃ s, s ∈ snapshots ∧ Snapshot.id s = x).
  { intros x. rewrite H2. change (map ?f ?l) with (f <$> l). rewrite list_elem_of_fmap.
    set_solver. }
  split_and!; try done.
  - simpl in H3. by rewrite length_map in H3.
  - intros password concurrency e He%finished_results. split.
    + by rewrite He.
    + intros x. by rewrite He.
  - intros password confirmed concurrency e He. by inversion He.
Qed.

(** * The list of snapshots *)

Section SnapshotList.
#[local] Arguments lit : simpl never.
#[local] Arguments timeMachineLine : simpl never.

Lemma startsWith_app (p s : jsstring) : startsWith (p ++ s) p = true.
Proof. induction p as [|c p IH]; simpl; [by destruct s|]. by rewrite bool_decide_eq_true_2. Qed.

Lemma startsWith_inv (s p : jsstring) :
  startsWith s p = true → s = p ++ drop (length p) s.
Proof.
  revert s. induction p as [|c p IH]; intros s; [done|].
  destruct s as [|d s]; simpl; [done|]. case_bool_decide as Hc; [|done].
  intros Hs. subst d. f_equal. by apply IH.
Qed.

Lemma includes_unfold (s p : jsstring) :
  includes s p =
  if startsWith s p then true
  else match s with
       | [] => false
       | _ :: s' => includes s' p
       end.
Proof. by destruct s. Qed.

Lemma includes_startsWith (s p : jsstring) : startsWith s p = true → includes s p = true.
Proof. intros H. by rewrite includes_unfold, H. Qed.

Lemma includes_cons (c : N) (s p : jsstring) : includes s p = true → includes (c :: s) p = true.
Proof. intros H. rewrite includes_unfold, H. by destruct (startsWith _ _). Qed.

Lemma includes_app_l (a s p : jsstring) : includes s p = true → includes (a ++ s) p = true.
Proof. intros H. induction a as [|c a IH]; [done|]. by apply includes_cons. Qed.

Lemma trimEnd_blank (t ws : jsstring) :
  forallb isWhiteSpace ws = true → trimEnd (t ++ ws) = trimEnd t.
Proof.
  intros Hws. unfold trimEnd. rewrite rev_app_distr. f_equal.
  apply trimStart_app_blank. rewrite forallb_forall in *. intros c Hc. apply Hws.
  by apply in_rev.
Qed.

Lemma trimEnd_last (t : jsstring) (c : N) :
  isWhiteSpace c = false → trimEnd (t ++ [c]) = t ++ [c].
Proof.
  intros Hc. unfold trimEnd. rewrite rev_app_distr. simpl. rewrite Hc.
  change (c :: rev t) with (rev [c] ++ rev t). by rewrite <- rev_app_distr, rev_involutive.
Qed.

(** A string that neither starts nor ends with white space is what [trim]
    leaves of it, whatever white space follows. *)
Lemma trim_core (c l : N) (t ws : jsstring) :
  isWhiteSpace c = false → isWhiteSpace l = false → forallb isWhiteSpace ws = true →
  trim ((c :: t ++ [l]) ++ ws) = c :: t ++ [l].
Proof.
  intros Hc Hl Hws. unfold trim. simpl. rewrite Hc.
  change (c :: (t ++ [l]) ++ ws) with ((c :: t ++ [l]) ++ ws).
  rewrite trimEnd_blank by done.
  change (c :: t ++ [l]) with ((c :: t) ++ [l]). by apply trimEnd_last.
Qed.

Lemma split_no_sep (sep : N) (a : jsstring) : sep ∉ a → split sep a = [a].
Proof.
  induction a as [|c a IH]; intros Ha; simpl; [done|].
  rewrite bool_decide_eq_false_2 by (intros ->; apply Ha; by left).
  rewrite IH; [done|]. intros Hin. apply Ha. by right.
Qed.

Lemma split_app (sep : N) (a b : jsstring) :
  sep ∉ a → split sep (a ++ sep :: b) = a :: split sep b.
Proof.
  induction a as [|c a IH]; intros Ha; simpl.
  - by rewrite bool_decide_eq_true_2.
  - rewrite bool_decide_eq_false_2 by (intros ->; apply Ha; by left).
    rewrite IH; [done|]. intros Hin. apply Ha. by right.
Qed.

Lemma has_shape_all (Q : N → Prop) (shape : list (N → bool)) (s : jsstring) :
  (∀ p c, p ∈ shape → p c = true → Q c) →
  length s = length shape → has_shape shape s = true → Forall Q s.
Proof.
  revert s. induction shape as [|p shape IH]; intros s Hq Hlen Hs.
  - destruct s; [constructor|done].
  - destruct s as [|c s]; [done|]. simpl in *. apply andb_true_iff in Hs as [Hc Hs].
    constructor.
    + apply (Hq p); [by left|done].
    + apply IH; [|lia|done]. intros p' c' Hp'. apply Hq. by right.
Qed.

Lemma has_shape_app (shape : list (N → bool)) (s rest : jsstring) :
  has_shape shape s = true → has_shape shape (s ++ rest) = true.
Proof.
  revert s. induction shape as [|p shape IH]; intros s; [done|].
  destruct s as [|c s]; simpl; [done|]. intros [Hc Hs]%andb_true_iff.
  rewrite Hc. by apply IH.
Qed.

Lemma has_shape_take (shape : list (N → bool)) (s : jsstring) :
  has_shape shape s = true →
  has_shape shape (take (length shape) s) = true ∧
  length (take (length shape) s) = length shape.
Proof.
  revert s. induction shape as [|p shape IH]; intros s; [by destruct s|].
  destruct s as [|c s]; simpl; [done|]. intros [Hc Hs]%andb_true_iff.
  destruct (IH s Hs) as [H1 H2]. rewrite Hc, H1, H2. done.
Qed.

Lemma date_units (d : jsstring) :
  is_date d = true → Forall (λ c, is_digit c = true ∨ c = 45%N) d.
Proof.
  intros [Hlen Hs]%andb_true_iff. apply Nat.eqb_eq in Hlen.
  apply (has_shape_all _ date_shape); [|done..].
  intros p c Hp Hc. unfold date_shape in Hp.
  repeat (apply elem_of_cons in Hp as [->|Hp];
          [first [by left | right; by apply bool_decide_eq_true in Hc]|]).
  by apply elem_of_nil in Hp.
Qed.

Lemma date_plain (d : jsstring) : is_date d = true → plain_word d = true.
Proof.
  intros Hd. pose proof (date_units d Hd) as Hall.
  apply andb_true_iff in Hd as [Hlen _]. apply Nat.eqb_eq in Hlen.
  destruct d as [|c d]; [done|]. unfold plain_word. apply forallb_forall.
  intros x Hx%list_elem_of_In. rewrite Forall_forall in Hall.
  destruct (Hall x Hx) as [Hdig| ->]; [|done].
  unfold is_plain. unfold is_digit in Hdig. by rewrite Hdig.
Qed.

Lemma tmMatch_unfold (s : jsstring) :
  tmMatch s =
  if startsWith s (lit "com.apple.TimeMachine.") && has_shape date_shape (drop 22 s)
  then Some (take 17 (drop 22 s))
  else match s with
       | [] => None
       | _ :: s' => tmMatch s'
       end.
Proof. by destruct s. Qed.

Lemma tmMatch_date (s d : jsstring) : tmMatch s = Some d → is_date d = true.
Proof.
  revert d. induction s as [|c s IH]; intros d; rewrite tmMatch_unfold.
  - by destruct (has_shape _ _).
  - destruct (_ && _) eqn:Hc; [|by apply IH]. intros [= <-].
    apply andb_true_iff in Hc as [_ Hs].
    destruct (has_shape_take _ _ Hs) as [H1 H2]. change (length date_shape) with 17 in H1, H2.
    unfold is_date. cbn [drop] in *. by rewrite H1, H2.
Qed.

Lemma tmMatch_line (d rest : jsstring) :
  is_date d = true → tmMatch (lit "com.apple.TimeMachine." ++ d ++ rest) = Some d.
Proof.
  intros [Hlen Hs]%andb_true_iff. apply Nat.eqb_eq in Hlen.
  rewrite tmMatch_unfold, startsWith_app.
  change 22 with (length (lit "com.apple.TimeMachine.")). rewrite drop_app_length.
  rewrite has_shape_app by done. simpl. f_equal.
  rewrite <- Hlen. apply take_app_length.
Qed.

Lemma not_elem_of_units (x : N) (l : jsstring) :
  forallb (λ c, negb (c =? x)%N) l = true → x ∉ l.
Proof.
  rewrite forallb_forall. intros Hall Hin%list_elem_of_In. specialize (Hall x Hin).
  by rewrite N.eqb_refl in Hall.
Qed.

Lemma trim_line (d : jsstring) (ws : jsstring) :
  forallb isWhiteSpace ws = true → trim (timeMachineLine d ++ ws) = timeMachineLine d.
Proof.
  intros Hws. unfold timeMachineLine.
  change (lit "com.apple.TimeMachine.") with (99%N :: lit "om.apple.TimeMachine.").
  change (lit ".local") with (lit ".loca" ++ [108%N]).
  replace ((99%N :: lit "om.apple.TimeMachine.") ++ d ++ lit ".loca" ++ [108%N])
    with (99%N :: (lit "om.apple.TimeMachine." ++ d ++ lit ".loca") ++ [108%N])
    by (simpl; by rewrite <- !app_assoc).
  by apply trim_core.
Qed.

Lemma line_parsed (d : jsstring) :
  is_date d = true →
  (10%N ∉ timeMachineLine d) ∧ keepLine (timeMachineLine d) = true ∧
  parseLine (timeMachineLine d) = Some (timeMachineSnapshot d).
Proof.
  intros Hd. split_and!.
  - unfold timeMachineLine. rewrite !elem_of_app. intros [H|[H|H]].
    + by apply (not_elem_of_units 10 (lit "com.apple.TimeMachine.")).
    + pose proof (date_units d Hd) as Hall. rewrite Forall_forall in Hall.
      by destruct (Hall _ H).
    + by apply (not_elem_of_units 10 (lit ".local")).
  - unfold keepLine. rewrite includes_startsWith; [done|]. unfold timeMachineLine.
    change (lit "com.apple.TimeMachine.") with (lit "com.apple.TimeMachine" ++ lit ".").
    rewrite <- app_assoc. apply startsWith_app.
  - unfold parseLine. pose proof (trim_line d [] eq_refl) as Ht. rewrite app_nil_r in Ht.
    rewrite Ht. unfold timeMachineLine. by rewrite tmMatch_line.
Qed.

Lemma split_lines (a : jsstring) (ds : list jsstring) :
  10%N ∉ a → Forall (λ d, is_date d = true) ds →
  split 10 (a ++ flat_map (λ d, 10%N :: timeMachineLine d) ds) = a :: map timeMachineLine ds.
Proof.
  intros Ha Hds. revert a Ha. induction Hds as [|d ds Hd Hds IH]; intros a Ha; cbn [flat_map map].
  - rewrite app_nil_r. by apply split_no_sep.
  - rewrite <- app_comm_cons, split_app by done. f_equal. apply IH.
    by destruct (line_parsed d Hd).
Qed.

Lemma parse_lines (ds : list jsstring) :
  Forall (λ d, is_date d = true) ds →
  omap parseLine (filter (λ line, keepLine line = true) (map timeMachineLine ds)) =
  map timeMachineSnapshot ds.
Proof.
  induction 1 as [|d ds Hd Hds IH]; [done|]. cbn [map].
  destruct (line_parsed d Hd) as (_ & Hk & Hp).
  rewrite filter_cons_True by done.
  change (omap parseLine (timeMachineLine d :: ?l))
    with (match parseLine (timeMachineLine d) with
          | Some y => y :: omap parseLine l
          | None => omap parseLine l
          end).
  by rewrite Hp, IH.
Qed.

Lemma last_unit_lines (h : jsstring) (ds : list jsstring) :
  ∃ t l, (lit "S" ++ h ++ lit ":") ++ flat_map (λ d, 10%N :: timeMachineLine d) ds =
         83%N :: t ++ [l] ∧ isWhiteSpace l = false.
Proof.
  induction ds as [|d ds _] using rev_ind.
  - exists h, 58%N. cbn [flat_map]. rewrite app_nil_r. split; reflexivity.
  - exists ((h ++ lit ":") ++ flat_map (λ d, 10%N :: timeMachineLine d) ds ++
            10%N :: lit "com.apple.TimeMachine." ++ d ++ lit ".loca"), 108%N.
    split; [|done]. rewrite flat_map_app. cbn [flat_map]. rewrite app_nil_r.
    unfold timeMachineLine at 2. change (lit ".local") with (lit ".loca" ++ [108%N]).
    change (lit "S" ++ h ++ lit ":") with (83%N :: h ++ lit ":").
    rewrite <- !app_comm_cons. f_equal.
    repeat first [rewrite <- app_comm_cons | rewrite <- app_assoc]. done.
Qed.

(** [tmutil] names the disk on a first line and a snapshot on every line
    after it.  When the snapshots are those of Time Machine, the list
    [loadSnapshots] sets has one entry for each line, in the order of the
    lines, with the date of the line as its id and its date; the line of the
    disk gives no entry, and the white space at the end of the output does
    not count.  The toast "No snapshots found" is shown exactly when no
    snapshot is named. *)
Theorem loadSnapshots_time_machine (ds : list jsstring) (ws : jsstring) :
  Forall (λ d, is_date d = true) ds → forallb isWhiteSpace ws = true →
  loadSnapshots
    (ExecOk (lit "Snapshots for disk /:" ++
             flat_map (λ d, 10%N :: timeMachineLine d) ds ++ ws)) =
  Loaded (Some (map timeMachineSnapshot ds))
         (match ds with
          | [] => Some (Toast Success (lit "No snapshots found")
                              (lit "There are no local Time Machine snapshots to clean"))
          | _ :: _ => None
          end)
         false.
Proof.
  intros Hds Hws.
  assert (Hlist : snapshotList (lit "Snapshots for disk /:" ++
                    flat_map (λ d, 10%N :: timeMachineLine d) ds ++ ws) =
                  map timeMachineSnapshot ds).
  { unfold snapshotList. rewrite app_assoc.
    destruct (last_unit_lines (lit "napshots for disk /") ds) as (t & l & Heq & Hl).
    change (lit "S" ++ lit "napshots for disk /" ++ lit ":")
      with (lit "Snapshots for disk /:") in Heq.
    rewrite Heq, trim_core by done. rewrite <- Heq.
    rewrite split_lines; [|by apply (not_elem_of_units 10 (lit "Snapshots for disk /:"))|done].
    rewrite filter_cons_False by by vm_compute.
    by apply parse_lines. }
  unfold loadSnapshots. rewrite Hlist, length_map. by destruct ds.
Qed.

Lemma startsWith_prefix (s p q : jsstring) :
  startsWith s (p ++ q) = true → startsWith s p = true.
Proof.
  revert s. induction p as [|c p IH]; intros s; [by destruct s|].
  destruct s as [|d s]; simpl; [done|]. case_bool_decide; [|done]. apply IH.
Qed.

Lemma includes_app_r (s b p : jsstring) : includes s p = true → includes (s ++ b) p = true.
Proof.
  induction s as [|c s IH]; rewrite includes_unfold.
  - destruct p; [|done]. intros _. by destruct b.
  - destruct (startsWith (c :: s) p) eqn:Hs.
    + intros _. apply includes_startsWith.
      rewrite (startsWith_inv _ _ Hs), <- app_assoc. apply startsWith_app.
    + intros Hi. rewrite <- app_comm_cons. by apply includes_cons, IH.
Qed.

Lemma trim_infix (s : jsstring) : ∃ a b, s = a ++ trim s ++ b.
Proof.
  destruct (trimStart_split s) as (a & Hs & _).
  destruct (trimStart_split (rev (trimStart s))) as (b & Hr & _).
  exists a, (rev b). unfold trim, trimEnd. rewrite <- rev_app_distr, <- Hr, rev_involutive.
  exact Hs.
Qed.

Lemma includes_trim (s p : jsstring) : includes (trim s) p = true → includes s p = true.
Proof.
  intros H. destruct (trim_infix s) as (a & b & Hs). rewrite Hs.
  by apply includes_app_l, includes_app_r.
Qed.

Lemma tmMatch_includes (s d : jsstring) :
  tmMatch s = Some d → includes s (lit "com.apple.TimeMachine") = true.
Proof.
  induction s as [|c s IH]; rewrite tmMatch_unfold.
  - by destruct (has_shape _ _).
  - destruct (_ && _) eqn:Hc.
    + intros _. apply andb_true_iff in Hc as [Hs _]. apply includes_startsWith.
      apply (startsWith_prefix _ _ (lit ".")). exact Hs.
    + intros H. by apply includes_cons, IH.
Qed.

Lemma startsWith_com_underscore (s : jsstring) :
  startsWith s (lit "com_") = true → includes s (lit "_") = true.
Proof.
  intros Hs%startsWith_inv. rewrite Hs.
  change (lit "com_") with (lit "com" ++ lit "_"). rewrite <- app_assoc.
  apply includes_app_l, includes_startsWith, startsWith_app.
Qed.

(** What [parseLine] answers, without the names it makes up. *)
Lemma parseLine_Some (line : jsstring) :
  is_Some (parseLine line) ↔
  is_Some (tmMatch (trim line)) ∨ includes (trim line) (lit "_") = true.
Proof.
  unfold parseLine. destruct (tmMatch (trim line)) as [d|] eqn:Hm.
  - split; [by left|]. by eexists.
  - pose proof (startsWith_com_underscore (trim line)) as Hc.
    destruct (startsWith (trim line) (lit "com_")) eqn:Hs.
    + rewrite (Hc eq_refl). cbn [orb]. split; [intros _; by right|intros _; by eexists].
    + destruct (includes (trim line) (lit "_")) eqn:Hi; cbn [orb].
      * split; [intros _; by right|intros _; by eexists].
      * split; [by intros [? ?]|]. intros [[? ?]|?]; done.
Qed.

(** The filter and the map together. *)
Lemma kept_entry (line : jsstring) :
  keepLine line = true ∧ is_Some (parseLine line) ↔ entry_line line.
Proof.
  rewrite parseLine_Some. unfold keepLine, entry_line. split.
  - intros [Hk [Hm|Hu]]; [by left|]. right. split; [done|].
    destruct (includes line (lit "com.apple.TimeMachine")); [by left|].
    destruct (startsWith line (lit "com_")); [by right; left|].
    destruct (includes line (lit "local")); [by right; right; left|].
    cbn [orb] in Hk. apply andb_true_iff in Hk as [_ Hk]. right; right; right.
    by apply negb_true_iff.
  - intros [[d Hm]|[Hu Hk]].
    + split; [|left; by eexists].
      by rewrite (includes_trim _ _ (tmMatch_includes _ _ Hm)).
    + split; [|by right].
      assert (Ht : truthy (trim line) = true).
      { destruct (trim line); [by vm_compute in Hu|done]. }
      rewrite Ht. destruct Hk as [-> | [-> | [-> | ->]]]; by rewrite ?orb_true_r.
Qed.

Lemma snapshotList_length (lines : list jsstring) :
  length (omap parseLine (filter (λ line, keepLine line = true) lines)) =
  length (filter entry_line lines).
Proof.
  induction lines as [|line lines IH]; [done|]. rewrite !filter_cons.
  pose proof (kept_entry line) as Hk.
  destruct (decide (keepLine line = true)) as [Hkeep|Hkeep].
  - change (omap parseLine (line :: ?l))
      with (match parseLine line with
            | Some y => y :: omap parseLine l
            | None => omap parseLine l
            end).
    destruct (parseLine line) as [s|] eqn:Hp.
    + rewrite decide_True by (apply Hk; split; [done|by eexists]). simpl. by rewrite IH.
    + rewrite decide_False; [done|]. intros [_ [? ?]]%Hk. done.
  - rewrite decide_False; [done|]. intros [? _]%Hk. done.
Qed.

(** The entries of the list come from the lines of the output that the
    filter keeps and the map does not answer [null] for.  Such a line is
    one that, white space at its ends apart, holds the name of a Time
    Machine snapshot with its date, or one that holds an underscore and
    contains "com.apple.TimeMachine" or "local", starts with "com_", or
    does not contain "Snapshots for": a line with an underscore that says
    "Snapshots for" and has none of these marks gives no entry.  There is
    one entry per such line.  The entry of a Time Machine name has the date
    of the name as its id; every other entry has the line itself, trimmed
    and without its first ".local", as its id.  The date of an entry is its
    id.  A blank line gives no entry. *)
Theorem parseLine_entries (stdout : jsstring) :
  (∀ s, s ∈ snapshotList stdout ↔
        ∃ line, line ∈ split 10 (trim stdout) ∧ entry_line line ∧ parseLine line = Some s) ∧
  length (snapshotList stdout) = length (filter entry_line (split 10 (trim stdout))) ∧
  (∀ line, keepLine line = true ∧ is_Some (parseLine line) ↔ entry_line line) ∧
  (∀ line, entry_line line → is_Some (parseLine line)) ∧
  (∀ line s, parseLine line = Some s →
             Snapshot.date s = Snapshot.id s ∧
             match tmMatch (trim line) with
             | Some d => Snapshot.id s = d ∧ is_date d = true
             | None => Snapshot.id s = remove_first (lit ".local") (trim line)
             end) ∧
  (∀ line, includes (trim line) (lit "_") = true →
           includes line (lit "Snapshots for") = true →
           includes line (lit "com.apple.TimeMachine") = false →
           startsWith line (lit "com_") = false →
           includes line (lit "local") = false →
           is_Some (parseLine line) ∧ ¬ entry_line line) ∧
  (∀ line, forallb isWhiteSpace line = true → ¬ entry_line line).
Proof.
  split_and!.
  - intros s. unfold snapshotList. rewrite list_elem_of_omap. split.
    + intros (line & [Hk Hin]%list_elem_of_filter & Hp). exists line.
      split_and!; [done| |done]. apply kept_entry. split; [done|by eexists].
    + intros (line & Hin & [Hk _]%kept_entry & Hp). exists line. split; [|done].
      by apply list_elem_of_filter.
  - apply snapshotList_length.
  - apply kept_entry.
  - by intros line [_ Hp]%kept_entry.
  - intros line s. unfold parseLine. destruct (tmMatch (trim line)) as [d|] eqn:Hm.
    + intros [= <-]. simpl. split_and!; try done. by apply (tmMatch_date (trim line)).
    + destruct (_ || _); [|done]. by intros [= <-].
  - intros line Hu Hs Htm Hc Hl. split; [apply parseLine_Some; by right|].
    intros [[d Hm]|[_ Hk]].
    + rewrite (includes_trim _ _ (tmMatch_includes _ _ Hm)) in Htm. done.
    + destruct Hk as [?|[?|[?|?]]]; congruence.
  - intros line Hb [[d Hm]|[Hu _]]; rewrite trim_blank in * by done; done.
Qed.

End SnapshotList.

Lemma parseLine_time_machine (line d : jsstring) :
  tmMatch (trim line) = Some d → parseLine line = Some (timeMachineSnapshot d).
Proof. intros Hm. unfold parseLine. by rewrite Hm. Qed.

(** The id of an entry made of a Time Machine name is a date of seventeen
    units, digits and hyphens only, so the shell reads it as one word: the
    deletion command of such a snapshot is read as [printf] piped into
    [sudo -S /usr/bin/tmutil deletelocalsnapshots] with the id as the last
    argument, whatever the password. *)
Theorem time_machine_deletion_command (line password : jsstring) (s : Snapshot.t) :
  parseLine line = Some s → is_Some (tmMatch (trim line)) →
  length (Snapshot.id s) = 17 ∧
  Forall (λ c, is_digit c = true ∨ c = 45%N) (Snapshot.id s) ∧
  sh_tokens Between (deleteCommand password (Snapshot.id s)) =
    Some [Word (lit "printf"); Word (lit "%s\n"); Word password; Operator (lit "|");
          Word (lit "sudo"); Word (lit "-S"); Word (lit "/usr/bin/tmutil");
          Word (lit "deletelocalsnapshots"); Word (Snapshot.id s)].
Proof.
  intros Hp [d Hm]. rewrite (parseLine_time_machine line d Hm) in Hp. injection Hp as <-.
  pose proof (tmMatch_date _ _ Hm) as Hd. simpl. split_and!.
  - apply andb_true_iff in Hd as [Hlen _]. by apply Nat.eqb_eq in Hlen.
  - by apply date_units.
  - unfold deleteCommand, escapedPassword. simpl.
    rewrite sh_tokens_escaped. simpl. rewrite sh_tokens_plain_word; [done|]. by apply date_plain.
Qed.

Ltac destruct_date d :=
  do 17 (destruct d as [|? d]; [done|]); (destruct d; [|done]).

(** Two Time Machine snapshots of different dates never show the same
    name. *)
Theorem displayName_injective (d d' : jsstring) :
  is_date d = true → is_date d' = true →
  Snapshot.displayName (timeMachineSnapshot d) = Snapshot.displayName (timeMachineSnapshot d') →
  d = d'.
Proof.
  intros Hd Hd' Heq. destruct_date d. destruct_date d'.
  unfold is_date, date_shape in Hd, Hd'. cbn [has_shape length Nat.eqb] in Hd, Hd'.
  repeat match goal with H : _ && _ = true |- _ => apply andb_true_iff in H as [? ?] end.
  repeat match goal with H : is_hyphen _ = true |- _ => apply bool_decide_eq_true in H end.
  subst. cbv in Heq. by simplify_eq.
Qed.

Lemma split_nonempty (sep : N) (s : jsstring) : split sep s ≠ [].
Proof.
  destruct s as [|c s]; [done|]. cbn [split]. case_bool_decide; [done|].
  by destruct (split sep s).
Qed.

Lemma split_app_parts (sep : N) (a v : jsstring) :
  ∃ p ps, split sep (a ++ sep :: v) = p :: ps ∧ ps ≠ [] ∧ last ps = last (split sep v).
Proof.
  induction a as [|c a IH]; cbn [app split].
  - rewrite bool_decide_eq_true_2 by done. exists [], (split sep v).
    split_and!; [done|apply split_nonempty|done].
  - destruct IH as (p & ps & -> & Hne & Hlast). case_bool_decide.
    + exists [], (p :: ps). split_and!; [done..|]. rewrite <- Hlast. by destruct ps.
    + by exists (c :: p), ps.
Qed.

Lemma last_split_app (sep : N) (a v : jsstring) :
  last (split sep (a ++ sep :: v)) = last (split sep v).
Proof.
  destruct (split_app_parts sep a v) as (p & ps & -> & Hne & <-). by destruct ps.
Qed.

(** The number shown for a snapshot of Arq is what follows the last
    underscore of its id, and "?" when nothing follows it. *)
Theorem version_after_last_underscore (a v : jsstring) :
  95%N ∉ v →
  version (a ++ 95%N :: v) = match v with [] => lit "?" | _ :: _ => v end.
Proof.
  intros Hv. unfold version. rewrite last_split_app, split_no_sep by done.
  by destruct v.
Qed.

(** * The summary of a run *)

Lemma failedResults_nil (rs : list DeletionResult) : failed rs = 0 → failedResults rs = [].
Proof. unfold failed, failedResults. by destruct (filter _ rs). Qed.

(** The summary of a confirmed deletion counts the selected snapshots:
    every one of them is counted as deleted or as failed.  The toast is one
    of success exactly when none failed; it then says that as many snapshots
    as were selected have been deleted, and no toast of details follows.
    When some were deleted and some failed the toast gives both numbers. *)
Theorem summary_counts_selection password selected concurrency c b t details :
  deleteSnapshots password selected true concurrency (Finished c b t details) →
  successful (results c) + failed (results c) = length selected ∧
  (style t = Success ↔ failed (results c) = 0) ∧
  (failed (results c) = 0 →
   b = AllDeleted ∧ title t = lit "All snapshots deleted successfully" ∧
   message t = toString (length selected) ++ lit " snapshot(s) deleted" ∧ details = []) ∧
  (b = PartiallyCompleted →
   style t = Failure ∧ title t = lit "Partially completed" ∧
   message t = toString (successful (results c)) ++ lit " deleted, " ++
               toString (failed (results c)) ++ lit " failed") ∧
  (b = FailedToDelete → successful (results c) = 0 ∧ failed (results c) = length selected).
Proof.
  intros He. pose proof (finished_results _ _ _ _ He) as Hp. simpl in Hp.
  apply Permutation_length in Hp. rewrite length_fmap in Hp.
  pose proof (successful_failed (results c)) as Hsf.
  inversion He as [| |ls s rs Hsel _ Hls Hpc [Hc Hb Ht Hds]]. subst c.
  set (r := results (Runner.user s)) in *. clearbody r.
  unfold summaryToast, detailToasts in *.
  destruct (failed r =? 0) eqn:Hf; [apply Nat.eqb_eq in Hf|apply Nat.eqb_neq in Hf].
  - simpl. rewrite (failedResults_nil r Hf). simpl.
    replace (successful r) with (length selected) by lia. split_and!; try done. lia.
  - destruct (successful r =? 0) eqn:Hs; [apply Nat.eqb_eq in Hs|apply Nat.eqb_neq in Hs];
      simpl; split_and!; try done; try lia.
Qed.

(** * The theorems at work *)

Lemma fn_called_once_witness :
  ∃ s', Runner.step (task (lit "pw") [lit "a"; lit "b"]) (task_resume [lit "a"; lit "b"])
          [lit "a"; lit "b"] (Int 2) Runner.Tick (batch [lit "a"; lit "b"] (Int 2)) = Some s' ∧
        ∃ o, task (lit "pw") [lit "a"; lit "b"] (lit "a") 0
               (Runner.user (batch [lit "a"; lit "b"] (Int 2))) = (Runner.user s', o) ∧
             Runner.phases s' !! 0 = Some (Runner.reaction_of o).
Proof.
  eexists. split; [vm_compute; reflexivity|].
  refine (proj2 (proj2 (proj1 (fn_called_once (task (lit "pw") [lit "a"; lit "b"])
            (task_resume [lit "a"; lit "b"]) [lit "a"; lit "b"] (Int 2)
            (start [lit "a"; lit "b"]) [] _ _ Runner.Tick _ _)
            (lit "a") 0 [Runner.JCall (lit "b") 1] _)));
    vm_compute; reflexivity.
Defined.

Lemma splice_removes_own_promise_witness :
  ∃ s s', batch_steps (lit "pw") [lit "a"; lit "b"] (Int 1)
            [Runner.Tick; Runner.Tick; Runner.Deliver 0 denied; Runner.Tick]
            (batch [lit "a"; lit "b"] (Int 1)) = Some s ∧
          Runner.queue s = [Runner.JSplice 0] ∧
          Runner.step (task (lit "pw") [lit "a"; lit "b"]) (task_resume [lit "a"; lit "b"])
            [lit "a"; lit "b"] (Int 1) Runner.Tick s = Some s' ∧
          Runner.executing s = [0] ∧ Runner.executing s' = [] ∧
          S (length (Runner.executing s')) = length (Runner.executing s).
Proof.
  eexists _, _. split; [vm_compute; reflexivity|]. split; [reflexivity|].
  split; [vm_compute; reflexivity|]. split; [reflexivity|]. split; [reflexivity|].
  match goal with
  | |- S (length (Runner.executing ?s')) = length (Runner.executing ?s) =>
      exact (proj1 (proj2 (proj2
               (splice_removes_own_promise (task (lit "pw") [lit "a"; lit "b"])
                  (task_resume [lit "a"; lit "b"]) [lit "a"; lit "b"] (Int 1)
                  (start [lit "a"; lit "b"])
                  [Runner.Tick; Runner.Tick; Runner.Deliver 0 denied; Runner.Tick]
                  s s' 0 []
                  ltac:(vm_compute; reflexivity) ltac:(vm_compute; reflexivity)
                  ltac:(vm_compute; reflexivity)))))
  end.
Defined.

Lemma tasks_called_in_order_witness :
  ∃ s, batch_steps (lit "pw") [lit "a"; lit "b"; lit "c"] (Int 2)
         [Runner.Tick; Runner.Tick]
         (batch [lit "a"; lit "b"; lit "c"] (Int 2)) = Some s ∧
       Runner.phases s = [Runner.Pending (lit "a"); Runner.Pending (lit "b")] ∧
       ∀ x i q, Runner.queue s = Runner.JCall x i :: q →
                ∀ i', i' < i → ∃ f, Runner.phases s !! i' = Some f ∧ f ≠ Runner.NotCalled.
Proof.
  eexists. split; [vm_compute; reflexivity|]. split; [reflexivity|].
  refine (proj1 (tasks_called_in_order (task (lit "pw") [lit "a"; lit "b"; lit "c"])
            (task_resume [lit "a"; lit "b"; lit "c"]) [lit "a"; lit "b"; lit "c"] (Int 2)
            (start [lit "a"; lit "b"; lit "c"]) [Runner.Tick; Runner.Tick] _ _)).
  vm_compute; reflexivity.
Defined.

Lemma limit_one_is_sequential_witness :
  ∃ s, batch_steps (lit "pw") [lit "a"; lit "b"] (Int 1)
         [Runner.Tick; Runner.Tick; Runner.Deliver 0 (ExecOk []);
          Runner.Tick; Runner.Tick; Runner.Tick; Runner.Tick]
         (batch [lit "a"; lit "b"] (Int 1)) = Some s ∧
       Runner.phases s = [Runner.Fulfilled (); Runner.NotCalled] ∧
       ∀ i, S i < length (Runner.phases s) → ∃ r, Runner.phases s !! i = Some (Runner.Fulfilled r).
Proof.
  eexists. split; [vm_compute; reflexivity|]. split; [reflexivity|].
  refine (proj1 (limit_one_is_sequential (task (lit "pw") [lit "a"; lit "b"])
            (task_resume [lit "a"; lit "b"]) [lit "a"; lit "b"] (Int 1)
            (start [lit "a"; lit "b"])
            [Runner.Tick; Runner.Tick; Runner.Deliver 0 (ExecOk []);
             Runner.Tick; Runner.Tick; Runner.Tick; Runner.Tick] _ eq_refl _)).
  vm_compute; reflexivity.
Defined.

Lemma sequential_results_in_order_witness :
  ∃ e, deleteSnapshots (lit "pw") [lit "a"; lit "b"] true (Some (lit "1")) e ∧
       snapshot <$> outcomes e = [lit "a"; lit "b"] ∧ length (outcomes e) = 2.
Proof.
  eexists. split.
  - eapply (delete_finished _ _ _ _
              ([Runner.Tick; Runner.Tick; Runner.Deliver 0 (ExecOk [])] ++
               replicate 6 Runner.Tick ++ [Runner.Deliver 1 denied] ++ replicate 6 Runner.Tick));
      [done|done|vm_compute; reflexivity|reflexivity].
  - split; [|reflexivity].
    refine (sequential_results_in_order (lit "pw") [lit "a"; lit "b"] (Some (lit "1")) _ _ _);
      [reflexivity|].
    eapply (delete_finished _ _ _ _
              ([Runner.Tick; Runner.Tick; Runner.Deliver 0 (ExecOk [])] ++
               replicate 6 Runner.Tick ++ [Runner.Deliver 1 denied] ++ replicate 6 Runner.Tick));
      [done|done|vm_compute; reflexivity|reflexivity].
Defined.

Lemma completedCount_progress_witness :
  ∃ s s', batch_steps (lit "pw") [lit "a"; lit "b"] (Int 2) (replicate 4 Runner.Tick)
            (batch [lit "a"; lit "b"] (Int 2)) = Some s ∧
          Runner.step (task (lit "pw") [lit "a"; lit "b"]) (task_resume [lit "a"; lit "b"])
            [lit "a"; lit "b"] (Int 2) (Runner.Deliver 1 denied) s = Some s' ∧
          completedCount (Runner.user s) = 0 ∧
          completedCount (Runner.user s') = completedCount (Runner.user s) + 1.
Proof.
  eexists _, _. split; [vm_compute; reflexivity|]. split; [vm_compute; reflexivity|].
  split; [reflexivity|].
  match goal with
  | |- completedCount (Runner.user ?s') = completedCount (Runner.user ?s) + 1 =>
      exact (proj1 (completedCount_progress (lit "pw") [lit "a"; lit "b"] (Int 2)
                      (replicate 4 Runner.Tick) s s' (Runner.Deliver 1 denied)
                      ltac:(vm_compute; reflexivity) ltac:(vm_compute; reflexivity)))
  end.
Defined.

Lemma commands_are_deletions_witness :
  ∃ s, batch_steps (lit "pw") [lit "a"; lit "b"] (Int 2) (replicate 4 Runner.Tick)
         (batch [lit "a"; lit "b"] (Int 2)) = Some s ∧
       spawned (Runner.user s) =
         [deleteCommand (lit "pw") (lit "a"); deleteCommand (lit "pw") (lit "b")] ∧
       ∀ c, c ∈ spawned (Runner.user s) →
            ∃ x, x ∈ [lit "a"; lit "b"] ∧ c = deleteCommand (lit "pw") x.
Proof.
  eexists. split; [vm_compute; reflexivity|]. split; [reflexivity|].
  refine (proj1 (commands_are_deletions (lit "pw") [lit "a"; lit "b"] (Int 2)
                   (replicate 4 Runner.Tick) _ _)).
  vm_compute; reflexivity.
Defined.

Lemma toast_shows_counter_witness :
  ∃ s, batch_steps (lit "pw") [lit "a"; lit "b"] (Int 2)
         (replicate 4 Runner.Tick ++ [Runner.Deliver 1 (ExecOk [])])
         (batch [lit "a"; lit "b"] (Int 2)) = Some s ∧
       completedCount (Runner.user s) = 1 ∧
       toastMessage (Runner.user s) =
       toString (completedCount (Runner.user s)) ++ lit "/" ++ toString 2 ++ lit " completed".
Proof.
  eexists. split; [vm_compute; reflexivity|]. split; [reflexivity|].
  refine (toast_shows_counter (lit "pw") [lit "a"; lit "b"] (Int 2)
            (replicate 4 Runner.Tick ++ [Runner.Deliver 1 (ExecOk [])]) _ _).
  vm_compute; reflexivity.
Defined.

Lemma auth_error_is_stderr_witness :
  isAuthError (ErrorObject (lit "Command failed") (Some (lit "Sorry, try again.")) None) = true ∧
  ∃ message stderr stdout,
    ErrorObject (lit "Command failed") (Some (lit "Sorry, try again.")) None =
      ErrorObject message (Some stderr) stdout ∧ stderr ≠ [] ∧
    errorMessage (ErrorObject (lit "Command failed") (Some (lit "Sorry, try again.")) None) =
      stderr ∧
    (includes stderr (lit "Sorry") = true ∨ includes stderr (lit "incorrect password") = true) ∧
    verifyPassword_result
      (ExecFailed (ErrorObject (lit "Command failed") (Some (lit "Sorry, try again.")) None)) =
    Verdict false (Some (lit "Incorrect password")).
Proof.
  split; [reflexivity|].
  exact (auth_error_is_stderr
           (ErrorObject (lit "Command failed") (Some (lit "Sorry, try again.")) None) eq_refl).
Defined.

Lemma failed_submit_message_witness :
  trim (lit "secret") ≠ [] ∧
  error (after (handleSubmit (λ _, denied) (Form (lit "secret") false None))) =
    Some (lit "Incorrect password") ∧
  onSubmit (handleSubmit (λ _, denied) (Form (lit "secret") false None)) = None.
Proof.
  assert (Hne : trim (lit "secret") ≠ []) by (vm_compute; discriminate).
  split; [exact Hne|].
  pose proof (failed_submit_message (λ _, denied) (Form (lit "secret") false None)
                (ErrorObject (lit "Command failed") (Some (lit "Sorry, try again.")) None)
                Hne eq_refl) as (_ & H2 & _ & _ & _ & H6 & _).
  split; [exact H6|exact H2].
Defined.

Lemma concurrencyLimit_reads_prefix_witness :
  forallb isWhiteSpace (lit " ") = true ∧
  concurrencyLimit (Some (lit " 2 threads")) = Int 2 ∧
  concurrencyLimit (Some (lit " -2 threads")) = Int (-2) ∧
  concurrencyLimit (Some (lit " -0 threads")) = NegZero.
Proof.
  split; [reflexivity|].
  pose proof (concurrencyLimit_reads_prefix (lit " ") (lit " threads") 2 eq_refl eq_refl)
    as (H1 & _ & H3 & _).
  split; [exact H1|]. split; [exact H3|].
  pose proof (concurrencyLimit_reads_prefix (lit " ") (lit " threads") 0 eq_refl eq_refl)
    as (_ & _ & H4 & _).
  exact H4.
Defined.

Lemma toggleSnapshot_toggles_witness :
  NoDup [lit "a"; lit "b"] ∧
  toggleSnapshot (lit "a") [lit "a"; lit "b"] = [lit "b"] ∧
  toggleSnapshot (lit "a") (toggleSnapshot (lit "a") [lit "a"; lit "b"]) ≡ₚ [lit "a"; lit "b"].
Proof.
  assert (Hnd : NoDup [lit "a"; lit "b"]) by (apply (bool_decide_unpack _); vm_compute; exact I).
  split; [exact Hnd|].
  pose proof (toggleSnapshot_toggles (lit "a") [lit "a"; lit "b"] Hnd) as (H1 & _ & _ & _ & H5 & _).
  split; [exact H1|exact H5].
Defined.

Lemma loadSnapshots_time_machine_witness :
  Forall (λ d, is_date d = true) [lit "2024-01-13-120000"] ∧
  loadSnapshots
    (ExecOk (lit "Snapshots for disk /:" ++ [10%N] ++
             lit "com.apple.TimeMachine.2024-01-13-120000.local" ++ [10%N])) =
  Loaded (Some [Snapshot.Make (lit "2024-01-13-120000") (lit "2024-01-13-120000")
                  (lit "Time Machine - 13/01/2024 12:00:00")])
         None false.
Proof.
  assert (Hd : Forall (λ d, is_date d = true) [lit "2024-01-13-120000"])
    by (apply Forall_cons; split; [reflexivity|apply Forall_nil_2]).
  split; [exact Hd|].
  exact (loadSnapshots_time_machine [lit "2024-01-13-120000"] [10%N] Hd eq_refl).
Defined.

Lemma time_machine_deletion_command_witness :
  parseLine (lit "com.apple.TimeMachine.2024-01-13-120000.local") =
    Some (timeMachineSnapshot (lit "2024-01-13-120000")) ∧
  sh_tokens Between (deleteCommand (lit "it's") (lit "2024-01-13-120000")) =
    Some [Word (lit "printf"); Word (lit "%s\n"); Word (lit "it's"); Operator (lit "|");
          Word (lit "sudo"); Word (lit "-S"); Word (lit "/usr/bin/tmutil");
          Word (lit "deletelocalsnapshots"); Word (lit "2024-01-13-120000")].
Proof.
  split; [vm_compute; reflexivity|].
  refine (proj2 (proj2 (time_machine_deletion_command
            (lit "com.apple.TimeMachine.2024-01-13-120000.local") (lit "it's")
            (timeMachineSnapshot (lit "2024-01-13-120000")) _ _)));
    [vm_compute; reflexivity|].
  exists (lit "2024-01-13-120000"). vm_compute; reflexivity.
Defined.

Lemma displayName_injective_witness :
  is_date (lit "2024-01-13-120000") = true ∧
  Snapshot.displayName (timeMachineSnapshot (lit "2024-01-13-120000")) =
    lit "Time Machine - 13/01/2024 12:00:00" ∧
  lit "2024-01-13-120000" = lit "2024-01-13-120000".
Proof.
  split; [reflexivity|]. split; [reflexivity|].
  exact (displayName_injective (lit "2024-01-13-120000") (lit "2024-01-13-120000")
           eq_refl eq_refl eq_refl).
Defined.

Lemma version_after_last_underscore_witness :
  (95%N ∉ lit "7") ∧
  version (lit "com_haystacksoftware_arqagent_ABCD_7") = lit "7".
Proof.
  assert (Hv : 95%N ∉ lit "7") by (apply (bool_decide_unpack _); vm_compute; exact I).
  split; [exact Hv|].
  exact (version_after_last_underscore (lit "com_haystacksoftware_arqagent_ABCD") (lit "7") Hv).
Defined.

Lemma escapeSingleQuote_injective_witness :
  escapeSingleQuote (lit "it's") = lit "it'\''s" ∧ lit "it's" = lit "it's".
Proof.
  split; [reflexivity|].
  exact (escapeSingleQuote_injective (lit "it's") (lit "it's") eq_refl).
Defined.

Lemma auth_toast_shown_witness :
  ∃ s, batch_steps (lit "pw") [lit "a"; lit "b"] (Int 1)
         [Runner.Tick; Runner.Tick; Runner.Deliver 0 denied]
         (batch [lit "a"; lit "b"] (Int 1)) = Some s ∧
       shown (Runner.user s) = [authToast] ∧
       (authFailed (Runner.user s) = true ↔ authToast ∈ shown (Runner.user s)).
Proof.
  eexists. split; [vm_compute; reflexivity|]. split; [reflexivity|].
  refine (proj1 (auth_toast_shown (lit "pw") [lit "a"; lit "b"] (Int 1)
                   [Runner.Tick; Runner.Tick; Runner.Deliver 0 denied] _ _)).
  vm_compute; reflexivity.
Defined.

Lemma running_commands_bounded_witness :
  ∃ s, batch_steps (lit "pw") [lit "a"; lit "b"; lit "c"] (Int 2) (replicate 4 Runner.Tick)
         (batch [lit "a"; lit "b"; lit "c"] (Int 2)) = Some s ∧
       length (spawned (Runner.user s)) = 2 ∧ completedCount (Runner.user s) = 0 ∧
       length (spawned (Runner.user s)) - completedCount (Runner.user s) ≤ Z.to_nat 2.
Proof.
  eexists. split; [vm_compute; reflexivity|]. split; [reflexivity|]. split; [reflexivity|].
  refine (proj1 (running_commands_bounded (lit "pw") [lit "a"; lit "b"; lit "c"] (Int 2) 2
                   (replicate 4 Runner.Tick) _ eq_refl _ _)); [lia|].
  vm_compute; reflexivity.
Defined.

Lemma summary_counts_selection_witness :
  ∃ c b t details,
    deleteSnapshots (lit "pw") [lit "a"; lit "b"] true (Some (lit "2"))
      (Finished c b t details) ∧
    successful (results c) + failed (results c) = 2.
Proof.
  eexists _, _, _, _.
  refine ((λ H, conj H (proj1 (summary_counts_selection (lit "pw") [lit "a"; lit "b"]
                                 (Some (lit "2")) _ _ _ _ H))) _).
  eapply (delete_finished _ _ _ _
            (replicate 4 Runner.Tick ++ [Runner.Deliver 1 (ExecOk [])] ++
             replicate 5 Runner.Tick ++ [Runner.Deliver 0 denied] ++
             replicate 4 Runner.Tick));
    [done|done|vm_compute; reflexivity|reflexivity].
Defined.

Lemma parseLine_entries_witness :
  length (snapshotList (lit "Snapshots for x_y" ++ [10%N] ++ lit "com_a_1")) = 1 ∧
  is_Some (parseLine (lit "Snapshots for x_y")) ∧
  ¬ entry_line (lit "Snapshots for x_y").
Proof.
  pose proof (parseLine_entries (lit "Snapshots for x_y" ++ [10%N] ++ lit "com_a_1"))
    as (_ & Hlen & _ & _ & _ & Hfor & _).
  split; [etrans; [exact Hlen|vm_compute; reflexivity]|].
  exact (Hfor (lit "Snapshots for x_y") eq_refl eq_refl eq_refl eq_refl eq_refl).
Defined.
